(** * talk2ai: the session pipeline of the voice assistant

    A shallow embedding of the Cloudflare Durable Object that mediates one
    spoken conversation ([index.ts], in its WebSocket-transcription
    version) and of its two Deepgram links ([deepgram-tts.ts]), with the
    properties of the specification stated over it.

    Conventions.
    - JavaScript strings are [string]: sequences of 8-bit code units (the
      Latin-1 range of UTF-16 code units).
    - [ws.send(JSON.stringify(m))] is the structured value [m] appended to
      the log of outbound messages.
    - Asynchronous code is cut at its suspension points: every turn of the
      event loop is one [event], handled to completion by a total function.
      What the outside world answers (a settled promise, a clock reading, an
      SDK event) is carried by the event.
    - [console.log] and [console.error] calls are dropped; the
      [console.warn] of [sendAudio] is kept as an effect.
    - Line numbers are those of [deepgram-tts.ts] for the two links and of
      the version of [index.ts] that connects the transcription link for
      the controller; the earlier version of [index.ts], which posts each
      audio message to the REST endpoint, has the same queue job and the
      same clear command (module [Legacy]).
    - The default export of [index.ts], which routes a request to a
      session object, is module [Worker]. *)

From Stdlib Require Import String Ascii List Bool Arith NArith Lia.
From Stdlib Require DecimalString.
From Equations Require Import Equations.
Import ListNotations.
Local Open Scope string_scope.
Local Open Scope list_scope.
Local Open Scope nat_scope.

(** ** JavaScript values used by the code *)

Module JS.

(** [new Error(message)]. *)
Inductive error : Type := Error (message : string).

(** White space of [String.prototype.trim] among 8-bit code units:
    TAB, LF, VT, FF, CR, SP and NBSP. *)
Definition is_space (c : ascii) : bool :=
  let n := nat_of_ascii c in
  ((9 <=? n) && (n <=? 13)) || (n =? 32) || (n =? 160).

Fixpoint trimStart (s : string) : string :=
  match s with
  | EmptyString => EmptyString
  | String c rest => if is_space c then trimStart rest else s
  end.

Fixpoint rev (s : string) : string :=
  match s with
  | EmptyString => EmptyString
  | String c rest => (rev rest ++ String c EmptyString)%string
  end.

Definition trimEnd (s : string) : string := rev (trimStart (rev s)).

Definition trim (s : string) : string := trimEnd (trimStart s).

(** Truthiness of a string: only [''] is falsy. *)
Definition truthy (s : string) : bool :=
  match s with EmptyString => false | String _ _ => true end.

(** [parts.join('')]. *)
Fixpoint join (parts : list string) : string :=
  match parts with
  | [] => EmptyString
  | p :: rest => (p ++ join rest)%string
  end.

Lemma append_nil_r (s : string) : (s ++ "")%string = s.
Proof. induction s as [|c s IH]; simpl; congruence. Qed.

Lemma append_assoc (a b c : string) :
  (a ++ (b ++ c))%string = ((a ++ b) ++ c)%string.
Proof. induction a as [|x a IH]; simpl; congruence. Qed.

Lemma join_app (xs ys : list string) :
  join (xs ++ ys) = (join xs ++ join ys)%string.
Proof.
  induction xs as [|x xs IH]; simpl; [reflexivity|].
  now rewrite IH, append_assoc.
Qed.

Lemma rev_append (a b : string) : rev (a ++ b) = (rev b ++ rev a)%string.
Proof.
  induction a as [|c a IH]; simpl.
  - now rewrite append_nil_r.
  - now rewrite IH, append_assoc.
Qed.

Lemma rev_involutive (s : string) : rev (rev s) = s.
Proof.
  induction s as [|c s IH]; simpl; [reflexivity|].
  rewrite rev_append. simpl. congruence.
Qed.

End JS.

(** ** Sentence Buffer *)

Module SentenceBuffer.

(** Modelled from the spec: [bufferText] is imported from [./utils], which
    is not among the sources.  Section 4.1 gives the procedure: each
    fragment is appended to the residual buffer, then leading substrings
    ending at a sentence boundary (terminal punctuation, or a hard length
    cap) are extracted and emitted as they are, the rest stays buffered,
    and a non-empty residual is flushed when the stream ends.  The cap has
    no stated value and is the parameter [cap].

    [is_terminal]: terminal punctuation that closes a sentence. *)
Definition is_terminal (c : ascii) : bool :=
  let n := nat_of_ascii c in (n =? 46) || (n =? 33) || (n =? 63).

(** Modelled from the spec: [extract cap n buf] is the leading substring
    of [buf] that ends at the first sentence boundary, and what is left.  A boundary is a terminal
    punctuation mark, or the [cap]-th character of the unit ([n]
    characters of it lie before [buf]).  [None] when [buf] holds no
    boundary. *)
Fixpoint extract (cap n : nat) (buf : string) : option (string * string) :=
  match buf with
  | EmptyString => None
  | String c rest =>
      if is_terminal c || (cap <=? S n) then Some (String c EmptyString, rest)
      else match extract cap (S n) rest with
           | Some (u, r) => Some (String c u, r)
           | None => None
           end
  end.

Lemma extract_shorter cap n buf u r :
  extract cap n buf = Some (u, r) -> String.length r < String.length buf.
Proof.
  revert n u r; induction buf as [|c rest IH]; intros n u r; simpl.
  - discriminate.
  - destruct (is_terminal c || (cap <=? S n)).
    + intros [= <- <-]. lia.
    + destruct (extract cap (S n) rest) as [[u' r']|] eqn:E; [|discriminate].
      intros [= <- <-]. specialize (IH _ _ _ E). lia.
Qed.

Definition inspect {A : Type} (a : A) : {b : A | a = b} := exist _ a eq_refl.

(** Modelled from the spec: [drain cap buf] extracts leading units for as
    long as the buffer holds a boundary; the raw slices in order, and the
    residual. *)
Equations? drain (cap : nat) (buf : string) : list string * string
  by wf (String.length buf) lt :=
  drain cap buf with inspect (extract cap 0 buf) := {
    | exist _ (Some (u, r)) _ =>
        let rest := drain cap r in (u :: fst rest, snd rest)
    | exist _ None _ => ([], buf)
    }.
Proof. eapply extract_shorter; eauto. Qed.

(** Modelled from the spec: [accumulate] is one iteration of the loop over
    the stream: the fragment is appended to the residual, the leading
    substrings that end at a boundary are emitted, in order, and the rest
    is the new residual. *)
Definition accumulate (cap : nat) (residual fragment : string)
  : list string * string :=
  drain cap (residual ++ fragment).

(** Modelled from the spec: the loop over the fragments of the stream. *)
Fixpoint feed (cap : nat) (residual : string) (fragments : list string)
  : list string * string :=
  match fragments with
  | [] => ([], residual)
  | fragment :: rest =>
      let now := accumulate cap residual fragment in
      let later := feed cap (snd now) rest in
      (fst now ++ fst later, snd later)
  end.

(** Modelled from the spec: on stream completion a non-empty residual is
    flushed as a last unit. *)
Definition flush (residual : string) : list string :=
  if JS.truthy residual then [residual] else [].

(** Modelled from the spec: the units [bufferText] hands to its callback
    for a finite stream of fragments, in emission order. *)
Definition bufferText (cap : nat) (fragments : list string) : list string :=
  let fed := feed cap "" fragments in
  fst fed ++ flush (snd fed).

(** The round-trip property as the specification words it. *)
Definition exact_roundtrip (cap : nat) (fragments : list string) : Prop :=
  JS.join (bufferText cap fragments) = JS.join fragments.

Lemma extract_sound cap n buf u r :
  extract cap n buf = Some (u, r) -> (u ++ r)%string = buf.
Proof.
  revert n u r; induction buf as [|c rest IH]; intros n u r; simpl.
  - discriminate.
  - destruct (is_terminal c || (cap <=? S n)).
    + now intros [= <- <-].
    + destruct (extract cap (S n) rest) as [[u' r']|] eqn:E; [|discriminate].
      intros [= <- <-]. simpl. f_equal. eauto.
Qed.

(** Draining cuts the buffer into consecutive slices and a residual. *)
Lemma drain_partition cap buf :
  (JS.join (fst (drain cap buf)) ++ snd (drain cap buf))%string = buf.
Proof.
  funelim (drain cap buf); simpl.
  - rewrite <- JS.append_assoc, H. eapply extract_sound; eauto.
  - reflexivity.
Qed.

(** Draining runs to the end: the residual holds no further boundary. *)
Lemma drain_exhausts cap buf : extract cap 0 (snd (drain cap buf)) = None.
Proof.
  funelim (drain cap buf); simpl; assumption.
Qed.

Lemma extract_nonempty cap n buf u r :
  extract cap n buf = Some (u, r) -> u <> "".
Proof.
  destruct buf as [|c rest]; simpl; [discriminate|].
  destruct (is_terminal c || (cap <=? S n)).
  - now intros [= <- <-].
  - destruct (extract cap (S n) rest) as [[u' r']|]; [|discriminate].
    now intros [= <- <-].
Qed.

Lemma drain_nonempty cap buf :
  Forall (fun u => u <> "") (fst (drain cap buf)).
Proof.
  funelim (drain cap buf); simpl.
  - constructor; [eapply extract_nonempty; eauto | assumption].
  - constructor.
Qed.

(** Feeding fragments cuts the text into consecutive slices and a
    residual. *)
Lemma feed_partition cap fragments : forall residual,
  (JS.join (fst (feed cap residual fragments))
   ++ snd (feed cap residual fragments))%string
  = (residual ++ JS.join fragments)%string.
Proof.
  induction fragments as [|f fs IH]; intros residual; simpl.
  - now rewrite JS.append_nil_r.
  - unfold accumulate. rewrite JS.join_app, <- JS.append_assoc, IH.
    now rewrite JS.append_assoc, drain_partition, JS.append_assoc.
Qed.

Lemma feed_nonempty cap fragments : forall residual,
  Forall (fun u => u <> "") (fst (feed cap residual fragments)).
Proof.
  induction fragments as [|f fs IH]; intros residual; simpl.
  - constructor.
  - apply Forall_app. split; [apply drain_nonempty | apply IH].
Qed.

(** Feeding a stream in two parts: the second carries on from the
    residual of the first, and takes back nothing of what it emitted. *)
Lemma feed_app cap before after : forall residual,
  feed cap residual (before ++ after)
  = (fst (feed cap residual before)
     ++ fst (feed cap (snd (feed cap residual before)) after),
     snd (feed cap (snd (feed cap residual before)) after)).
Proof.
  induction before as [|f fs IH]; intros residual; simpl.
  - now destruct (feed cap residual after).
  - rewrite IH. simpl. now rewrite app_assoc.
Qed.

Lemma flush_join residual : JS.join (flush residual) = residual.
Proof.
  unfold flush. destruct residual; simpl; [reflexivity|].
  now rewrite JS.append_nil_r.
Qed.

(** The fragments of the scenario of section 8.  The scenario prints the
    second unit without the space that precedes it in the stream; the
    unit of section 4.1 is the extracted substring itself. *)
Example scenario_hello :
  bufferText 200 ["Hello there"; ". How are"; " you?"]
  = ["Hello there."; " How are you?"].
Proof. reflexivity. Qed.

End SentenceBuffer.

(** ** Effects: exceptions, object state and calls that leave the object *)

Module Eff.

(** Function values of [index.ts] that are stored in callback slots, by
    the line that creates them. *)
Inductive closure : Type :=
| OnTtsAudio        (* l.47: (audioBase64) => {}  *)
| OnTtsError        (* l.50: console.error        *)
| OnTranscript      (* l.63: the transcript pipeline *)
| OnSttError        (* l.147: console.error       *)
| CaptureAudio      (* l.105: audioResult = audioBase64 *)
| CaptureError.     (* l.109: errorResult = error *)

Inductive call : Type :=
| CallAudio (f : closure) (audioBase64 : string)
| CallError (f : closure) (e : JS.error)
| CallTranscript (f : closure) (transcript : string) (isFinal : bool).

(** Calls into the Deepgram SDK and the platform. *)
Inductive sdk_op : Type :=
| SpeakRequest (text model encoding : string) (sample_rate : N)
| SpeakClose (connection : nat)
| ListenLive (connection : nat) (model language : string)
| ListenSend (connection : nat) (audio : list Byte.byte)
| ListenFinish (connection : nat)
| SetTimeout (ms : N).

Inductive effect : Type :=
| Sdk (op : sdk_op)
| Call (c : call)
| ConsoleWarn.

(** How a piece of code ends. *)
Inductive completion (A : Type) : Type :=
| Normal (a : A)
| Thrown (e : JS.error).
Arguments Normal {A} a.
Arguments Thrown {A} e.

(** What an SDK call answers: [None] returns, [Some e] throws [e]. *)
Definition answer : Type := option JS.error.

Section Monad.
Context {S : Type}.

(** A method body over an object of state [S]: its completion, the new
    state (kept when it throws) and the effects in program order. *)
Definition js (A : Type) : Type := S -> completion A * S * list effect.

Definition ret {A} (a : A) : js A := fun s => (Normal a, s, []).

Definition bind {A B} (c : js A) (k : A -> js B) : js B :=
  fun s =>
    match c s with
    | (Normal a, s1, out1) =>
        match k a s1 with (r, s2, out2) => (r, s2, out1 ++ out2) end
    | (Thrown e, s1, out1) => (Thrown e, s1, out1)
    end.

Definition throw {A} (e : JS.error) : js A := fun s => (Thrown e, s, []).

(** A stateless piece of code, by the way it ends. *)
Definition lift {A} (c : completion A) : js A := fun s => (c, s, []).

Definition try_catch {A} (body : js A) (handler : JS.error -> js A) : js A :=
  fun s =>
    match body s with
    | (Normal a, s1, out1) => (Normal a, s1, out1)
    | (Thrown e, s1, out1) =>
        match handler e s1 with (r, s2, out2) => (r, s2, out1 ++ out2) end
    end.

Definition get : js S := fun s => (Normal s, s, []).
Definition modify (f : S -> S) : js unit := fun s => (Normal tt, f s, []).
Definition emit (e : effect) : js unit := fun s => (Normal tt, s, [e]).

(** [if (b) { c }]. *)
Definition when (b : bool) (c : js unit) : js unit :=
  if b then c else ret tt.

(** [if (slot) slot(...)]: call the closure stored in a slot. *)
Definition call_if_set (slot : option closure) (mk : closure -> call)
  : js unit :=
  match slot with
  | Some f => emit (Call (mk f))
  | None => ret tt
  end.

(** An SDK call that may throw. *)
Definition sdk (op : sdk_op) (a : answer) : js unit :=
  bind (emit (Sdk op))
       (fun _ => match a with None => ret tt | Some e => throw e end).

End Monad.

Definition state_of {S A} (r : completion A * S * list effect) : S :=
  snd (fst r).
Definition completion_of {S A} (r : completion A * S * list effect)
  : completion A := fst (fst r).
Definition effects_of {S A} (r : completion A * S * list effect)
  : list effect := snd r.

End Eff.

Declare Scope js_scope.
Delimit Scope js_scope with js.
Notation "x <- c ;; k" := (Eff.bind c (fun x => k))
  (at level 61, c at next level, right associativity) : js_scope.
Notation "c ;; k" := (Eff.bind c (fun _ => k))
  (at level 61, right associativity) : js_scope.

(** ** The synthesis link: class [DeepgramTTS] of [deepgram-tts.ts] *)

Module TTS.
Import Eff.
Local Open Scope js_scope.

Record config : Type := {
  model : string;
  encoding : string;
  sampleRate : N
}.

(** The fields of the object.  [useRestAPI] is a private field initialised
    to [true] and assigned nowhere, so the methods below are their REST
    branches; in that mode [connection] is never assigned by [connect]. *)
Record t : Type := {
  connection : option nat;
  isConnected : bool;
  onAudioCallback : option closure;
  onErrorCallback : option closure;
  cfg : config
}.

(** The constructor: defaults, overridden by the fields of the argument. *)
Definition create (model' encoding' : option string) (sampleRate' : option N)
  : t :=
  {| connection := None;
     isConnected := false;
     onAudioCallback := None;
     onErrorCallback := None;
     cfg := {| model := match model' with Some m => m | None => "aura-asteria-en" end;
               encoding := match encoding' with Some e => e | None => "linear16" end;
               sampleRate := match sampleRate' with Some r => r | None => 24000%N end |} |}.

Definition set_callbacks (a e : option closure) (s : t) : t :=
  {| connection := connection s; isConnected := isConnected s;
     onAudioCallback := a; onErrorCallback := e; cfg := cfg s |}.
Definition set_isConnected (b : bool) (s : t) : t :=
  {| connection := connection s; isConnected := b;
     onAudioCallback := onAudioCallback s;
     onErrorCallback := onErrorCallback s; cfg := cfg s |}.
Definition set_connection (c : option nat) (s : t) : t :=
  {| connection := c; isConnected := isConnected s;
     onAudioCallback := onAudioCallback s;
     onErrorCallback := onErrorCallback s; cfg := cfg s |}.

(** *** [arrayBufferToBase64]: [btoa] of the bytes *)

Definition alphabet : string :=
  "ABCDEFGHIJKLMNOPQRSTUVWXYZabcdefghijklmnopqrstuvwxyz0123456789+/".

Definition digit (n : nat) : ascii :=
  match String.get n alphabet with Some c => c | None => "="%char end.

Fixpoint btoa (bytes : list nat) : string :=
  match bytes with
  | [] => EmptyString
  | [a] =>
      String (digit (a / 4)) (String (digit ((a mod 4) * 16)) "==")
  | [a; b] =>
      String (digit (a / 4))
        (String (digit ((a mod 4) * 16 + b / 16))
           (String (digit ((b mod 16) * 4)) "="))
  | a :: b :: c :: rest =>
      String (digit (a / 4))
        (String (digit ((a mod 4) * 16 + b / 16))
           (String (digit ((b mod 16) * 4 + c / 64))
              (String (digit (c mod 64)) (btoa rest))))
  end.

Definition arrayBufferToBase64 (buffer : list Byte.byte) : string :=
  btoa (map (fun b => N.to_nat (Byte.to_N b)) buffer).

(** *** What [client.speak.request] can answer *)

Inductive audio_property : Type :=
| AudioBuffer (b : list Byte.byte)   (* an ArrayBuffer *)
| AudioString (s : string)           (* a string *)
| AudioOther.                        (* any other truthy value *)

(** A [ReadableStream] as its reader sees it: the chunks, then [done], or
    a rejected [read()] after them.  Reading it to the end belongs to the
    settlement of the request: [synthesize] goes on when both are over. *)
Record stream : Type := {
  chunks : list (list Byte.byte);
  failure : option JS.error
}.

(** An object, by the properties [synthesize] looks at; [None] stands for
    an absent or falsy property. *)
Record response_object : Type := {
  audio : option audio_property;
  getReader : option stream;
  arrayBuffer : option (list Byte.byte + JS.error)
}.

Inductive js_value : Type :=
| ArrayBuffer (b : list Byte.byte)
| Obj (o : response_object)
| Other.                             (* null, undefined, a primitive *)

(** The value the promise resolves to: the SDK wrapper with a truthy
    [result] property, or a value used as it is. *)
Inductive sdk_value : Type :=
| Wrapper (inner : js_value)
| Direct (v : js_value).

Inductive speak_outcome : Type :=
| Resolved (v : sdk_value)
| Rejected (e : JS.error).

Definition actualResult (v : sdk_value) : js_value :=
  match v with Wrapper inner => inner | Direct v => v end.

Definition audio_truthy (a : option audio_property) : option audio_property :=
  match a with
  | Some (AudioString s) => if JS.truthy s then a else None
  | _ => a
  end.

(** Lines 136-178: the value of [audioBase64] once the response has been
    looked at; reading a stream or a body may throw. *)
Definition decoded (v : js_value) : completion (option string) :=
  match v with
  | ArrayBuffer b => Normal (Some (arrayBufferToBase64 b))
  | Obj o =>
      match audio_truthy (audio o) with
      | Some (AudioBuffer b) => Normal (Some (arrayBufferToBase64 b))
      | Some (AudioString s) => Normal (Some s)
      | Some AudioOther => Normal None
      | None =>
          match getReader o with
          | Some st =>
              match failure st with
              | Some e => Thrown e
              | None => Normal (Some (arrayBufferToBase64 (List.concat (chunks st))))
              end
          | None =>
              match arrayBuffer o with
              | Some (inl b) => Normal (Some (arrayBufferToBase64 b))
              | Some (inr e) => Thrown e
              | None => Normal None
              end
          end
      end
  | Other => Normal None
  end.

(** [audioBase64 && ...] *)
Definition usable (audioBase64 : option string) : option string :=
  match audioBase64 with
  | Some s => if JS.truthy s then Some s else None
  | None => None
  end.

(** *** [connect] (lines 37-104) *)

(** Up to [await this.client.speak.request(...)]. *)
Definition connect_call (onAudio : closure) (onError : option closure)
  : js (S := t) unit :=
  modify (set_callbacks (Some onAudio) onError) ;;
  s <- get ;;
  emit (Sdk (SpeakRequest "test" (model (cfg s)) (encoding (cfg s))
                          (sampleRate (cfg s)))).

(** From the settled request to the returned boolean. *)
Definition connect_settled (r : speak_outcome) : js (S := t) bool :=
  try_catch
    (match r with
     | Resolved _ => modify (set_isConnected true) ;; ret true
     | Rejected e => throw e
     end)
    (fun error =>
       s <- get ;;
       call_if_set (onErrorCallback s) (fun f => CallError f error) ;;
       ret false).

(** *** [synthesize] (lines 106-210) *)

(** Up to [await this.client.speak.request(...)]. *)
Definition synthesize_call (text : string) : js (S := t) unit :=
  s <- get ;;
  emit (Sdk (SpeakRequest text (model (cfg s)) (encoding (cfg s))
                          (sampleRate (cfg s)))).

(** From the settled request to the end of the method. *)
Definition synthesize_settled (r : speak_outcome) : js (S := t) unit :=
  try_catch
    (match r with
     | Rejected e => throw e
     | Resolved v =>
         audioBase64 <- lift (decoded (actualResult v)) ;;
         s <- get ;;
         match usable audioBase64, onAudioCallback s with
         | Some a, Some f => emit (Call (CallAudio f a))
         | _, _ => ret tt
         end
     end)
    (fun error =>
       s <- get ;;
       call_if_set (onErrorCallback s) (fun f => CallError f error)).

(** *** [disconnect] (lines 212-222) *)

Definition disconnect (close : answer) : js (S := t) unit :=
  s <- get ;;
  match connection s with
  | Some c =>
      try_catch (sdk (SpeakClose c) close) (fun _ => ret tt) ;;
      modify (set_connection None)
  | None => ret tt
  end ;;
  modify (set_isConnected false).

End TTS.

(** ** The transcription link: class [DeepgramSTT] of [deepgram-tts.ts] *)

Module STT.
Import Eff.
Local Open Scope js_scope.

Record config : Type := {
  model : string;
  language : string
}.

(** What awaits the boolean a [connect] call resolves to. *)
Inductive continuation : Type :=
| KBoot                                  (* index.ts, l.62: it is only logged *)
| KDropped                               (* l.322: the promise is dropped *)
| KResend (audioBuffer : list Byte.byte). (* l.356: the [then] of [sendAudio] *)

(** The fields of the object, and what the event loop holds for it:
    [opening] lists the [connect] calls whose [connectionPromise] is not
    settled (the connection each created and what awaits the result),
    [timers] counts the reconnect timers set by [Close] handlers that have
    not fired, [fresh] numbers the connections [listen.live] creates. *)
Record t : Type := {
  connection : option nat;
  isConnected : bool;
  isReconnecting : bool;
  onTranscriptCallback : option closure;
  onErrorCallback : option closure;
  cfg : config;
  opening : list (nat * continuation);
  timers : nat;
  fresh : nat
}.

Definition create (model' language' : option string) : t :=
  {| connection := None; isConnected := false; isReconnecting := false;
     onTranscriptCallback := None; onErrorCallback := None;
     cfg := {| model := match model' with Some m => m | None => "nova-3-general" end;
               language := match language' with Some l => l | None => "en-US" end |};
     opening := []; timers := 0; fresh := 0 |}.

Definition set_isConnected (b : bool) (s : t) : t :=
  {| connection := connection s; isConnected := b;
     isReconnecting := isReconnecting s;
     onTranscriptCallback := onTranscriptCallback s;
     onErrorCallback := onErrorCallback s; cfg := cfg s;
     opening := opening s; timers := timers s; fresh := fresh s |}.
Definition set_isReconnecting (b : bool) (s : t) : t :=
  {| connection := connection s; isConnected := isConnected s;
     isReconnecting := b;
     onTranscriptCallback := onTranscriptCallback s;
     onErrorCallback := onErrorCallback s; cfg := cfg s;
     opening := opening s; timers := timers s; fresh := fresh s |}.
Definition set_connection (c : option nat) (s : t) : t :=
  {| connection := c; isConnected := isConnected s;
     isReconnecting := isReconnecting s;
     onTranscriptCallback := onTranscriptCallback s;
     onErrorCallback := onErrorCallback s; cfg := cfg s;
     opening := opening s; timers := timers s; fresh := fresh s |}.
Definition set_opening (o : list (nat * continuation)) (s : t) : t :=
  {| connection := connection s; isConnected := isConnected s;
     isReconnecting := isReconnecting s;
     onTranscriptCallback := onTranscriptCallback s;
     onErrorCallback := onErrorCallback s; cfg := cfg s;
     opening := o; timers := timers s; fresh := fresh s |}.
Definition set_timers (n : nat) (s : t) : t :=
  {| connection := connection s; isConnected := isConnected s;
     isReconnecting := isReconnecting s;
     onTranscriptCallback := onTranscriptCallback s;
     onErrorCallback := onErrorCallback s; cfg := cfg s;
     opening := opening s; timers := n; fresh := fresh s |}.

(** Lines 254-301 of [connect], run by one assignment: the callbacks are
    stored, [listen.live] creates connection number [fresh] (it is taken
    to return a connection and not to throw), and the call waits on its
    promise with continuation [k]. *)
Definition begin_connect (onTranscript : closure) (onError : option closure)
           (k : continuation) (s : t) : t :=
  {| connection := Some (fresh s); isConnected := isConnected s;
     isReconnecting := isReconnecting s;
     onTranscriptCallback := Some onTranscript;
     onErrorCallback := onError; cfg := cfg s;
     opening := opening s ++ [(fresh s, k)];
     timers := timers s; fresh := S (fresh s) |}.

(** *** The payload of a [Transcript] event *)

Record alternative : Type := { transcript : option string }.
Record channel_t : Type := { alternatives : option (list alternative) }.
Record transcript_data : Type := {
  channel : option channel_t;
  is_final : option bool
}.

(** [data?.channel?.alternatives?.[0]?.transcript || ''] *)
Definition extract_transcript (data : option transcript_data) : string :=
  match data with
  | Some d =>
      match channel d with
      | Some ch =>
          match alternatives ch with
          | Some (a :: _) =>
              match transcript a with Some s => s | None => "" end
          | _ => ""
          end
      | None => ""
      end
  | None => ""
  end.

(** [data?.is_final || false] *)
Definition extract_is_final (data : option transcript_data) : bool :=
  match data with
  | Some d => match is_final d with Some b => b | None => false end
  | None => false
  end.

(** *** [connect] (lines 252-348), up to [await connectionPromise] *)

Definition connect_call (onTranscript : closure) (onError : option closure)
           (k : continuation) : js (S := t) unit :=
  s <- get ;;
  modify (begin_connect onTranscript onError k) ;;
  emit (Sdk (ListenLive (fresh s) (model (cfg s)) (language (cfg s)))) ;;
  emit (Sdk (SetTimeout 5000)).

(** *** [sendAudio] (lines 350-376) *)

Definition not_connected (s : t) : bool :=
  negb (isConnected s) || match connection s with Some _ => false | None => true end.

Definition sendAudio (audioBuffer : list Byte.byte) (send : answer)
  : js (S := t) unit :=
  s <- get ;;
  if not_connected s then
    emit ConsoleWarn ;;
    match onTranscriptCallback s with
    | Some cb =>
        when (negb (isReconnecting s))
          (modify (set_isReconnecting true) ;;
           connect_call cb (onErrorCallback s) (KResend audioBuffer))
    | None => ret tt
    end
  else
    match connection s with
    | Some c =>
        try_catch
          (sdk (ListenSend c audioBuffer) send)
          (fun error =>
             s' <- get ;;
             call_if_set (onErrorCallback s') (fun f => CallError f error))
    | None => ret tt
    end.

(** *** [disconnect] (lines 378-388) *)

Definition disconnect (finish : answer) : js (S := t) unit :=
  s <- get ;;
  match connection s with
  | Some c =>
      try_catch (sdk (ListenFinish c) finish) (fun _ => ret tt) ;;
      modify (set_connection None)
  | None => ret tt
  end ;;
  modify (set_isConnected false).

(** *** The handlers [connect] registers, and the end of [connect] *)

Inductive event : Type :=
| Open (c : nat) (send : answer)
| Error (c : nat) (message : string)
| ConnectTimeout (c : nat)
| Transcript (c : nat) (data : option transcript_data)
| Close (c : nat)
| Metadata (c : nat)
| ReconnectTimer.

Fixpoint take (c : nat) (o : list (nat * continuation))
  : option continuation * list (nat * continuation) :=
  match o with
  | [] => (None, [])
  | (c', k) :: rest =>
      if c' =? c then (Some k, rest)
      else let r := take c rest in (fst r, (c', k) :: snd r)
  end.

(** What runs once [connect] has returned [connected]. *)
Definition resume (k : continuation) (connected : bool) (send : answer)
  : js (S := t) unit :=
  match k with
  | KBoot => ret tt
  | KDropped => ret tt
  | KResend audioBuffer =>
      modify (set_isReconnecting false) ;;
      when connected (sendAudio audioBuffer send)
  end.

(** The [catch] of [connect] (lines 341-347), then its continuation. *)
Definition connect_failed (k : continuation) (error : JS.error)
  : js (S := t) unit :=
  s <- get ;;
  call_if_set (onErrorCallback s) (fun f => CallError f error) ;;
  resume k false None.

Definition stt_error (message : string) : JS.error :=
  JS.Error ("Deepgram STT error: " ++ message).

Definition handle (e : event) : js (S := t) unit :=
  s <- get ;;
  match e with
  | Open c send =>
      (* l.283: only the first of Open, Error and the time-out settles *)
      match take c (opening s) with
      | (Some k, rest) =>
          modify (set_opening rest) ;;
          modify (set_isConnected true) ;;
          resume k true send
      | (None, _) => ret tt
      end
  | Error c message =>
      (* l.293 rejects the promise, l.327 reports, then the catch runs *)
      when (c <? fresh s)
        (match take c (opening s) with
         | (Some k, rest) =>
             modify (set_opening rest) ;;
             call_if_set (onErrorCallback s)
               (fun f => CallError f (stt_error message)) ;;
             connect_failed k (stt_error message)
         | (None, _) =>
             call_if_set (onErrorCallback s)
               (fun f => CallError f (stt_error message))
         end)
  | ConnectTimeout c =>
      (* l.276 *)
      match take c (opening s) with
      | (Some k, rest) =>
          modify (set_opening rest) ;;
          connect_failed k (JS.Error "Connection timeout")
      | (None, _) => ret tt
      end
  | Transcript c data =>
      (* l.304 *)
      when (c <? fresh s)
        (let transcript := extract_transcript data in
         let isFinal := extract_is_final data in
         match onTranscriptCallback s with
         | Some f =>
             when (JS.truthy transcript)
               (emit (Call (CallTranscript f transcript isFinal)))
         | None => ret tt
         end)
  | Close c =>
      (* l.316 *)
      when (c <? fresh s)
        (modify (set_isConnected false) ;;
         modify (set_timers (S (timers s))) ;;
         emit (Sdk (SetTimeout 100)))
  | Metadata c => ret tt
  | ReconnectTimer =>
      (* l.320 *)
      match timers s with
      | 0 => ret tt
      | S n =>
          modify (set_timers n) ;;
          match onTranscriptCallback s with
          | Some cb => connect_call cb (onErrorCallback s) KDropped
          | None => ret tt
          end
      end
  end.

(** The link along a sequence of events: the final state and all effects
    in order. *)
Fixpoint run (s : t) (events : list event) : t * list effect :=
  match events with
  | [] => (s, [])
  | e :: rest =>
      let now := handle e s in
      let later := run (state_of now) rest in
      (fst later, effects_of now ++ snd later)
  end.

(** Calls to [listen.live]: connection attempts. *)
Definition is_listen (e : effect) : bool :=
  match e with Sdk (ListenLive _ _ _) => true | _ => false end.

Definition attempts (es : list effect) : nat := length (filter is_listen es).

(** A run of [k] consecutive failures, starting with connection [c] open:
    the connection closes, the timer fires, and the new connection
    reports an error before it opens -- and will close in its turn. *)
Fixpoint storm (c k : nat) : list event :=
  match k with
  | 0 => []
  | S k' =>
      Close c :: ReconnectTimer :: Error (S c) "handshake failed"
      :: storm (S c) k'
  end.

(** The link as [fetch] leaves it when the first connection opened. *)
Definition booted : t :=
  state_of (handle (Open 0 None)
              (state_of (connect_call OnTranscript (Some OnSttError) KBoot
                           (create (Some "nova-3-general") (Some "en-US"))))).

(** No index of a waiting [connect] call is ahead of the counter. *)
Definition wf (s : t) : Prop :=
  Forall (fun p => fst p < fresh s) (opening s).

End STT.

(** ** The session controller: [MyDurableObject.fetch] of [index.ts] *)

Module Session.
Import Eff.
Local Open Scope js_scope.

Inductive role : Type := user | assistant.

Record turn : Type := { role_of : role; content : string }.

(** Outbound messages, as the objects given to [JSON.stringify]. *)
Inductive message : Type :=
| Transcribed (text : string) (interim : bool) (* l.67: {type:'text', text, interim} *)
| Audio (text audio : string)                  (* l.136: {type:'audio', text, audio} *)
| Text (text : string).                        (* l.141: {type:'text', text} *)

(** Where the function given to [queue.add] stands. *)
Inductive phase : Type :=
| AwaitingSynthesize            (* l.114 *)
| Polling (startTime : N).      (* l.120 *)

(** The running queue job: the sentence it closes over and its locals. *)
Record job : Type := {
  sentence : string;
  originalCallback : option closure;
  originalErrorCallback : option closure;
  audioResult : option string;
  errorResult : option JS.error;
  phase_of : phase
}.

(** The state of one session.  [running] and [waiting] are the
    [PQueue({ concurrency: 1 })] of l.43: at most one job runs, the others
    wait in arrival order.  [inferences] logs the [streamText] calls by
    the history they are given, [sdk_calls] the calls to the SDK. *)
Record t : Type := {
  msgHistory : list turn;
  sent : list message;
  deepgramTTS : TTS.t;
  deepgramSTT : STT.t;
  running : option job;
  waiting : list string;
  inferences : list (list turn);
  sdk_calls : list sdk_op
}.

Definition set_msgHistory (h : list turn) (s : t) : t :=
  {| msgHistory := h; sent := sent s; deepgramTTS := deepgramTTS s;
     deepgramSTT := deepgramSTT s; running := running s;
     waiting := waiting s; inferences := inferences s;
     sdk_calls := sdk_calls s |}.
Definition set_sent (m : list message) (s : t) : t :=
  {| msgHistory := msgHistory s; sent := m; deepgramTTS := deepgramTTS s;
     deepgramSTT := deepgramSTT s; running := running s;
     waiting := waiting s; inferences := inferences s;
     sdk_calls := sdk_calls s |}.
Definition set_tts (x : TTS.t) (s : t) : t :=
  {| msgHistory := msgHistory s; sent := sent s; deepgramTTS := x;
     deepgramSTT := deepgramSTT s; running := running s;
     waiting := waiting s; inferences := inferences s;
     sdk_calls := sdk_calls s |}.
Definition set_stt (x : STT.t) (s : t) : t :=
  {| msgHistory := msgHistory s; sent := sent s;
     deepgramTTS := deepgramTTS s; deepgramSTT := x; running := running s;
     waiting := waiting s; inferences := inferences s;
     sdk_calls := sdk_calls s |}.
Definition set_running (j : option job) (s : t) : t :=
  {| msgHistory := msgHistory s; sent := sent s;
     deepgramTTS := deepgramTTS s; deepgramSTT := deepgramSTT s;
     running := j; waiting := waiting s; inferences := inferences s;
     sdk_calls := sdk_calls s |}.
Definition set_waiting (w : list string) (s : t) : t :=
  {| msgHistory := msgHistory s; sent := sent s;
     deepgramTTS := deepgramTTS s; deepgramSTT := deepgramSTT s;
     running := running s; waiting := w; inferences := inferences s;
     sdk_calls := sdk_calls s |}.
Definition set_inferences (i : list (list turn)) (s : t) : t :=
  {| msgHistory := msgHistory s; sent := sent s;
     deepgramTTS := deepgramTTS s; deepgramSTT := deepgramSTT s;
     running := running s; waiting := waiting s; inferences := i;
     sdk_calls := sdk_calls s |}.
Definition set_sdk_calls (c : list sdk_op) (s : t) : t :=
  {| msgHistory := msgHistory s; sent := sent s;
     deepgramTTS := deepgramTTS s; deepgramSTT := deepgramSTT s;
     running := running s; waiting := waiting s; inferences := inferences s;
     sdk_calls := c |}.

Definition set_audioResult (a : option string) (j : job) : job :=
  {| sentence := sentence j; originalCallback := originalCallback j;
     originalErrorCallback := originalErrorCallback j;
     audioResult := a; errorResult := errorResult j; phase_of := phase_of j |}.
Definition set_errorResult (e : option JS.error) (j : job) : job :=
  {| sentence := sentence j; originalCallback := originalCallback j;
     originalErrorCallback := originalErrorCallback j;
     audioResult := audioResult j; errorResult := e; phase_of := phase_of j |}.
Definition set_phase (p : phase) (j : job) : job :=
  {| sentence := sentence j; originalCallback := originalCallback j;
     originalErrorCallback := originalErrorCallback j;
     audioResult := audioResult j; errorResult := errorResult j;
     phase_of := p |}.

(** [ws.send(JSON.stringify(m))] *)
Definition ws_send (m : message) (s : t) : t := set_sent (sent s ++ [m]) s.

(** [this.msgHistory.push(turn)] *)
Definition push (x : turn) (s : t) : t := set_msgHistory (msgHistory s ++ [x]) s.

(** *** The transcript callback (l.63-146), up to [await bufferText] *)

Definition on_transcript (transcript : string) (isFinal : bool) (s : t) : t :=
  let s1 := ws_send (Transcribed transcript (negb isFinal)) s in
  if isFinal && JS.truthy (JS.trim transcript) then
    let s2 := push {| role_of := user; content := transcript |} s1 in
    set_inferences (inferences s2 ++ [msgHistory s2]) s2
  else s1.

(** *** Calls and SDK operations coming out of the two links *)

Definition apply_call (c : call) (s : t) : t :=
  match c with
  | CallTranscript OnTranscript transcript isFinal =>
      on_transcript transcript isFinal s
  | CallAudio CaptureAudio audioBase64 =>
      set_running (option_map (set_audioResult (Some audioBase64)) (running s)) s
  | CallError CaptureError error =>
      set_running (option_map (set_errorResult (Some error)) (running s)) s
  | _ => s
  end.

Definition apply_effect (s : t) (e : effect) : t :=
  match e with
  | Sdk op => set_sdk_calls (sdk_calls s ++ [op]) s
  | Call c => apply_call c s
  | ConsoleWarn => s
  end.

Definition apply_effects (es : list effect) (s : t) : t :=
  fold_left apply_effect es s.

(** Run a method of the transcription link on [this.deepgramSTT]. *)
Definition on_stt {A} (m : js (S := STT.t) A) (s : t) : t :=
  let r := m (deepgramSTT s) in
  apply_effects (effects_of r) (set_stt (state_of r) s).

(** Run a method of the synthesis link on [this.deepgramTTS]. *)
Definition on_tts {A} (m : js (S := TTS.t) A) (s : t) : t :=
  let r := m (deepgramTTS s) in
  apply_effects (effects_of r) (set_tts (state_of r) s).

(** *** The queue job (l.92-143) *)

Definition timeout : N := 10000.

(** From the start of the job to [await this.client.speak.request] inside
    [synthesize]: the callbacks of the link are saved and replaced. *)
Definition start_job (sentence' : string) (s : t) : t :=
  let j := {| sentence := sentence';
              originalCallback := TTS.onAudioCallback (deepgramTTS s);
              originalErrorCallback := TTS.onErrorCallback (deepgramTTS s);
              audioResult := None; errorResult := None;
              phase_of := AwaitingSynthesize |} in
  let s1 := set_running (Some j) s in
  let s2 := set_tts (TTS.set_callbacks (Some CaptureAudio) (Some CaptureError)
                                       (deepgramTTS s1)) s1 in
  on_tts (TTS.synthesize_call sentence') s2.

(** [queue.add(job)]: the job starts at once when none is running. *)
Definition queue_add (sentence' : string) (s : t) : t :=
  match running s with
  | None => start_job sentence' s
  | Some _ => set_waiting (waiting s ++ [sentence']) s
  end.

(** The queue after its job has settled: the next one starts. *)
Definition queue_next (s : t) : t :=
  match waiting s with
  | [] => set_running None s
  | next :: rest => start_job next (set_waiting rest (set_running None s))
  end.

(** The loop test of l.119, at clock reading [now]. *)
Definition must_wait (j : job) (startTime now : N) : bool :=
  negb (match TTS.usable (audioResult j) with Some _ => true | None => false end)
  && negb (match errorResult j with Some _ => true | None => false end)
  && (now - startTime <? timeout)%N.

(** Lines 123-142: the callbacks are restored and one message is sent. *)
Definition deliver (j : job) : js (S := t) unit :=
  try_catch
    (modify (fun s => set_tts (TTS.set_callbacks (originalCallback j)
                                  (originalErrorCallback j) (deepgramTTS s)) s) ;;
     match errorResult j with
     | Some errorResult' => throw errorResult'
     | None =>
         match TTS.usable (audioResult j) with
         | None => throw (JS.Error "TTS timeout - no audio received")
         | Some audio => modify (ws_send (Audio (sentence j) audio))
         end
     end)
    (fun _ => modify (ws_send (Text ("[TTS Error] " ++ sentence j)))).

(** The job settles (the [catch] of l.138 lets it resolve in every case). *)
Definition finish_job (j : job) (s : t) : t :=
  queue_next (state_of (deliver j s)).

(** One pass through the loop test: sleep again, or leave the loop. *)
Definition poll (startTime now : N) (s : t) : t :=
  match running s with
  | Some j =>
      if must_wait j startTime now
      then set_running (Some (set_phase (Polling startTime) j)) s
      else finish_job j s
  | None => s
  end.

(** *** The listeners and the turns of the event loop *)

(** The turns of a session whose socket is open.  The [close] listener
    (l.172) ends it: it calls [disconnect] on both links.  A request that
    never settles is the absence of [SpeakSettled]: nothing below stands
    for time passing on a pending promise. *)
Inductive event : Type :=
| WsText (fields : option (option string * option string))
    (* a string message; [JSON.parse] gave an object with these [type]
       and [data] when they are strings, or failed ([None]) *)
| WsBinary (audio : list Byte.byte) (send : answer)
    (* a binary message; [send] is what [connection.send] answers *)
| Deepgram (e : STT.event)
    (* an event of a transcription connection, or one of its timers *)
| SentenceUnit (sentence : string)
    (* [bufferText] calls its callback (l.89) *)
| SpeakSettled (r : TTS.speak_outcome) (now : N)
    (* the request of the running job settles; [now] is [Date.now()] *)
| PollWake (now : N).
    (* the sleep of l.120 ends; [now] is [Date.now()] at the loop test *)

Definition is_clear (fields : option (option string * option string)) : bool :=
  match fields with
  | Some (Some type, Some data) =>
      (type =? "cmd")%string && (data =? "clear")%string
  | _ => false
  end.

Definition step (s : t) (e : event) : t :=
  match e with
  | WsText fields =>
      (* l.160-166 *)
      if is_clear fields then set_msgHistory [] s else s
  | WsBinary audio send =>
      (* l.169 *)
      on_stt (STT.sendAudio audio send) s
  | Deepgram e' =>
      on_stt (STT.handle e') s
  | SentenceUnit sentence' =>
      (* l.90-92 *)
      queue_add sentence'
        (push {| role_of := assistant; content := sentence' |} s)
  | SpeakSettled r now =>
      match running s with
      | Some j =>
          match phase_of j with
          | AwaitingSynthesize =>
              let r' := TTS.synthesize_settled r (deepgramTTS s) in
              let s1 := apply_effects (effects_of r') (set_tts (state_of r') s) in
              match completion_of r', running s1 with
              | Normal _, Some _ => poll now now s1
              | Thrown _, Some j1 =>
                  (* l.138, reached from l.114: nothing is restored *)
                  queue_next (ws_send (Text ("[TTS Error] " ++ sentence j1)) s1)
              | _, None => s1
              end
          | Polling _ => s
          end
      | None => s
      end
  | PollWake now =>
      match running s with
      | Some j =>
          match phase_of j with
          | Polling startTime => poll startTime now s
          | AwaitingSynthesize => s
          end
      | None => s
      end
  end.

Definition run (s : t) (events : list event) : t := fold_left step events s.

(** *** The session when [fetch] returns *)

(** How the first [connect] of the transcription link ended. *)
Inductive stt_boot : Type :=
| SttOpened
| SttErrored (message : string)
| SttTimedOut.

Definition boot_event (b : stt_boot) : STT.event :=
  match b with
  | SttOpened => STT.Open 0 None
  | SttErrored message => STT.Error 0 message
  | SttTimedOut => STT.ConnectTimeout 0
  end.

(** The constructor (l.22-35). *)
Definition create : t :=
  {| msgHistory := []; sent := [];
     deepgramTTS := TTS.create (Some "aura-arcas-en") None None;
     deepgramSTT := STT.create (Some "nova-3-general") (Some "en-US");
     running := None; waiting := []; inferences := []; sdk_calls := [] |}.

(** [fetch] (l.36-180): both links are connected in turn, then the
    listeners are registered. *)
Definition boot (tts_test : TTS.speak_outcome) (b : stt_boot) : t :=
  let s1 := on_tts (TTS.connect_call OnTtsAudio (Some OnTtsError)) create in
  let s2 := on_tts (TTS.connect_settled tts_test) s1 in
  let s3 := on_stt (STT.connect_call OnTranscript (Some OnSttError) STT.KBoot) s2 in
  on_stt (STT.handle (boot_event b)) s3.

End Session.

(** ** The end of a session: the [close] listener of [index.ts] *)

Module Closing.
Import Eff.

(** l.172-177: both links are disconnected; [speak_close] and
    [listen_finish] are what the SDK answers to [close()] and [finish()].
    The last statement, [ws.close(code, reason)], acts on the socket
    alone. *)
Definition on_close (speak_close listen_finish : answer) (s : Session.t)
  : Session.t :=
  Session.on_stt (STT.disconnect listen_finish)
    (Session.on_tts (TTS.disconnect speak_close) s).

End Closing.

(** ** The entry point of the worker: the default export of [index.ts] *)

Module Worker.

(** [s.endsWith(suffix)]: the last [suffix.length] code units of [s] are
    compared with [suffix]. *)
Definition endsWith (s suffix : string) : bool :=
  (String.length suffix <=? String.length s)
  && (substring (String.length s - String.length suffix)
                (String.length suffix) s =? suffix)%string.

(** What the handler reads of the request. *)
Record request : Type := {
  url : string;
  upgrade : option string    (* [headers.get('Upgrade')], [None] for null *)
}.

Inductive response : Type :=
| Forwarded (name : string)
    (* the answer of [stub.fetch(request)], the stub of the object with
       this name *)
| Status (code : nat) (body : option string).

(** l.183-200; [uuid] is the value of [crypto.randomUUID()]. *)
Definition fetch (r : request) (uuid : string) : response :=
  if endsWith (url r) "/websocket" then
    let rejected :=
      match upgrade r with
      | Some upgradeHeader =>
          negb (JS.truthy upgradeHeader)
          || negb (upgradeHeader =? "websocket")%string
      | None => true
      end in
    if rejected then Status 426 (Some "Expected upgrade to websocket")
    else Forwarded uuid
  else Status 400 None.

End Worker.

(** ** The earlier controller: [src/index.ts], and [DeepgramSTT.transcribe] *)

Module Legacy.
Import Eff Session.

(** *** [transcribe] (deepgram-tts.ts, lines 391-446) *)

(** The body of the answer, by the properties the method reads. *)
Record rest_alternative : Type := { transcript : option string }.
Record rest_channel : Type := { alternatives : option (list rest_alternative) }.
Record rest_results : Type := { channels : option (list rest_channel) }.
Record rest_body : Type := { results : option rest_results }.

(** [result?.results?.channels?.[0]?.alternatives?.[0]?.transcript || ''] *)
Definition extract_transcript (result : option rest_body) : string :=
  match result with
  | Some body =>
      match results body with
      | Some r =>
          match channels r with
          | Some (ch :: _) =>
              match alternatives ch with
              | Some (a :: _) =>
                  match transcript a with Some s => s | None => "" end
              | _ => ""
              end
          | _ => ""
          end
      | None => ""
      end
  | None => ""
  end.

(** [result?.results] *)
Definition results_of (result : option rest_body) : option rest_results :=
  match result with Some body => results body | None => None end.

(** How the [fetch] of l.418 and the [response.json()] of l.434 end. *)
Inductive fetch_outcome : Type :=
| FetchRejected (e : JS.error)
| Responded (ok : bool) (status : nat) (statusText : string)
            (json : option rest_body + JS.error).

(** [`${status}`] for a number that is a natural. *)
Definition show (n : nat) : string := DecimalString.NilZero.string_of_uint (Nat.to_uint n).

(** From the settled request to the end of the method; the [catch] of
    l.442 throws what it caught. *)
Definition transcribe_settled (r : fetch_outcome) : completion string :=
  match r with
  | FetchRejected e => Thrown e
  | Responded ok status statusText json =>
      if ok then
        match json with
        | inl result => Normal (extract_transcript result)
        | inr e => Thrown e
        end
      else
        Thrown (JS.Error ("Deepgram API error: " ++ show status ++ " "
                          ++ statusText))
  end.

(** *** The [message] listener (index.ts, lines 61-142) *)

(** l.74-84, once [transcribe] has returned [text]. *)
Definition on_text (text : string) (s : t) : t :=
  let s1 := ws_send (Text text) s in
  let s2 := push {| role_of := user; content := text |} s1 in
  set_inferences (inferences s2 ++ [msgHistory s2]) s2.

(** The turns of a session.  The queue job of lines 89-140 is, line by
    line, the one of the later controller. *)
Inductive event : Type :=
| WsText (fields : option (option string * option string))
| WsBinary (audio : list Byte.byte)
    (* a binary message: [transcribe] sends its request *)
| TranscribeSettled (r : fetch_outcome)
    (* the request of one binary message settles *)
| SentenceUnit (sentence : string)
| SpeakSettled (r : TTS.speak_outcome) (now : N)
| PollWake (now : N).

Definition step (s : t) (e : event) : t :=
  match e with
  | WsText fields => if is_clear fields then set_msgHistory [] s else s
  | WsBinary _ => s
  | TranscribeSettled r =>
      (* an exception of [transcribe] ends the listener at l.72 *)
      match transcribe_settled r with
      | Normal text => on_text text s
      | Thrown _ => s
      end
  | SentenceUnit sentence' => Session.step s (Session.SentenceUnit sentence')
  | SpeakSettled r now => Session.step s (Session.SpeakSettled r now)
  | PollWake now => Session.step s (Session.PollWake now)
  end.

Definition run (s : t) (events : list event) : t := fold_left step events s.

(** The constructor (l.22-35). *)
Definition create : t :=
  {| msgHistory := []; sent := [];
     deepgramTTS := TTS.create (Some "aura-arcas-en") None None;
     deepgramSTT := STT.create (Some "nova-2") (Some "en-US");
     running := None; waiting := []; inferences := []; sdk_calls := [] |}.

(** [fetch] (l.36-151): the synthesis link alone is connected. *)
Definition boot (tts_test : TTS.speak_outcome) : t :=
  let s1 := on_tts (TTS.connect_call OnTtsAudio (Some OnTtsError)) create in
  on_tts (TTS.connect_settled tts_test) s1.

End Legacy.

(** * Properties *)

(** ** Reasoning about method bodies *)

Module EffFacts.
Import Eff.

Section Emits.
Context {S : Type} (P : effect -> Prop).

(** Every effect of the method satisfies [P], from every state. *)
Definition Emits {A} (m : js (S := S) A) : Prop :=
  forall s, Forall P (effects_of (m s)).

Lemma emits_ret {A} (a : A) : Emits (ret a).
Proof. intros s; constructor. Qed.

Lemma emits_throw {A} e : Emits (throw (A := A) e).
Proof. intros s; constructor. Qed.

Lemma emits_lift {A} (c : completion A) : Emits (lift c).
Proof. intros s; constructor. Qed.

Lemma emits_get : Emits get.
Proof. intros s; constructor. Qed.

Lemma emits_modify f : Emits (modify f).
Proof. intros s; constructor. Qed.

Lemma emits_emit e : P e -> Emits (emit e).
Proof. intros H s; repeat constructor; exact H. Qed.

Lemma emits_bind {A B} (c : js A) (k : A -> js B) :
  Emits c -> (forall a, Emits (k a)) -> Emits (bind c k).
Proof.
  intros Hc Hk s. specialize (Hc s). unfold bind, effects_of in *.
  destruct (c s) as [[[a|e] s1] out1]; simpl in *; [|exact Hc].
  specialize (Hk a s1). destruct (k a s1) as [[r s2] out2]; simpl in *.
  apply Forall_app; split; assumption.
Qed.

Lemma emits_try_catch {A} (body : js A) handler :
  Emits body -> (forall e, Emits (handler e)) -> Emits (try_catch body handler).
Proof.
  intros Hb Hh s. specialize (Hb s). unfold try_catch, effects_of in *.
  destruct (body s) as [[[a|e] s1] out1]; simpl in *; [exact Hb|].
  specialize (Hh e s1). destruct (handler e s1) as [[r s2] out2]; simpl in *.
  apply Forall_app; split; assumption.
Qed.

Lemma emits_when b (c : js unit) : Emits c -> Emits (when b c).
Proof. destruct b; simpl; [trivial | intros _; apply emits_ret]. Qed.

Lemma emits_call_if_set slot mk :
  (forall f, P (Call (mk f))) -> Emits (call_if_set slot mk).
Proof.
  intros H. destruct slot; simpl; [apply emits_emit, H | apply emits_ret].
Qed.

Lemma emits_sdk op a : P (Sdk op) -> Emits (sdk op a).
Proof.
  intros H. apply emits_bind; [now apply emits_emit|].
  intros _. destruct a; [apply emits_throw | apply emits_ret].
Qed.

End Emits.

(** Running a method body step by step. *)
Section Run.
Context {S : Type}.

Lemma bind_get {B} (k : S -> js (S := S) B) s : bind get k s = k s s.
Proof. unfold bind, get. now destruct (k s s) as [[r s2] out2]. Qed.

Lemma bind_modify {B} f (k : unit -> js (S := S) B) s :
  bind (modify f) k s = k tt (f s).
Proof. unfold bind, modify. now destruct (k tt (f s)) as [[r s2] out2]. Qed.

Lemma bind_emit {B} e (k : unit -> js (S := S) B) s :
  bind (emit e) k s
  = (completion_of (k tt s), state_of (k tt s), e :: effects_of (k tt s)).
Proof. unfold bind, emit. now destruct (k tt s) as [[r s2] out2]. Qed.

End Run.

Section Keeps.
Context {S : Type} (I : S -> Prop).

(** The method preserves the invariant [I], however it ends. *)
Definition Keeps {A} (m : js (S := S) A) : Prop :=
  forall s, I s -> I (state_of (m s)).

Lemma keeps_ret {A} (a : A) : Keeps (ret a).
Proof. intros s H; exact H. Qed.

Lemma keeps_throw {A} e : Keeps (throw (A := A) e).
Proof. intros s H; exact H. Qed.

Lemma keeps_lift {A} (c : completion A) : Keeps (lift c).
Proof. intros s H; exact H. Qed.

Lemma keeps_emit e : Keeps (emit e).
Proof. intros s H; exact H. Qed.

Lemma keeps_get : Keeps get.
Proof. intros s H; exact H. Qed.

Lemma keeps_modify f : (forall s, I s -> I (f s)) -> Keeps (modify f).
Proof. intros Hf s H; apply Hf, H. Qed.

Lemma keeps_bind {A B} (c : js A) (k : A -> js B) :
  Keeps c -> (forall a, Keeps (k a)) -> Keeps (bind c k).
Proof.
  intros Hc Hk s H. specialize (Hc s H). unfold bind, state_of in *.
  destruct (c s) as [[[a|e] s1] out1]; simpl in *; [|exact Hc].
  specialize (Hk a s1 Hc). now destruct (k a s1) as [[r s2] out2].
Qed.

(** After [s <- get], the code knows a state that satisfies [I]. *)
Lemma keeps_get_bind {B} (k : S -> js B) :
  (forall s0, I s0 -> Keeps (k s0)) -> Keeps (bind get k).
Proof.
  intros Hk s H. specialize (Hk s H s H). unfold bind, get, state_of in *.
  simpl. now destruct (k s s) as [[r s2] out2].
Qed.

Lemma keeps_try_catch {A} (body : js A) handler :
  Keeps body -> (forall e, Keeps (handler e)) -> Keeps (try_catch body handler).
Proof.
  intros Hb Hh s H. specialize (Hb s H). unfold try_catch, state_of in *.
  destruct (body s) as [[[a|e] s1] out1]; simpl in *; [exact Hb|].
  specialize (Hh e s1 Hb). now destruct (handler e s1) as [[r s2] out2].
Qed.

Lemma keeps_when b (c : js unit) : Keeps c -> Keeps (when b c).
Proof. destruct b; simpl; [trivial | intros _; apply keeps_ret]. Qed.

Lemma keeps_call_if_set slot mk : Keeps (call_if_set slot mk).
Proof. destruct slot; simpl; [apply keeps_emit | apply keeps_ret]. Qed.

Lemma keeps_sdk op a : Keeps (sdk op a).
Proof.
  apply keeps_bind; [apply keeps_emit|].
  intros _. destruct a; [apply keeps_throw | apply keeps_ret].
Qed.

End Keeps.

(** Effects of a method started in a state that satisfies [I]. *)
Section EmitsFrom.
Context {S : Type} (I : S -> Prop) (P : effect -> Prop).

Definition EmitsFrom {A} (m : js (S := S) A) : Prop :=
  forall s, I s -> Forall P (effects_of (m s)).

Lemma emitsfrom_of_emits {A} (m : js A) : Emits P m -> EmitsFrom m.
Proof. intros H s _. apply H. Qed.

Lemma emitsfrom_bind {A B} (c : js A) (k : A -> js B) :
  EmitsFrom c -> Keeps I c -> (forall a, EmitsFrom (k a)) ->
  EmitsFrom (bind c k).
Proof.
  intros Hc Hkeep Hk s Hs. specialize (Hc s Hs). specialize (Hkeep s Hs).
  unfold bind, effects_of, state_of in *.
  destruct (c s) as [[[a|e] s1] out1]; simpl in *; [|exact Hc].
  specialize (Hk a s1 Hkeep). destruct (k a s1) as [[r s2] out2]; simpl in *.
  apply Forall_app; split; assumption.
Qed.

Lemma emitsfrom_get_bind {B} (k : S -> js B) :
  (forall s0, I s0 -> EmitsFrom (k s0)) -> EmitsFrom (bind get k).
Proof. intros Hk s Hs. rewrite bind_get. now apply Hk. Qed.

Lemma emitsfrom_try_catch {A} (body : js A) handler :
  EmitsFrom body -> Keeps I body -> (forall e, EmitsFrom (handler e)) ->
  EmitsFrom (try_catch body handler).
Proof.
  intros Hb Hkeep Hh s Hs. specialize (Hb s Hs). specialize (Hkeep s Hs).
  unfold try_catch, effects_of, state_of in *.
  destruct (body s) as [[[a|e] s1] out1]; simpl in *; [exact Hb|].
  specialize (Hh e s1 Hkeep). destruct (handler e s1) as [[r s2] out2]; simpl in *.
  apply Forall_app; split; assumption.
Qed.

End EmitsFrom.

Create HintDb emits.
Create HintDb keeps.

#[export] Hint Resolve keeps_ret keeps_throw keeps_lift keeps_emit keeps_get
  keeps_bind keeps_try_catch keeps_when keeps_call_if_set keeps_sdk : keeps.

(** Effects that do not call the transcript pipeline. *)
Definition quiet (e : effect) : Prop :=
  match e with Call (CallTranscript _ _ _) => False | _ => True end.

#[export] Hint Resolve emits_ret emits_throw emits_lift emits_get emits_modify
  emits_emit emits_bind emits_try_catch emits_when emits_call_if_set
  emits_sdk : emits.
#[export] Hint Extern 1 (quiet _) => exact I : emits.

End EffFacts.

(** ** The links *)

Module LinkFacts.
Import Eff EffFacts.

Lemma synthesize_settled_quiet r : Emits quiet (TTS.synthesize_settled r).
Proof.
  unfold TTS.synthesize_settled.
  apply emits_try_catch; [destruct r|]; auto 6 with emits.
  apply emits_bind; auto with emits. intros a.
  apply emits_bind; auto with emits. intros s.
  destruct (TTS.usable a), (TTS.onAudioCallback s); auto with emits.
Qed.

Lemma connect_call_quiet cb ecb k : Emits quiet (STT.connect_call cb ecb k).
Proof. unfold STT.connect_call; auto 8 with emits. Qed.

Lemma sendAudio_quiet audio send : Emits quiet (STT.sendAudio audio send).
Proof.
  unfold STT.sendAudio. apply emits_bind; auto with emits. intros s.
  destruct (STT.not_connected s).
  - apply emits_bind; auto with emits. intros _.
    destruct (STT.onTranscriptCallback s); auto with emits.
    apply emits_when, emits_bind; auto using connect_call_quiet with emits.
  - destruct (STT.connection s); auto 8 with emits.
Qed.

Lemma resume_quiet k connected send : Emits quiet (STT.resume k connected send).
Proof.
  destruct k; simpl; auto using sendAudio_quiet with emits.
Qed.

Lemma connect_failed_quiet k e : Emits quiet (STT.connect_failed k e).
Proof.
  unfold STT.connect_failed. auto 8 using resume_quiet with emits.
Qed.

Definition is_transcript (e : STT.event) : bool :=
  match e with STT.Transcript _ _ => true | _ => false end.

(** Only a [Transcript] event reaches the transcript callback. *)
Lemma handle_quiet e : is_transcript e = false -> Emits quiet (STT.handle e).
Proof.
  intros He. unfold STT.handle. apply emits_bind; auto with emits. intros s.
  destruct e as [c send|c msg|c|c data|c|c|]; try discriminate.
  - destruct (STT.take c (STT.opening s)) as [[k|] rest];
      auto 8 using resume_quiet with emits.
  - apply emits_when.
    destruct (STT.take c (STT.opening s)) as [[k|] rest];
      auto 8 using connect_failed_quiet with emits.
  - destruct (STT.take c (STT.opening s)) as [[k|] rest];
      auto 8 using connect_failed_quiet with emits.
  - auto 8 with emits.
  - auto with emits.
  - destruct (STT.timers s); auto with emits.
    apply emits_bind; auto with emits. intros _.
    destruct (STT.onTranscriptCallback s); auto using connect_call_quiet with emits.
Qed.

End LinkFacts.

(** ** Frame properties of the session *)

Module SessionFacts.
Import Eff EffFacts LinkFacts Session.

(** Messages sent by queue jobs, as opposed to transcripts. *)
Definition synthesized (m : message) : bool :=
  match m with Transcribed _ _ => false | _ => true end.

Definition queue_messages (s : t) : list message := filter synthesized (sent s).

(** The part of the state the queue owns: the sentence of the running
    job, those of the waiting ones, the messages jobs have sent. *)
Definition queue_view (s : t) : option string * list string * list message :=
  (option_map sentence (running s), waiting s, queue_messages s).

(** The part of the state the conversation owns. *)
Definition talk_view (s : t) : list turn * list (list turn) * list message :=
  (msgHistory s, inferences s, sent s).

Lemma filter_snoc {A} (f : A -> bool) (l : list A) (x : A) :
  filter f (l ++ [x]) = filter f l ++ (if f x then [x] else []).
Proof. now rewrite filter_app. Qed.

Lemma apply_effect_queue_view s e : queue_view (apply_effect s e) = queue_view s.
Proof.
  unfold queue_view, queue_messages.
  destruct e as [op|[f a|f x|f tr fin]|]; simpl; try reflexivity.
  - destruct f; try reflexivity; simpl. destruct (running s); reflexivity.
  - destruct f; try reflexivity; simpl. destruct (running s); reflexivity.
  - destruct f; try reflexivity. unfold on_transcript.
    destruct (fin && JS.truthy (JS.trim tr)); simpl;
      now rewrite filter_snoc, app_nil_r.
Qed.

Lemma apply_effects_queue_view es : forall s,
  queue_view (apply_effects es s) = queue_view s.
Proof.
  induction es as [|e es IH]; intros s; simpl; [reflexivity|].
  unfold apply_effects in IH. now rewrite IH, apply_effect_queue_view.
Qed.

Lemma apply_effect_quiet s e :
  quiet e -> talk_view (apply_effect s e) = talk_view s.
Proof.
  destruct e as [op|[f a|f x|f tr fin]|]; simpl; try reflexivity; try tauto.
  - destruct f; reflexivity.
  - destruct f; reflexivity.
Qed.

Lemma apply_effects_quiet es : forall s,
  Forall quiet es -> talk_view (apply_effects es s) = talk_view s.
Proof.
  induction es as [|e es IH]; intros s H; simpl; [reflexivity|].
  inversion H; subst. unfold apply_effects in IH.
  now rewrite IH, apply_effect_quiet.
Qed.

Lemma on_stt_queue_view {A} (m : js (S := STT.t) A) s :
  queue_view (on_stt m s) = queue_view s.
Proof. unfold on_stt. now rewrite apply_effects_queue_view. Qed.

Lemma on_tts_queue_view {A} (m : js (S := TTS.t) A) s :
  queue_view (on_tts m s) = queue_view s.
Proof. unfold on_tts. now rewrite apply_effects_queue_view. Qed.

Lemma on_tts_quiet {A} (m : js (S := TTS.t) A) s :
  Emits quiet m -> talk_view (on_tts m s) = talk_view s.
Proof. intros H. unfold on_tts. now rewrite apply_effects_quiet. Qed.

Lemma on_stt_quiet {A} (m : js (S := STT.t) A) s :
  Emits quiet m -> talk_view (on_stt m s) = talk_view s.
Proof. intros H. unfold on_stt. now rewrite apply_effects_quiet. Qed.

(** *** The queue job *)

(** The one message a settled job sends. *)
Definition outcome_message (j : job) : message :=
  match errorResult j with
  | Some _ => Text ("[TTS Error] " ++ sentence j)
  | None =>
      match TTS.usable (audioResult j) with
      | Some audio => Audio (sentence j) audio
      | None => Text ("[TTS Error] " ++ sentence j)
      end
  end.

Lemma deliver_spec j s :
  deliver j s =
  (Normal tt,
   ws_send (outcome_message j)
     (set_tts (TTS.set_callbacks (originalCallback j) (originalErrorCallback j)
                 (deepgramTTS s)) s),
   []).
Proof.
  unfold deliver, outcome_message, try_catch, bind, modify, throw.
  destruct (errorResult j); [reflexivity|].
  destruct (TTS.usable (audioResult j)); reflexivity.
Qed.

Lemma synthesized_outcome j : synthesized (outcome_message j) = true.
Proof.
  unfold outcome_message.
  destruct (errorResult j); [reflexivity|].
  destruct (TTS.usable (audioResult j)); reflexivity.
Qed.

Lemma queue_view_start_job x s :
  queue_view (start_job x s) = (Some x, waiting s, queue_messages s).
Proof. reflexivity. Qed.

(** The queue once a job has settled with message [m]. *)
Definition advance (v : option string * list string * list message)
           (m : message) : option string * list string * list message :=
  match snd (fst v) with
  | [] => (None, [], snd v ++ [m])
  | next :: rest => (Some next, rest, snd v ++ [m])
  end.

Lemma queue_view_finish_job j s :
  queue_view (finish_job j s) = advance (queue_view s) (outcome_message j).
Proof.
  unfold finish_job. rewrite deliver_spec. unfold state_of; simpl.
  unfold queue_next, advance; simpl.
  destruct (waiting s) as [|next rest] eqn:E; simpl.
  - unfold queue_view, queue_messages; simpl.
    now rewrite filter_snoc, synthesized_outcome, E.
  - rewrite queue_view_start_job. unfold queue_messages; simpl.
    now rewrite filter_snoc, synthesized_outcome.
Qed.

End SessionFacts.

(** ** The queue keeps submission order *)

Module QueueFacts.
Import Eff EffFacts LinkFacts Session SessionFacts.

(** [m] is the outbound message of a job for [sentence]: the audio
    message, or the text-only fall-back. *)
Definition message_for (sentence : string) (m : message) : Prop :=
  (exists audio, m = Audio sentence audio) \/
  m = Text ("[TTS Error] " ++ sentence).

Definition pending_of (v : option string * list string * list message)
  : list string :=
  match fst (fst v) with
  | Some x => x :: snd (fst v)
  | None => snd (fst v)
  end.

(** Sentences still in the queue, the running one first. *)
Definition pending (s : t) : list string := pending_of (queue_view s).

(** The queue after [queue.add] of a job for [x]. *)
Definition added (v : option string * list string * list message) (x : string)
  : option string * list string * list message :=
  match fst (fst v) with
  | Some y => (Some y, snd (fst v) ++ [x], snd v)
  | None => (Some x, snd (fst v), snd v)
  end.

(** The invariant: the messages sent are those of the units submitted so
    far that are no longer in the queue, one each, in submission order. *)
Definition in_order (v : option string * list string * list message)
           (submitted : list string) : Prop :=
  (fst (fst v) = None -> snd (fst v) = []) /\
  exists delivered,
    submitted = delivered ++ pending_of v /\
    Forall2 message_for delivered (snd v).

(** The sentences submitted to the queue along a run. *)
Definition submission (e : event) : list string :=
  match e with SentenceUnit x => [x] | _ => [] end.

Definition submissions (events : list event) : list string :=
  flat_map submission events.

Lemma in_order_added v submitted x :
  in_order v submitted -> in_order (added v x) (submitted ++ [x]).
Proof.
  destruct v as [[r w] msgs]. unfold in_order, added, pending_of; simpl.
  intros [Hidle (delivered & -> & Hmsgs)].
  destruct r as [y|]; simpl.
  - split; [discriminate|]. exists delivered. split; [|assumption].
    now rewrite <- app_assoc.
  - rewrite (Hidle eq_refl). split; [discriminate|].
    exists delivered. split; [|assumption]. now rewrite app_nil_r.
Qed.

Lemma in_order_advance v submitted x m :
  in_order v submitted -> fst (fst v) = Some x -> message_for x m ->
  in_order (advance v m) submitted.
Proof.
  destruct v as [[r w] msgs]. unfold in_order, advance, pending_of; simpl.
  intros [_ (delivered & -> & Hmsgs)] -> Hm.
  destruct w as [|next rest]; simpl.
  - split; [reflexivity|]. exists (delivered ++ [x]).
    split; [now rewrite app_nil_r|].
    apply Forall2_app; [assumption | constructor; [assumption | constructor]].
  - split; [discriminate|]. exists (delivered ++ [x]).
    split; [now rewrite <- app_assoc|].
    apply Forall2_app; [assumption | constructor; [assumption | constructor]].
Qed.

Lemma message_for_outcome j : message_for (sentence j) (outcome_message j).
Proof.
  unfold message_for, outcome_message.
  destruct (errorResult j); [now right|].
  destruct (TTS.usable (audioResult j)); [left; eauto | now right].
Qed.

Lemma queue_view_add x s :
  queue_view (queue_add x s) = added (queue_view s) x.
Proof.
  unfold queue_add, added. destruct (running s) as [j|] eqn:E.
  - unfold queue_view; simpl. now rewrite E.
  - rewrite queue_view_start_job. unfold queue_view; simpl. now rewrite E.
Qed.

Lemma queue_view_next m s :
  synthesized m = true ->
  queue_view (queue_next (ws_send m s)) = advance (queue_view s) m.
Proof.
  intros Hm. unfold queue_next, advance; simpl.
  destruct (waiting s) as [|next rest] eqn:E; simpl.
  - unfold queue_view, queue_messages; simpl.
    now rewrite filter_snoc, Hm, E.
  - rewrite queue_view_start_job. unfold queue_messages; simpl.
    now rewrite filter_snoc, Hm.
Qed.

(** A turn of the running job leaves the queue as it is or settles the
    job with its one message. *)
Definition settles_or_stays (s s' : t) : Prop :=
  queue_view s' = queue_view s \/
  exists x m, fst (fst (queue_view s)) = Some x /\ message_for x m /\
              queue_view s' = advance (queue_view s) m.

Lemma poll_queue_view startTime now s :
  settles_or_stays s (poll startTime now s).
Proof.
  unfold poll, settles_or_stays. destruct (running s) as [j|] eqn:E; [|now left].
  destruct (must_wait j startTime now).
  - left. unfold queue_view; simpl. now rewrite E.
  - right. exists (sentence j), (outcome_message j).
    rewrite queue_view_finish_job. unfold queue_view at 1; simpl. rewrite E.
    auto using message_for_outcome.
Qed.

Lemma settles_or_stays_after s s1 s' :
  queue_view s1 = queue_view s -> settles_or_stays s1 s' -> settles_or_stays s s'.
Proof. unfold settles_or_stays. intros ->. trivial. Qed.

Lemma step_queue_view s e :
  match e with
  | SentenceUnit x => queue_view (step s e) = added (queue_view s) x
  | _ => settles_or_stays s (step s e)
  end.
Proof.
  destruct e as [fields|audio send|e'|x|r now|now]; simpl.
  - left. destruct (is_clear fields); reflexivity.
  - left. apply on_stt_queue_view.
  - left. apply on_stt_queue_view.
  - now rewrite queue_view_add.
  - destruct (running s) as [j|] eqn:E; [|now left].
    destruct (phase_of j); [|now left].
    set (r' := TTS.synthesize_settled r (deepgramTTS s)).
    set (s1 := apply_effects (effects_of r') (set_tts (state_of r') s)).
    assert (Hv : queue_view s1 = queue_view s)
      by (unfold s1; now rewrite apply_effects_queue_view).
    apply settles_or_stays_after with s1; [assumption|].
    destruct (completion_of r') as [[]|err], (running s1) as [j1|] eqn:E1;
      try (now left).
    + apply poll_queue_view.
    + right. exists (sentence j1), (Text ("[TTS Error] " ++ sentence j1)).
      rewrite queue_view_next by reflexivity.
      unfold queue_view at 1; simpl. rewrite E1.
      repeat split. now right.
  - destruct (running s) as [j|] eqn:E; [|now left].
    destruct (phase_of j); [now left|]. apply poll_queue_view.
Qed.

Lemma step_in_order s e submitted :
  in_order (queue_view s) submitted ->
  in_order (queue_view (step s e)) (submitted ++ submission e).
Proof.
  intros H. pose proof (step_queue_view s e) as Hstep.
  destruct e; simpl submission; rewrite ?app_nil_r;
    try (destruct Hstep as [-> | (x & m & Hx & Hm & ->)];
         [assumption | eapply in_order_advance; eassumption]).
  rewrite Hstep. now apply in_order_added.
Qed.

Lemma run_in_order events : forall s submitted,
  in_order (queue_view s) submitted ->
  in_order (queue_view (run s events)) (submitted ++ submissions events).
Proof.
  induction events as [|e events IH]; intros s submitted H; simpl.
  - now rewrite app_nil_r.
  - rewrite app_assoc. apply IH. now apply step_in_order.
Qed.

Lemma queue_view_boot tts_test b : queue_view (boot tts_test b) = (None, [], []).
Proof. unfold boot. now rewrite !on_stt_queue_view, !on_tts_queue_view. Qed.

Lemma Forall2_nth_error {A B} (P : A -> B -> Prop) l1 l2 :
  Forall2 P l1 l2 -> forall n b, nth_error l2 n = Some b ->
  exists a, nth_error l1 n = Some a /\ P a b.
Proof.
  induction 1 as [|a b l1 l2 Hab H IH]; intros [|n] b' Hn; simpl in *;
    try discriminate.
  - injection Hn as <-. eauto.
  - eauto.
Qed.

End QueueFacts.

(** ** The conversation history *)

Module TalkFacts.
Import Eff EffFacts LinkFacts Session SessionFacts.

(** What a [Transcript] event does to the link: nothing, beyond calling
    the transcript callback when the text is not empty. *)
Definition transcript_calls (st : STT.t) (c : nat)
           (data : option STT.transcript_data) : list effect :=
  if c <? STT.fresh st then
    match STT.onTranscriptCallback st with
    | Some f =>
        if JS.truthy (STT.extract_transcript data)
        then [Call (CallTranscript f (STT.extract_transcript data)
                                   (STT.extract_is_final data))]
        else []
    | None => []
    end
  else [].

Lemma handle_transcript st c data :
  STT.handle (STT.Transcript c data) st
  = (Normal tt, st, transcript_calls st c data).
Proof.
  unfold STT.handle, transcript_calls, bind, get, when, emit, ret.
  destruct (c <? STT.fresh st); [|reflexivity].
  destruct (STT.onTranscriptCallback st); [|reflexivity].
  destruct (JS.truthy (STT.extract_transcript data)); reflexivity.
Qed.

(** The transcript callback reached by the event, if any. *)
Definition heard (s : t) (c : nat) (data : option STT.transcript_data) : bool :=
  (c <? STT.fresh (deepgramSTT s))
  && match STT.onTranscriptCallback (deepgramSTT s) with
     | Some OnTranscript => true
     | _ => false
     end
  && JS.truthy (STT.extract_transcript data).

(** The turn a transcript appends. *)
Definition user_turn (transcript : string) (isFinal : bool) : list turn :=
  if isFinal && JS.truthy (JS.trim transcript)
  then [{| role_of := user; content := transcript |}] else [].

Lemma talk_view_on_transcript transcript isFinal s :
  talk_view (on_transcript transcript isFinal s)
  = (msgHistory s ++ user_turn transcript isFinal,
     inferences s ++ map (fun x => msgHistory s ++ [x]) (user_turn transcript isFinal),
     sent s ++ [Transcribed transcript (negb isFinal)]).
Proof.
  unfold on_transcript, user_turn, talk_view.
  destruct (isFinal && JS.truthy (JS.trim transcript)); simpl;
    now rewrite ?app_nil_r.
Qed.

Lemma talk_view_eq s s' :
  talk_view s' = talk_view s ->
  msgHistory s' = msgHistory s /\ inferences s' = inferences s /\
  sent s' = sent s.
Proof. unfold talk_view. intros [= -> -> ->]. auto. Qed.

Lemma talk_view_transcript s c data :
  talk_view (step s (Deepgram (STT.Transcript c data)))
  = if heard s c data
    then talk_view (on_transcript (STT.extract_transcript data)
                                  (STT.extract_is_final data) s)
    else talk_view s.
Proof.
  simpl. unfold on_stt. rewrite handle_transcript.
  unfold effects_of, state_of, transcript_calls, heard; simpl.
  destruct (c <? STT.fresh (deepgramSTT s)); [|reflexivity].
  destruct (STT.onTranscriptCallback (deepgramSTT s)) as [f|]; [|reflexivity].
  destruct (JS.truthy (STT.extract_transcript data)).
  - destruct f; simpl; try reflexivity;
      now rewrite ?andb_false_r.
  - now rewrite andb_false_r.
Qed.

Lemma talk_view_poll startTime now s :
  msgHistory (poll startTime now s) = msgHistory s /\
  inferences (poll startTime now s) = inferences s.
Proof.
  unfold poll. destruct (running s) as [j|]; [|now split].
  destruct (must_wait j startTime now); [now split|].
  unfold finish_job. rewrite deliver_spec. unfold state_of, queue_next; simpl.
  destruct (waiting s); now split.
Qed.

(** Turns of the running job never touch the history. *)
Lemma history_job_turn s e :
  match e with SpeakSettled _ _ | PollWake _ => True | _ => False end ->
  msgHistory (step s e) = msgHistory s /\ inferences (step s e) = inferences s.
Proof.
  destruct e as [ | | | |r now|now]; try tauto; intros _; simpl.
  - destruct (running s) as [j|]; [|now split].
    destruct (phase_of j); [|now split].
    set (r' := TTS.synthesize_settled r (deepgramTTS s)).
    set (s1 := apply_effects (effects_of r') (set_tts (state_of r') s)).
    assert (Hv : talk_view s1 = talk_view s).
    { unfold s1. rewrite apply_effects_quiet; [reflexivity|].
      apply synthesize_settled_quiet. }
    apply talk_view_eq in Hv as (Hh & Hi & _).
    destruct (completion_of r') as [[]|err], (running s1) as [j1|];
      try (now split).
    + destruct (talk_view_poll now now s1) as [-> ->]. now split.
    + unfold queue_next; simpl. destruct (waiting s1); now split.
  - destruct (running s) as [j|]; [|now split].
    destruct (phase_of j); [now split|]. apply talk_view_poll.
Qed.

(** What each turn of the event loop appends to the history. *)
Definition appended (s : t) (e : event) : list turn :=
  match e with
  | SentenceUnit x => [{| role_of := assistant; content := x |}]
  | Deepgram (STT.Transcript c data) =>
      if heard s c data
      then user_turn (STT.extract_transcript data) (STT.extract_is_final data)
      else []
  | _ => []
  end.

Lemma step_history s e :
  msgHistory (step s e)
  = match e with
    | WsText fields => if is_clear fields then [] else msgHistory s
    | _ => msgHistory s ++ appended s e
    end.
Proof.
  destruct e as [fields|audio send|e'|x|r now|now].
  - simpl. destruct (is_clear fields); reflexivity.
  - simpl. rewrite app_nil_r.
    now apply talk_view_eq, on_stt_quiet, sendAudio_quiet.
  - destruct e' as [c send|c msg|c|c data|c|c|];
      try (simpl appended; rewrite app_nil_r;
           now apply talk_view_eq, on_stt_quiet, handle_quiet).
    pose proof (talk_view_transcript s c data) as H. simpl appended.
    destruct (heard s c data).
    + rewrite talk_view_on_transcript in H. now injection H.
    + rewrite app_nil_r. now injection H.
  - simpl. unfold queue_add; simpl. destruct (running s); reflexivity.
  - simpl appended. rewrite app_nil_r. now apply history_job_turn.
  - simpl appended. rewrite app_nil_r. now apply history_job_turn.
Qed.

Lemma step_inferences s e :
  inferences (step s e)
  = inferences s ++
    match e with
    | Deepgram (STT.Transcript c data) =>
        map (fun x => msgHistory s ++ [x]) (appended s e)
    | _ => []
    end.
Proof.
  destruct e as [fields|audio send|e'|x|r now|now]; rewrite ?app_nil_r.
  - simpl. destruct (is_clear fields); reflexivity.
  - pose proof (on_stt_quiet (STT.sendAudio audio send) s
                  (sendAudio_quiet audio send)) as H.
    now injection H.
  - destruct e' as [c send|c msg|c|c data|c|c|]; rewrite ?app_nil_r;
      try (now apply talk_view_eq, on_stt_quiet, handle_quiet).
    pose proof (talk_view_transcript s c data) as H. simpl appended.
    destruct (heard s c data).
    + rewrite talk_view_on_transcript in H. now injection H.
    + simpl. rewrite app_nil_r. now injection H.
  - simpl. unfold queue_add; simpl. destruct (running s); reflexivity.
  - now apply history_job_turn.
  - now apply history_job_turn.
Qed.

End TalkFacts.

(** ** The transcription link *)

Module SttFacts.
Import Eff EffFacts STT.

(** *** The transcript callback, once registered, stays registered *)

Definition registered (cb : closure) (ecb : option closure) (s : t) : Prop :=
  onTranscriptCallback s = Some cb /\ onErrorCallback s = ecb.

Lemma connect_call_registered cb ecb k :
  Keeps (registered cb ecb) (connect_call cb ecb k).
Proof.
  unfold connect_call. apply keeps_bind; [intros s H; exact H|].
  intros s0. apply keeps_bind; auto with keeps.
  apply keeps_modify. intros s _. now split.
Qed.

Lemma sendAudio_registered cb ecb audio send :
  Keeps (registered cb ecb) (sendAudio audio send).
Proof.
  unfold sendAudio. apply keeps_get_bind. intros s0 [Hcb Hecb].
  destruct (not_connected s0).
  - apply keeps_bind; auto with keeps. intros _. rewrite Hcb, Hecb.
    apply keeps_when, keeps_bind.
    + apply keeps_modify. now intros s [? ?].
    + intros _. apply connect_call_registered.
  - destruct (connection s0); auto with keeps.
Qed.

Lemma resume_registered cb ecb k connected send :
  Keeps (registered cb ecb) (resume k connected send).
Proof.
  destruct k; simpl; auto with keeps.
  apply keeps_bind.
  - apply keeps_modify. now intros s [? ?].
  - intros _. apply keeps_when, sendAudio_registered.
Qed.

Lemma connect_failed_registered cb ecb k e :
  Keeps (registered cb ecb) (connect_failed k e).
Proof.
  unfold connect_failed. apply keeps_get_bind. intros s0 _.
  apply keeps_bind; auto using resume_registered with keeps.
Qed.

Ltac keeps_fields :=
  apply keeps_modify; intros ? [? ?]; split; assumption.

Lemma handle_registered cb ecb e : Keeps (registered cb ecb) (handle e).
Proof.
  unfold handle. apply keeps_get_bind. intros s0 [Hcb Hecb].
  destruct e as [c send|c msg|c|c data|c|c|].
  - destruct (take c (opening s0)) as [[k|] rest]; auto with keeps.
    apply keeps_bind; [keeps_fields|]. intros _.
    apply keeps_bind; [keeps_fields|]. intros _.
    apply resume_registered.
  - apply keeps_when.
    destruct (take c (opening s0)) as [[k|] rest]; auto with keeps.
    apply keeps_bind; [keeps_fields|]. intros _.
    apply keeps_bind; auto using connect_failed_registered with keeps.
  - destruct (take c (opening s0)) as [[k|] rest]; auto with keeps.
    apply keeps_bind; [keeps_fields|]. intros _.
    apply connect_failed_registered.
  - apply keeps_when. rewrite Hcb. auto with keeps.
  - apply keeps_when.
    apply keeps_bind; [keeps_fields|]. intros _.
    apply keeps_bind; [keeps_fields|]. auto with keeps.
  - auto with keeps.
  - destruct (timers s0); auto with keeps.
    apply keeps_bind; [keeps_fields|]. intros _.
    rewrite Hcb, Hecb. apply connect_call_registered.
Qed.

(** *** Connection numbers are fresh *)

Lemma take_sublist c o :
  forall p, In p (snd (take c o)) -> In p o.
Proof.
  induction o as [|[c' k] o IH]; simpl; [tauto|].
  destruct (c' =? c); simpl; [auto|].
  intros p [<-|H]; auto.
Qed.

Lemma take_last c o k :
  Forall (fun p => fst p < c) o -> take c (o ++ [(c, k)]) = (Some k, o).
Proof.
  induction 1 as [|[c' k'] o Hlt Ho IH]; simpl.
  - now rewrite Nat.eqb_refl.
  - simpl in Hlt. destruct (Nat.eqb_spec c' c); [lia|].
    now rewrite IH.
Qed.

(** A waiting [connect] call is found by the event of its connection. *)
Lemma take_waiting c k o :
  NoDup (map fst o) -> In (c, k) o -> fst (take c o) = Some k.
Proof.
  induction o as [|[c' k'] o IH]; simpl; [tauto|].
  intros Hnd Hin. apply NoDup_cons_iff in Hnd as [Hc' Ho].
  destruct (Nat.eqb_spec c' c) as [->|Hne]; simpl.
  - destruct Hin as [[= ->]|Hin]; [reflexivity|].
    exfalso. apply Hc'. apply in_map_iff. now exists (c, k).
  - destruct Hin as [[= -> ->]|Hin]; [contradiction|]. auto.
Qed.

Lemma wf_fields s s' :
  opening s' = opening s -> fresh s' = fresh s -> wf s -> wf s'.
Proof. unfold wf. intros Ho Hf H. now rewrite Ho, Hf. Qed.

Lemma wf_set_opening c s :
  wf s -> wf (set_opening (snd (take c (opening s))) s).
Proof.
  unfold wf; simpl. rewrite !Forall_forall. intros H p Hp.
  eapply H, take_sublist, Hp.
Qed.

Lemma wf_begin_connect cb ecb k s : wf s -> wf (begin_connect cb ecb k s).
Proof.
  unfold wf; simpl. intros H. apply Forall_app; split.
  - eapply Forall_impl; [|exact H]. simpl; intros; lia.
  - repeat constructor.
Qed.

Ltac wf_fields := apply keeps_modify; intros ? ?; eapply wf_fields; eauto.

Lemma connect_call_wf cb ecb k : Keeps wf (connect_call cb ecb k).
Proof.
  unfold connect_call. apply keeps_bind; [intros s H; exact H|].
  intros s0. apply keeps_bind; auto with keeps.
  apply keeps_modify. intros s. apply wf_begin_connect.
Qed.

Lemma sendAudio_wf audio send : Keeps wf (sendAudio audio send).
Proof.
  unfold sendAudio. apply keeps_get_bind. intros s0 _.
  destruct (not_connected s0).
  - apply keeps_bind; auto with keeps. intros _.
    destruct (onTranscriptCallback s0); auto with keeps.
    apply keeps_when, keeps_bind; [wf_fields|].
    intros _. apply connect_call_wf.
  - destruct (connection s0); auto with keeps.
Qed.

Lemma resume_wf k connected send : Keeps wf (resume k connected send).
Proof.
  destruct k; simpl; auto with keeps.
  apply keeps_bind; [wf_fields|].
  intros _. apply keeps_when, sendAudio_wf.
Qed.

Lemma connect_failed_wf k e : Keeps wf (connect_failed k e).
Proof.
  unfold connect_failed. apply keeps_get_bind. intros s0 _.
  apply keeps_bind; auto using resume_wf with keeps.
Qed.

Lemma handle_wf e : Keeps wf (handle e).
Proof.
  intros s H. unfold handle. rewrite bind_get.
  destruct e as [c send|c msg|c|c data|c|c|].
  - destruct (take c (opening s)) as [[k|] rest] eqn:E; [|exact H].
    rewrite !bind_modify. apply resume_wf.
    eapply wf_fields with (s := set_opening rest s); try reflexivity.
    replace rest with (snd (take c (opening s))) by now rewrite E.
    now apply wf_set_opening.
  - destruct (c <? fresh s); [|exact H]. simpl.
    destruct (take c (opening s)) as [[k|] rest] eqn:E.
    + rewrite bind_modify. apply keeps_bind; auto using connect_failed_wf with keeps.
      replace rest with (snd (take c (opening s))) by now rewrite E.
      now apply wf_set_opening.
    + now apply keeps_call_if_set.
  - destruct (take c (opening s)) as [[k|] rest] eqn:E; [|exact H].
    rewrite bind_modify. apply connect_failed_wf.
    replace rest with (snd (take c (opening s))) by now rewrite E.
    now apply wf_set_opening.
  - apply keeps_when; [|exact H].
    destruct (onTranscriptCallback s); auto with keeps.
  - apply keeps_when; [|exact H].
    apply keeps_bind; [wf_fields|]. intros _.
    apply keeps_bind; [wf_fields|]. auto with keeps.
  - exact H.
  - destruct (timers s); [exact H|].
    rewrite bind_modify.
    destruct (onTranscriptCallback s); [|exact H].
    apply connect_call_wf. exact H.
Qed.

(** *** [sendAudio] on a link that is not connected *)

Lemma sendAudio_reconnects s audio send cb :
  not_connected s = true ->
  onTranscriptCallback s = Some cb -> isReconnecting s = false ->
  sendAudio audio send s
  = (Normal tt,
     begin_connect cb (onErrorCallback s) (KResend audio)
       (set_isReconnecting true s),
     [ConsoleWarn;
      Sdk (ListenLive (fresh s) (model (cfg s)) (language (cfg s)));
      Sdk (SetTimeout 5000)]).
Proof.
  intros Hnc Hcb Hrec. unfold sendAudio. rewrite bind_get, Hnc, Hcb, Hrec.
  reflexivity.
Qed.

Lemma sendAudio_discards s audio send :
  not_connected s = true ->
  onTranscriptCallback s = None \/ isReconnecting s = true ->
  sendAudio audio send s = (Normal tt, s, [ConsoleWarn]).
Proof.
  intros Hnc H. unfold sendAudio. rewrite bind_get, Hnc.
  destruct (onTranscriptCallback s) as [cb|]; [|reflexivity].
  destruct H as [H|H]; [discriminate|]. now rewrite H.
Qed.

(** The effects of [connection.send(audioBuffer)] inside its [try]. *)
Definition send_effects (c : nat) (audio : list Byte.byte) (send : answer)
           (ecb : option closure) : list effect :=
  Sdk (ListenSend c audio)
  :: match send, ecb with
     | Some error, Some f => [Call (CallError f error)]
     | _, _ => []
     end.

Lemma sendAudio_sends s c audio send :
  isConnected s = true -> connection s = Some c ->
  sendAudio audio send s
  = (Normal tt, s, send_effects c audio send (onErrorCallback s)).
Proof.
  intros Hc Hconn. unfold sendAudio. rewrite bind_get.
  unfold not_connected. rewrite Hc, Hconn. simpl.
  unfold send_effects, try_catch, sdk, bind, emit, throw, ret, get, call_if_set.
  destruct send as [error|]; [|reflexivity].
  destruct (onErrorCallback s); reflexivity.
Qed.

(** When the connection made for a pending resend opens, the audio goes
    out on it. *)
Lemma open_resends s cb ecb audio send :
  wf s ->
  let s1 := begin_connect cb ecb (KResend audio) (set_isReconnecting true s) in
  let s2 := set_isReconnecting false
              (set_isConnected true (set_opening (opening s) s1)) in
  handle (Open (fresh s) send) s1
  = (Normal tt, s2, send_effects (fresh s) audio send ecb).
Proof.
  intros Hwf s1 s2. unfold handle. rewrite bind_get.
  assert (E : take (fresh s) (opening s1) = (Some (KResend audio), opening s))
    by (apply take_last, Hwf).
  rewrite E, !bind_modify. simpl resume. rewrite bind_modify. simpl when.
  now rewrite (sendAudio_sends _ (fresh s)).
Qed.

(** *** [disconnect] *)

Lemma disconnect_spec s finish :
  disconnect finish s
  = (Normal tt,
     set_isConnected false
       (match connection s with Some _ => set_connection None s | None => s end),
     match connection s with Some c => [Sdk (ListenFinish c)] | None => [] end).
Proof.
  unfold disconnect, try_catch, sdk, bind, get, emit, modify, throw, ret.
  destruct (connection s) as [c|]; [|reflexivity].
  destruct finish; reflexivity.
Qed.

Lemma attempts_app es1 es2 : attempts (es1 ++ es2) = attempts es1 + attempts es2.
Proof. unfold attempts. now rewrite filter_app, length_app. Qed.

Lemma close_spec s c :
  c < fresh s ->
  handle (Close c) s
  = (Normal tt, set_timers (S (timers s)) (set_isConnected false s),
     [Sdk (SetTimeout 100)]).
Proof.
  intros Hc. unfold handle. rewrite bind_get.
  apply Nat.ltb_lt in Hc. now rewrite Hc.
Qed.

Lemma reconnect_timer_spec s n cb :
  timers s = S n -> onTranscriptCallback s = Some cb ->
  handle ReconnectTimer s
  = (Normal tt,
     begin_connect cb (onErrorCallback s) KDropped (set_timers n s),
     [Sdk (ListenLive (fresh s) (model (cfg s)) (language (cfg s)));
      Sdk (SetTimeout 5000)]).
Proof.
  intros Ht Hcb. unfold handle. rewrite bind_get, Ht, bind_modify, Hcb.
  reflexivity.
Qed.

(** A connection that fails before it opens: the error callback is
    called, and nothing else is started. *)
Lemma failed_attempt_spec s c message :
  c < fresh s ->
  exists s',
    state_of (handle (Error c message) s) = s' /\
    attempts (effects_of (handle (Error c message) s)) = 0 /\
    fresh s' = fresh s /\ timers s' = timers s /\
    onTranscriptCallback s' = onTranscriptCallback s /\
    onErrorCallback s' = onErrorCallback s.
Proof.
  intros Hc. eexists; split; [reflexivity|].
  unfold handle. rewrite bind_get. apply Nat.ltb_lt in Hc. rewrite Hc.
  simpl when.
  destruct (take c (opening s)) as [[k|] rest].
  - rewrite bind_modify.
    destruct (onErrorCallback s) as [f|] eqn:Ee; destruct k;
      cbv [connect_failed call_if_set bind get emit ret resume modify when
           effects_of state_of fst snd]; simpl; rewrite Ee; simpl;
      repeat split; simpl; auto.
  - unfold call_if_set.
    destruct (onErrorCallback s) eqn:Ee; repeat split; simpl; auto.
Qed.

(** It is reported to the error callback (by the handler of l.327). *)
Lemma failed_attempt_reports s c message f :
  c < fresh s -> onErrorCallback s = Some f ->
  In (Call (CallError f (stt_error message)))
     (effects_of (handle (Error c message) s)).
Proof.
  intros Hc Hf. unfold handle. rewrite bind_get.
  apply Nat.ltb_lt in Hc. rewrite Hc, Hf. simpl when. simpl call_if_set.
  destruct (take c (opening s)) as [[k|] rest].
  - rewrite bind_modify, bind_emit. now left.
  - now left.
Qed.

Lemma attempts_run_cons s e rest :
  attempts (snd (run s (e :: rest)))
  = attempts (effects_of (handle e s))
    + attempts (snd (run (state_of (handle e s)) rest)).
Proof. simpl. apply attempts_app. Qed.

(** Every round of the storm makes one more connection attempt. *)
Lemma storm_attempts k : forall s c cb,
  fresh s = S c -> onTranscriptCallback s = Some cb ->
  attempts (snd (run s (storm c k))) = k.
Proof.
  induction k as [|k IH]; intros s c cb Hfresh Hcb; [reflexivity|].
  cbn [storm]. rewrite attempts_run_cons, close_spec by lia.
  cbn [state_of effects_of fst snd].
  set (s1 := set_timers (S (timers s)) (set_isConnected false s)).
  rewrite attempts_run_cons, (reconnect_timer_spec s1 (timers s) cb)
    by (try reflexivity; exact Hcb).
  cbn [state_of effects_of fst snd].
  set (s2 := begin_connect cb (onErrorCallback s1) KDropped
               (set_timers (timers s) s1)).
  rewrite attempts_run_cons.
  destruct (failed_attempt_spec s2 (S c) "handshake failed")
    as (s3 & Hs3 & Hnone & Hf3 & _ & Hcb3 & _).
  { simpl. lia. }
  rewrite Hs3, Hnone.
  rewrite (IH s3 (S c) cb); [reflexivity| |].
  - rewrite Hf3. simpl. now rewrite Hfresh.
  - now rewrite Hcb3.
Qed.

End SttFacts.

(** ** States a session can reach *)

Module ReachFacts.
Import Eff EffFacts LinkFacts Session SessionFacts SttFacts.

Lemma links_apply_effect s e :
  deepgramSTT (apply_effect s e) = deepgramSTT s /\ deepgramTTS (apply_effect s e) = deepgramTTS s.
Proof.
  destruct e as [op|[f a|f x|f tr fin]|]; simpl; auto.
  - destruct f; auto.
  - destruct f; auto.
  - destruct f; auto. unfold on_transcript.
    destruct (fin && JS.truthy (JS.trim tr)); auto.
Qed.

Lemma links_apply_effects es : forall s,
  deepgramSTT (apply_effects es s) = deepgramSTT s /\
  deepgramTTS (apply_effects es s) = deepgramTTS s.
Proof.
  unfold apply_effects.
  induction es as [|e es IH]; intros s; simpl; [auto|].
  destruct (IH (apply_effect s e)) as [-> ->]. apply links_apply_effect.
Qed.

Lemma stt_on_stt {A} (m : js (S := STT.t) A) s :
  deepgramSTT (on_stt m s) = state_of (m (deepgramSTT s)).
Proof.
  unfold on_stt.
  now destruct (links_apply_effects (effects_of (m (deepgramSTT s)))
                  (set_stt (state_of (m (deepgramSTT s))) s)) as [-> _].
Qed.

Lemma stt_on_tts {A} (m : js (S := TTS.t) A) s : deepgramSTT (on_tts m s) = deepgramSTT s.
Proof.
  unfold on_tts.
  now destruct (links_apply_effects (effects_of (m (deepgramTTS s)))
                  (set_tts (state_of (m (deepgramTTS s))) s)) as [-> _].
Qed.

Lemma stt_start_job x s : deepgramSTT (start_job x s) = deepgramSTT s.
Proof. unfold start_job. now rewrite stt_on_tts. Qed.

Lemma stt_queue_next s : deepgramSTT (queue_next s) = deepgramSTT s.
Proof.
  unfold queue_next. destruct (waiting s); [reflexivity|].
  now rewrite stt_start_job.
Qed.

Lemma stt_poll startTime now s : deepgramSTT (poll startTime now s) = deepgramSTT s.
Proof.
  unfold poll. destruct (running s) as [j|]; [|reflexivity].
  destruct (must_wait j startTime now); [reflexivity|].
  unfold finish_job. rewrite deliver_spec, stt_queue_next. reflexivity.
Qed.

(** Only the two listeners that talk to the transcription link change
    it. *)
Lemma stt_step s e :
  deepgramSTT (step s e)
  = match e with
    | WsBinary audio send => state_of (STT.sendAudio audio send (deepgramSTT s))
    | Deepgram e' => state_of (STT.handle e' (deepgramSTT s))
    | _ => deepgramSTT s
    end.
Proof.
  destruct e as [fields|audio send|e'|x|r now|now]; simpl.
  - destruct (is_clear fields); reflexivity.
  - apply stt_on_stt.
  - apply stt_on_stt.
  - unfold queue_add; simpl. destruct (running s); [reflexivity|].
    now rewrite stt_start_job.
  - destruct (running s) as [j|]; [|reflexivity].
    destruct (phase_of j); [|reflexivity].
    set (r' := TTS.synthesize_settled r (deepgramTTS s)).
    set (s1 := apply_effects (effects_of r') (set_tts (state_of r') s)).
    assert (H1 : deepgramSTT s1 = deepgramSTT s)
      by (unfold s1; now destruct (links_apply_effects (effects_of r')
                                     (set_tts (state_of r') s)) as [-> _]).
    destruct (completion_of r') as [[]|err], (running s1) as [j1|];
      try assumption.
    + now rewrite stt_poll.
    + now rewrite stt_queue_next.
  - destruct (running s) as [j|]; [|reflexivity].
    destruct (phase_of j); [reflexivity|]. apply stt_poll.
Qed.

(** The transcription link of a session: the callbacks of [fetch] are
    registered, and connection numbers are fresh. *)
Definition link_ok (s : t) : Prop :=
  registered OnTranscript (Some OnSttError) (deepgramSTT s) /\ STT.wf (deepgramSTT s).

Lemma link_ok_boot tts_test b : link_ok (boot tts_test b).
Proof.
  unfold boot, link_ok. rewrite !stt_on_stt, !stt_on_tts.
  split.
  - apply handle_registered. now split.
  - apply handle_wf, connect_call_wf. constructor.
Qed.

Lemma link_ok_step s e : link_ok s -> link_ok (step s e).
Proof.
  unfold link_ok. rewrite stt_step. intros [Hr Hw].
  destruct e; auto.
  - split; [now apply sendAudio_registered | now apply sendAudio_wf].
  - split; [now apply handle_registered | now apply handle_wf].
Qed.

Lemma link_ok_run events : forall s, link_ok s -> link_ok (run s events).
Proof.
  induction events as [|e events IH]; intros s H; simpl; [exact H|].
  apply IH, link_ok_step, H.
Qed.

End ReachFacts.

(** ** The running queue job *)

Module JobFacts.
Import Eff EffFacts LinkFacts Session SessionFacts QueueFacts SttFacts ReachFacts.

(** The sentence and the phase of the running job. *)
Definition job_view (s : Session.t) : option (string * Session.phase) :=
  option_map (fun j => (Session.sentence j, Session.phase_of j)) (Session.running s).

Lemma apply_effects_job_view es : forall s,
  job_view (Session.apply_effects es s) = job_view s.
Proof.
  unfold Session.apply_effects.
  induction es as [|e es IH]; intros s; simpl; [reflexivity|].
  rewrite IH. unfold job_view.
  destruct e as [op|[f a|f x|f tr fin]|]; simpl; try reflexivity.
  - destruct f; try reflexivity; simpl. now destruct (Session.running s).
  - destruct f; try reflexivity; simpl. now destruct (Session.running s).
  - destruct f; try reflexivity. unfold Session.on_transcript.
    now destruct (fin && JS.truthy (JS.trim tr)).
Qed.

Definition is_settlement (e : Session.event) : bool :=
  match e with Session.SpeakSettled _ _ => true | _ => false end.

(** While the request of the running job has not settled, no turn of the
    event loop moves the job or makes the queue send anything. *)
Lemma awaiting_step s e x :
  job_view s = Some (x, Session.AwaitingSynthesize) ->
  is_settlement e = false ->
  job_view (Session.step s e) = Some (x, Session.AwaitingSynthesize) /\
  queue_messages (Session.step s e) = queue_messages s.
Proof.
  intros Hjob He.
  destruct e as [fields|audio send|e'|sentence|r now|now]; try discriminate.
  - simpl. now destruct (Session.is_clear fields).
  - simpl. unfold Session.on_stt. rewrite apply_effects_job_view. split; [exact Hjob|].
    pose proof (apply_effects_queue_view
                  (effects_of (STT.sendAudio audio send (Session.deepgramSTT s)))
                  (Session.set_stt (state_of (STT.sendAudio audio send (Session.deepgramSTT s))) s)) as H.
    now injection H.
  - simpl. unfold Session.on_stt. rewrite apply_effects_job_view. split; [exact Hjob|].
    pose proof (apply_effects_queue_view
                  (effects_of (STT.handle e' (Session.deepgramSTT s)))
                  (Session.set_stt (state_of (STT.handle e' (Session.deepgramSTT s))) s)) as H.
    now injection H.
  - simpl. unfold Session.queue_add; simpl. unfold job_view in Hjob.
    destruct (Session.running s) as [j|] eqn:E; [|discriminate].
    split; [|reflexivity]. unfold job_view; simpl. now rewrite E.
  - simpl. unfold job_view in Hjob.
    destruct (Session.running s) as [j|] eqn:E; [|discriminate].
    simpl in Hjob. injection Hjob as Hx Hphase. rewrite Hphase.
    split; [|reflexivity]. unfold job_view. rewrite E. simpl.
    now rewrite Hphase, Hx.
Qed.

(** How the request of [synthesize] ends, inside its [try]. *)
Definition attempt (r : TTS.speak_outcome) : completion (option string) :=
  match r with
  | TTS.Rejected e => Thrown e
  | TTS.Resolved v => TTS.decoded (TTS.actualResult v)
  end.

(** [synthesize] never throws and changes no field: it calls at most one of
    the two callbacks of the link. *)
Lemma synthesize_settled_spec r s :
  TTS.synthesize_settled r s
  = (Normal tt, s,
     match attempt r with
     | Normal audioBase64 =>
         match TTS.usable audioBase64, TTS.onAudioCallback s with
         | Some a, Some f => [Call (CallAudio f a)]
         | _, _ => []
         end
     | Thrown error =>
         match TTS.onErrorCallback s with
         | Some f => [Call (CallError f error)]
         | None => []
         end
     end).
Proof.
  unfold TTS.synthesize_settled, attempt, try_catch, bind, lift, get, throw,
    call_if_set, emit, ret.
  destruct r as [v|e].
  - destruct (TTS.decoded (TTS.actualResult v)) as [a|e].
    + destruct (TTS.usable a), (TTS.onAudioCallback s); reflexivity.
    + destruct (TTS.onErrorCallback s); reflexivity.
  - destruct (TTS.onErrorCallback s); reflexivity.
Qed.

(** Effects that leave the locals of the running job alone. *)
Definition spares_job (e : effect) : Prop :=
  match e with
  | Call (CallAudio f _) => f <> CaptureAudio
  | Call (CallError f _) => f <> CaptureError
  | _ => True
  end.

Lemma apply_effects_spares_job es : forall s,
  Forall spares_job es ->
  running (apply_effects es s) = running s /\
  deepgramTTS (apply_effects es s) = deepgramTTS s.
Proof.
  unfold apply_effects.
  induction es as [|e es IH]; intros s H; simpl; [now split|].
  inversion H as [|? ? He Hes]; subst.
  destruct (IH (apply_effect s e) Hes) as [-> ->].
  destruct e as [op|[f a|f x|f tr fin]|]; simpl in *; try (now split).
  - destruct f; try (now split); congruence.
  - destruct f; try (now split); congruence.
  - destruct f; try (now split). unfold on_transcript.
    now destruct (fin && JS.truthy (JS.trim tr)).
Qed.

(** The transcription link of a session reports errors to the logger of
    [fetch], never to the closures of a job. *)
Definition to_logger (e : effect) : Prop :=
  match e with
  | Call (CallAudio _ _) => False
  | Call (CallError f _) => f = OnSttError
  | _ => True
  end.

Lemma to_logger_spares e : to_logger e -> spares_job e.
Proof.
  destruct e as [op|[f a|f x|f tr fin]|]; simpl; try tauto.
  intros ->. discriminate.
Qed.

Definition logged cb : STT.t -> Prop := registered cb (Some OnSttError).

#[local] Hint Extern 1 (to_logger _) => exact I : emits.

Lemma connect_call_to_logger cb ecb k :
  EmitsFrom (logged cb) to_logger (STT.connect_call cb ecb k).
Proof.
  apply emitsfrom_of_emits. unfold STT.connect_call.
  auto 8 with emits.
Qed.

Lemma sendAudio_to_logger cb audio send :
  EmitsFrom (logged cb) to_logger (STT.sendAudio audio send).
Proof.
  unfold STT.sendAudio. apply emitsfrom_get_bind. intros s0 [Hcb Hecb].
  destruct (STT.not_connected s0).
  - apply emitsfrom_of_emits.
    apply emits_bind; [now apply emits_emit|]. intros _.
    destruct (STT.onTranscriptCallback s0); [|apply emits_ret].
    apply emits_when, emits_bind; [apply emits_modify|]. intros _.
    unfold STT.connect_call.
    auto 8 with emits.
  - destruct (STT.connection s0); [|apply emitsfrom_of_emits, emits_ret].
    apply emitsfrom_try_catch.
    + apply emitsfrom_of_emits, emits_sdk. exact I.
    + apply keeps_sdk.
    + intros error. apply emitsfrom_get_bind. intros s1 [_ Hecb1].
      rewrite Hecb1. apply emitsfrom_of_emits, emits_emit. reflexivity.
Qed.

Lemma resume_to_logger cb k connected send :
  EmitsFrom (logged cb) to_logger (STT.resume k connected send).
Proof.
  destruct k; simpl; try (apply emitsfrom_of_emits, emits_ret).
  apply emitsfrom_bind.
  - apply emitsfrom_of_emits, emits_modify.
  - apply keeps_modify. now intros s [? ?].
  - intros _. destruct connected; simpl;
      [apply sendAudio_to_logger | apply emitsfrom_of_emits, emits_ret].
Qed.

Lemma connect_failed_to_logger cb k e :
  EmitsFrom (logged cb) to_logger (STT.connect_failed k e).
Proof.
  unfold STT.connect_failed. apply emitsfrom_get_bind. intros s0 [_ Hecb].
  rewrite Hecb. simpl call_if_set. apply emitsfrom_bind.
  - apply emitsfrom_of_emits, emits_emit. reflexivity.
  - apply keeps_emit.
  - intros _. apply resume_to_logger.
Qed.

Lemma handle_to_logger cb e : EmitsFrom (logged cb) to_logger (STT.handle e).
Proof.
  unfold STT.handle. apply emitsfrom_get_bind. intros s0 [Hcb Hecb].
  destruct e as [c send|c msg|c|c data|c|c|].
  - destruct (STT.take c (STT.opening s0)) as [[k|] rest];
      [|apply emitsfrom_of_emits, emits_ret].
    apply emitsfrom_bind;
      [apply emitsfrom_of_emits, emits_modify
      | apply keeps_modify; now intros s [? ?] |]. intros _.
    apply emitsfrom_bind;
      [apply emitsfrom_of_emits, emits_modify
      | apply keeps_modify; now intros s [? ?] |]. intros _.
    apply resume_to_logger.
  - destruct (c <? STT.fresh s0); simpl; [|apply emitsfrom_of_emits, emits_ret].
    rewrite Hecb. simpl call_if_set.
    destruct (STT.take c (STT.opening s0)) as [[k|] rest].
    + apply emitsfrom_bind;
        [apply emitsfrom_of_emits, emits_modify
        | apply keeps_modify; now intros s [? ?] |]. intros _.
      apply emitsfrom_bind;
        [apply emitsfrom_of_emits, emits_emit; reflexivity
        | apply keeps_emit |]. intros _.
      apply connect_failed_to_logger.
    + apply emitsfrom_of_emits, emits_emit. reflexivity.
  - destruct (STT.take c (STT.opening s0)) as [[k|] rest];
      [|apply emitsfrom_of_emits, emits_ret].
    apply emitsfrom_bind;
      [apply emitsfrom_of_emits, emits_modify
      | apply keeps_modify; now intros s [? ?] |]. intros _.
    apply connect_failed_to_logger.
  - apply emitsfrom_of_emits, emits_when. rewrite Hcb.
    apply emits_when, emits_emit. exact I.
  - apply emitsfrom_of_emits, emits_when. auto 8 with emits.
  - apply emitsfrom_of_emits, emits_ret.
  - destruct (STT.timers s0); [apply emitsfrom_of_emits, emits_ret|].
    apply emitsfrom_of_emits, emits_bind; [apply emits_modify|]. intros _.
    rewrite Hcb. unfold STT.connect_call.
    auto 8 with emits.
Qed.

(** While a job runs, the callbacks of the synthesis link are its two
    capturing closures, it holds the callbacks of [fetch] to restore, and
    neither of its results is set; between jobs the callbacks of [fetch]
    are in place. *)
Definition job_ok (s : t) : Prop :=
  match running s with
  | None =>
      TTS.onAudioCallback (deepgramTTS s) = Some OnTtsAudio /\
      TTS.onErrorCallback (deepgramTTS s) = Some OnTtsError
  | Some j =>
      TTS.onAudioCallback (deepgramTTS s) = Some CaptureAudio /\
      TTS.onErrorCallback (deepgramTTS s) = Some CaptureError /\
      originalCallback j = Some OnTtsAudio /\
      originalErrorCallback j = Some OnTtsError /\
      TTS.usable (audioResult j) = None /\
      errorResult j = None
  end.

Definition restored (s : t) : Prop :=
  TTS.onAudioCallback (deepgramTTS s) = Some OnTtsAudio /\
  TTS.onErrorCallback (deepgramTTS s) = Some OnTtsError.

Lemma job_ok_same s s' :
  running s' = running s -> deepgramTTS s' = deepgramTTS s -> job_ok s -> job_ok s'.
Proof. unfold job_ok. now intros -> ->. Qed.

Lemma job_ok_start_job x s : restored s -> job_ok (start_job x s).
Proof. intros [Ha He]. unfold job_ok; simpl. now rewrite Ha, He. Qed.

Lemma job_ok_queue_next s : restored s -> job_ok (queue_next s).
Proof.
  intros H. unfold queue_next. destruct (waiting s) as [|next rest].
  - exact H.
  - now apply job_ok_start_job.
Qed.

Lemma job_ok_finish_job j s :
  originalCallback j = Some OnTtsAudio ->
  originalErrorCallback j = Some OnTtsError ->
  job_ok (finish_job j s).
Proof.
  intros Ha He. unfold finish_job. rewrite deliver_spec.
  apply job_ok_queue_next. split; assumption.
Qed.

Lemma usable_idempotent a x : TTS.usable a = Some x -> TTS.usable (Some x) = Some x.
Proof.
  unfold TTS.usable. destruct a as [y|]; [|discriminate].
  destruct (JS.truthy y) eqn:E; [|discriminate]. intros [= <-]. now rewrite E.
Qed.

(** The state after the request of the running job has settled, before
    the loop test. *)
Definition settled (r : TTS.speak_outcome) (j : job) : job :=
  match attempt r with
  | Thrown error => set_errorResult (Some error) j
  | Normal audioBase64 =>
      match TTS.usable audioBase64 with
      | Some a => set_audioResult (Some a) j
      | None => j
      end
  end.

Lemma speak_settled_spec s j r now :
  job_ok s -> running s = Some j -> phase_of j = AwaitingSynthesize ->
  exists s1,
    step s (SpeakSettled r now) = poll now now s1 /\
    running s1 = Some (settled r j) /\
    deepgramTTS s1 = deepgramTTS s /\ deepgramSTT s1 = deepgramSTT s /\
    queue_view s1 = queue_view s.
Proof.
  intros Hok Hrun Hphase. unfold job_ok in Hok. rewrite Hrun in Hok.
  destruct Hok as (Ha & He & _).
  simpl. rewrite Hrun, Hphase, synthesize_settled_spec.
  cbn [effects_of state_of completion_of fst snd]. rewrite Ha, He.
  unfold settled.
  destruct (attempt r) as [a|error].
  - destruct (TTS.usable a) as [x|]; simpl.
    + rewrite Hrun. simpl. eexists; split; [reflexivity|].
      repeat split. unfold queue_view; simpl. now rewrite Hrun.
    + rewrite Hrun. eexists; split; [reflexivity|].
      repeat split; simpl; try exact Hrun.
  - simpl. rewrite Hrun. simpl. eexists; split; [reflexivity|].
    repeat split. unfold queue_view; simpl. now rewrite Hrun.
Qed.

Lemma job_ok_poll startTime now s j :
  running s = Some j ->
  TTS.onAudioCallback (deepgramTTS s) = Some CaptureAudio ->
  TTS.onErrorCallback (deepgramTTS s) = Some CaptureError ->
  originalCallback j = Some OnTtsAudio ->
  originalErrorCallback j = Some OnTtsError ->
  job_ok (poll startTime now s).
Proof.
  intros Hrun Ha He Hoa Hoe. unfold poll. rewrite Hrun.
  destruct (must_wait j startTime now) eqn:Hwait.
  - unfold job_ok; simpl. unfold must_wait in Hwait.
    apply andb_prop in Hwait as [Hwait _].
    apply andb_prop in Hwait as [Haudio Herror].
    repeat split; try assumption.
    + now destruct (TTS.usable (audioResult j)).
    + now destruct (errorResult j).
  - now apply job_ok_finish_job.
Qed.

Lemma job_ok_step s e : link_ok s -> job_ok s -> job_ok (step s e).
Proof.
  intros [Hlog _] Hok.
  destruct e as [fields|audio send|e'|x|r now|now].
  - simpl. now destruct (is_clear fields).
  - simpl. unfold on_stt.
    destruct (apply_effects_spares_job
                (effects_of (STT.sendAudio audio send (deepgramSTT s)))
                (set_stt (state_of (STT.sendAudio audio send (deepgramSTT s))) s))
      as [Hr Ht].
    { eapply Forall_impl; [apply to_logger_spares|].
      now apply (sendAudio_to_logger OnTranscript). }
    now apply job_ok_same with s.
  - simpl. unfold on_stt.
    destruct (apply_effects_spares_job
                (effects_of (STT.handle e' (deepgramSTT s)))
                (set_stt (state_of (STT.handle e' (deepgramSTT s))) s))
      as [Hr Ht].
    { eapply Forall_impl; [apply to_logger_spares|].
      now apply (handle_to_logger OnTranscript). }
    now apply job_ok_same with s.
  - simpl. unfold queue_add; simpl. unfold job_ok in Hok.
    destruct (running s) as [j|] eqn:E.
    + unfold job_ok; simpl. now rewrite E.
    + now apply job_ok_start_job.
  - destruct (running s) as [j|] eqn:E; [|simpl; now rewrite E].
    destruct (phase_of j) eqn:Hphase; [|simpl; now rewrite E, Hphase].
    destruct (speak_settled_spec s j r now Hok E Hphase)
      as (s1 & -> & Hrun1 & Htts1 & _).
    unfold job_ok in Hok. rewrite E in Hok.
    destruct Hok as (Ha & He & Hoa & Hoe & _).
    apply job_ok_poll with (settled r j); rewrite ?Htts1; try assumption.
    + unfold settled. destruct (attempt r) as [a|error]; [|exact Hoa].
      now destruct (TTS.usable a).
    + unfold settled. destruct (attempt r) as [a|error]; [|exact Hoe].
      now destruct (TTS.usable a).
  - destruct (running s) as [j|] eqn:E; [|simpl; now rewrite E].
    destruct (phase_of j) eqn:Hphase; [simpl; now rewrite E, Hphase|].
    simpl. rewrite E, Hphase.
    unfold job_ok in Hok. rewrite E in Hok.
    destruct Hok as (Ha & He & Hoa & Hoe & _).
    now apply job_ok_poll with j.
Qed.

Lemma job_ok_boot tts_test b : job_ok (boot tts_test b).
Proof.
  unfold boot, on_stt.
  set (s2 := on_tts (TTS.connect_settled tts_test)
               (on_tts (TTS.connect_call OnTtsAudio (Some OnTtsError)) create)).
  assert (H2 : job_ok s2) by (unfold s2; destruct tts_test; simpl; now split).
  set (m3 := STT.connect_call OnTranscript (Some OnSttError) STT.KBoot).
  set (s3 := apply_effects (effects_of (m3 (deepgramSTT s2)))
               (set_stt (state_of (m3 (deepgramSTT s2))) s2)).
  assert (H3 : job_ok s3) by (unfold s3; simpl; exact H2).
  set (m4 := STT.handle (boot_event b)).
  destruct (apply_effects_spares_job (effects_of (m4 (deepgramSTT s3)))
              (set_stt (state_of (m4 (deepgramSTT s3))) s3)) as [Hr Ht].
  { eapply Forall_impl; [apply to_logger_spares|].
    apply (handle_to_logger OnTranscript). now split. }
  now apply job_ok_same with s3.
Qed.

Lemma job_ok_run events : forall s, link_ok s -> job_ok s -> job_ok (run s events).
Proof.
  induction events as [|e events IH]; intros s Hl Hj; simpl; [exact Hj|].
  apply IH; [now apply link_ok_step | now apply job_ok_step].
Qed.

(** *** What a settled request leads to *)

(** When the request of the running job settles, the job sends its one
    message at once if a callback was called (the audio message, or the
    fall-back for an error), and starts polling otherwise. *)
Lemma settled_request_is_answered tts_test b events j r now :
  let s := run (boot tts_test b) events in
  running s = Some j -> phase_of j = AwaitingSynthesize ->
  let s' := step s (SpeakSettled r now) in
  match attempt r with
  | Thrown _ =>
      queue_view s' = advance (queue_view s) (Text ("[TTS Error] " ++ sentence j))
  | Normal audioBase64 =>
      match TTS.usable audioBase64 with
      | Some audio =>
          queue_view s' = advance (queue_view s) (Audio (sentence j) audio)
      | None =>
          queue_view s' = queue_view s /\
          job_view s' = Some (sentence j, Polling now)
      end
  end.
Proof.
  intros s Hrun Hphase s'.
  assert (Hok : job_ok s)
    by (apply job_ok_run; [apply link_ok_boot | apply job_ok_boot]).
  destruct (speak_settled_spec s j r now Hok Hrun Hphase)
    as (s1 & Hstep & Hrun1 & _ & _ & Hview).
  unfold s'. rewrite Hstep. unfold poll. rewrite Hrun1.
  unfold job_ok in Hok. rewrite Hrun in Hok.
  destruct Hok as (_ & _ & _ & _ & Hno_audio & Hno_error).
  unfold settled, must_wait in *.
  destruct (attempt r) as [a|error].
  - destruct (TTS.usable a) as [x|] eqn:Hx.
    + cbn [audioResult errorResult set_audioResult].
      rewrite (usable_idempotent _ _ Hx), Hno_error. cbn [negb andb].
      rewrite queue_view_finish_job, Hview. unfold outcome_message.
      cbn [audioResult errorResult set_audioResult sentence].
      now rewrite Hno_error, (usable_idempotent _ _ Hx).
    + rewrite Hno_audio, Hno_error, N.sub_diag. cbn [negb andb].
      change (0 <? timeout)%N with true. cbn iota. split.
      * unfold queue_view in *; simpl. rewrite Hrun1 in Hview. exact Hview.
      * reflexivity.
  - cbn [audioResult errorResult set_errorResult].
    rewrite Hno_audio. cbn [negb andb]. cbn iota.
    rewrite queue_view_finish_job, Hview. reflexivity.
Qed.

(** A polling job waits while the clock is within ten seconds of its
    start, and sends the fall-back at the first wake-up after that. *)
Lemma polling_job_times_out tts_test b events j startTime now :
  let s := run (boot tts_test b) events in
  running s = Some j -> phase_of j = Polling startTime ->
  let s' := step s (PollWake now) in
  if (now - startTime <? timeout)%N
  then queue_view s' = queue_view s /\
       job_view s' = Some (sentence j, Polling startTime)
  else queue_view s' = advance (queue_view s) (Text ("[TTS Error] " ++ sentence j)).
Proof.
  intros s Hrun Hphase s'.
  assert (Hok : job_ok s)
    by (apply job_ok_run; [apply link_ok_boot | apply job_ok_boot]).
  unfold job_ok in Hok. rewrite Hrun in Hok.
  destruct Hok as (_ & _ & _ & _ & Hno_audio & Hno_error).
  unfold s'. simpl. rewrite Hrun, Hphase. unfold poll. rewrite Hrun.
  unfold must_wait. rewrite Hno_audio, Hno_error. cbn [negb andb].
  destruct (now - startTime <? timeout)%N.
  - split.
    + unfold queue_view; simpl. now rewrite Hrun.
    + reflexivity.
  - rewrite queue_view_finish_job. unfold outcome_message.
    now rewrite Hno_error, Hno_audio.
Qed.

End JobFacts.

(** * The claims of the specification *)

Import Eff EffFacts LinkFacts SessionFacts QueueFacts TalkFacts SttFacts ReachFacts
  JobFacts.

(** ** Sample inputs *)

(** A request that resolves to three bytes of audio. *)
Definition speech : TTS.speak_outcome :=
  TTS.Resolved (TTS.Wrapper (TTS.ArrayBuffer [Byte.x52; Byte.x49; Byte.x46])).

(** The payload of a [Transcript] event that carries [text], interim or
    final. *)
Definition heard_so_far (text : string) (final : bool)
  : option STT.transcript_data :=
  Some {| STT.channel :=
            Some {| STT.alternatives :=
                      Some [{| STT.transcript := Some text |}] |};
          STT.is_final := Some final |}.

(** The clear command of the client. *)
Definition clear : Session.event := Session.WsText (Some (Some "cmd", Some "clear")).

(** Two units, both synthesized. *)
Definition two_units : list Session.event :=
  [Session.SentenceUnit "One."; Session.SentenceUnit "Two.";
   Session.SpeakSettled speech 300; Session.SpeakSettled speech 350].

(** A sentence is heard, word after word, and answered. *)
Definition one_exchange : list Session.event :=
  [Session.Deepgram (STT.Transcript 0 (heard_so_far "What is" false));
   Session.Deepgram (STT.Transcript 0 (heard_so_far "What is Rocq?" true));
   Session.SentenceUnit "A proof assistant."].

(** A reply is still being streamed when the user clears the history:
    its next sentence lands in the cleared history. *)
Definition reply_in_flight : list Session.event :=
  [Session.Deepgram (STT.Transcript 0 (heard_so_far "Tell me a story." true));
   Session.SentenceUnit "Once upon a time."].

(** A unit is submitted; its request never settles, while a second unit
    arrives and the clock passes the ten seconds of the time-out. *)
Definition hung_request : list Session.event :=
  [Session.SentenceUnit "And then?"; Session.PollWake 10000; Session.PollWake 60000].

(** The link just after its connection has closed. *)
Definition just_closed : STT.t := state_of (STT.handle (STT.Close 0) STT.booted).

(** The link has lost its connection and a first chunk of audio has
    started the reconnection. *)
Definition reconnecting : STT.t :=
  state_of (STT.sendAudio [Byte.x01] None just_closed).

Lemma Forall2_nth_error_l {A B} (P : A -> B -> Prop) l1 l2 :
  Forall2 P l1 l2 -> forall n a, nth_error l1 n = Some a ->
  exists b, nth_error l2 n = Some b /\ P a b.
Proof.
  induction 1 as [|a b l1 l2 Hab H IH]; intros [|n] a' Hn; simpl in *;
    try discriminate.
  - injection Hn as <-. eauto.
  - eauto.
Qed.

(** The messages of the queue are those of a prefix of the submitted
    units, in order. *)
Lemma delivered_prefix tts_test b events :
  let s := Session.run (Session.boot tts_test b) events in
  exists delivered,
    submissions events = delivered ++ pending s /\
    Forall2 message_for delivered (queue_messages s).
Proof.
  intros s.
  assert (H : in_order (queue_view (Session.boot tts_test b)) []).
  { rewrite queue_view_boot. split; [reflexivity|]. exists []. now split. }
  apply run_in_order with (events := events) in H.
  destruct H as [_ (delivered & Hsub & Hmsgs)]. exists delivered. now split.
Qed.

(** C1. Ordered Synthesis Queue: whatever the events of a session and the
    moments its synthesis requests settle, the messages the queue has sent
    are, one for one and in the same order, those of the first units
    submitted; so when the message of the unit submitted at position [j]
    has been sent, the message of every unit submitted earlier, at a
    position [i < j], has been sent before it. *)
Theorem queue_emits_in_submission_order :
  forall tts_test b events i j u1 u2 m2,
    let s := Session.run (Session.boot tts_test b) events in
    i < j ->
    nth_error (submissions events) i = Some u1 ->
    nth_error (submissions events) j = Some u2 ->
    nth_error (queue_messages s) j = Some m2 ->
    message_for u2 m2 /\
    exists m1, nth_error (queue_messages s) i = Some m1 /\ message_for u1 m1.
Proof.
  intros tts_test b events i j u1 u2 m2 s Hij Hu1 Hu2 Hm2.
  destruct (delivered_prefix tts_test b events) as (delivered & Hsub & Hmsgs).
  fold s in Hsub, Hmsgs.
  destruct (Forall2_nth_error _ _ _ Hmsgs j m2 Hm2) as (u & Hu & Hfor).
  assert (Hj : j < length delivered) by (apply nth_error_Some; congruence).
  rewrite Hsub in Hu1, Hu2.
  rewrite nth_error_app1 in Hu1, Hu2 by lia.
  split; [congruence|].
  destruct (Forall2_nth_error_l _ _ _ Hmsgs i u1 Hu1) as (m1 & Hm1 & Hfor1).
  eauto.
Qed.

Lemma queue_emits_in_submission_order_witness :
  0 < 1 /\
  nth_error (submissions two_units) 0 = Some "One." /\
  nth_error (submissions two_units) 1 = Some "Two." /\
  nth_error (queue_messages
               (Session.run (Session.boot speech Session.SttOpened) two_units)) 1
  = Some (Session.Audio "Two." "UklG") /\
  message_for "Two." (Session.Audio "Two." "UklG") /\
  exists m1,
    nth_error (queue_messages
                 (Session.run (Session.boot speech Session.SttOpened) two_units)) 0
    = Some m1 /\
    message_for "One." m1.
Proof.
  split; [lia|]. split; [reflexivity|]. split; [reflexivity|].
  split; [reflexivity|].
  apply (queue_emits_in_submission_order speech Session.SttOpened two_units
           0 1 "One." "Two." (Session.Audio "Two." "UklG"));
    [lia | reflexivity | reflexivity | reflexivity].
Defined.

(** C7. The assistant turn of a sentence unit is appended when the unit is
    produced, while its job is still in the queue and has sent nothing; and
    no later turn of the job -- the request settling with audio or with an
    error, the polling loop waking, timing out -- changes the history. *)
Theorem assistant_turn_precedes_synthesis :
  (forall s sentence,
      let s' := Session.step s (Session.SentenceUnit sentence) in
      Session.msgHistory s'
      = Session.msgHistory s
        ++ [{| Session.role_of := Session.assistant;
               Session.content := sentence |}] /\
      queue_messages s' = queue_messages s /\
      In sentence (pending s')) /\
  (forall s r now,
      Session.msgHistory (Session.step s (Session.SpeakSettled r now))
      = Session.msgHistory s) /\
  (forall s now,
      Session.msgHistory (Session.step s (Session.PollWake now))
      = Session.msgHistory s).
Proof.
  split; [|split].
  - intros s sentence s'. unfold s'. split; [|split].
    + now rewrite step_history.
    + pose proof (step_queue_view s (Session.SentenceUnit sentence)) as H.
      simpl in H. unfold queue_messages at 1.
      change (filter synthesized (Session.sent (Session.step s (Session.SentenceUnit sentence))))
        with (snd (queue_view (Session.step s (Session.SentenceUnit sentence)))).
      simpl Session.step. rewrite H. unfold added.
      destruct (fst (fst (queue_view s))); reflexivity.
    + unfold pending.
      pose proof (step_queue_view s (Session.SentenceUnit sentence)) as H.
      simpl in H. simpl Session.step. rewrite H. unfold added, pending_of.
      destruct (fst (fst (queue_view s))); simpl; [right|left; reflexivity].
      apply in_or_app. right. now left.
  - intros s r now. now apply history_job_turn.
  - intros s now. now apply history_job_turn.
Qed.

Lemma talk_view_boot tts_test b :
  talk_view (Session.boot tts_test b) = ([], [], []).
Proof.
  unfold Session.boot.
  rewrite on_stt_quiet by (apply handle_quiet; now destruct b).
  rewrite on_stt_quiet by apply connect_call_quiet.
  rewrite !on_tts_quiet; [reflexivity| |].
  - unfold TTS.connect_call. auto with emits.
  - unfold TTS.connect_settled. destruct tts_test; auto 8 with emits.
Qed.

(** C6. An interim transcript changes neither the history nor the list of
    inference calls; a turn of the event loop that starts an inference is a
    final transcript, whose user turn it appends first; and in every
    history a session can reach, a user turn is the text of a final
    transcript event and an assistant turn is a sentence unit handed over by
    the Sentence Buffer. *)
Theorem history_grows_on_final_transcripts_and_units_only :
  (forall s c data,
      STT.extract_is_final data = false ->
      let s' := Session.step s (Session.Deepgram (STT.Transcript c data)) in
      Session.msgHistory s' = Session.msgHistory s /\
      Session.inferences s' = Session.inferences s) /\
  (forall s e,
      Session.inferences (Session.step s e) <> Session.inferences s ->
      exists c data,
        e = Session.Deepgram (STT.Transcript c data) /\
        STT.extract_is_final data = true /\
        Session.msgHistory (Session.step s e)
        = Session.msgHistory s
          ++ [{| Session.role_of := Session.user;
                 Session.content := STT.extract_transcript data |}] /\
        Session.inferences (Session.step s e)
        = Session.inferences s ++ [Session.msgHistory (Session.step s e)]) /\
  (forall tts_test b events x,
      In x (Session.msgHistory (Session.run (Session.boot tts_test b) events)) ->
      match Session.role_of x with
      | Session.user =>
          exists c data,
            In (Session.Deepgram (STT.Transcript c data)) events /\
            STT.extract_is_final data = true /\
            STT.extract_transcript data = Session.content x
      | Session.assistant =>
          In (Session.SentenceUnit (Session.content x)) events
      end).
Proof.
  split; [|split].
  - intros s c data Hfin s'. unfold s'.
    rewrite step_history, step_inferences. simpl appended.
    unfold user_turn. rewrite Hfin. simpl.
    destruct (heard s c data); simpl; now rewrite !app_nil_r.
  - intros s e Hne. rewrite step_inferences in Hne.
    destruct e as [ | |[ | | |c data| | | ]| | | ];
      try (rewrite app_nil_r in Hne; congruence).
    exists c, data. rewrite step_history, step_inferences.
    simpl appended in *. unfold user_turn in *.
    destruct (heard s c data); [|simpl in Hne; rewrite app_nil_r in Hne; congruence].
    destruct (STT.extract_is_final data); simpl in *;
      [|rewrite app_nil_r in Hne; congruence].
    destruct (JS.truthy (JS.trim (STT.extract_transcript data))); simpl in *;
      [|rewrite app_nil_r in Hne; congruence].
    auto.
  - intros tts_test b events.
    assert (Hboot : Session.msgHistory (Session.boot tts_test b) = [])
      by (pose proof (talk_view_boot tts_test b) as Hv; now injection Hv).
    generalize (Session.boot tts_test b) Hboot. clear Hboot.
    induction events as [|e events IH] using rev_ind; intros s0 H0 x Hx.
    + simpl in Hx. rewrite H0 in Hx. destruct Hx.
    + unfold Session.run in *. rewrite fold_left_app in Hx. simpl in Hx.
      rewrite step_history in Hx.
      assert (Hold : In x (Session.msgHistory (fold_left Session.step events s0)) ->
                     match Session.role_of x with
                     | Session.user =>
                         exists c data,
                           In (Session.Deepgram (STT.Transcript c data)) (events ++ [e]) /\
                           STT.extract_is_final data = true /\
                           STT.extract_transcript data = Session.content x
                     | Session.assistant =>
                         In (Session.SentenceUnit (Session.content x)) (events ++ [e])
                     end).
      { intros Hin. specialize (IH s0 H0 x Hin).
        destruct (Session.role_of x).
        - destruct IH as (c & data & Hc & Hf & Ht). exists c, data.
          split; [apply in_or_app; now left | now split].
        - apply in_or_app; now left. }
      set (s := fold_left Session.step events s0) in *.
      destruct e as [fields|audio send|e'|sentence|r now|now];
        try (simpl appended in Hx; rewrite app_nil_r in Hx; now apply Hold).
      * destruct (Session.is_clear fields); [destruct Hx | now apply Hold].
      * apply in_app_or in Hx. destruct Hx as [Hx|Hx]; [now apply Hold|].
        destruct e' as [ | | |c data| | | ]; try (simpl in Hx; tauto).
        simpl appended in Hx. unfold user_turn in Hx.
        destruct (heard s c data); [|destruct Hx].
        destruct (STT.extract_is_final data) eqn:Hf; [|destruct Hx].
        destruct (JS.truthy (JS.trim (STT.extract_transcript data)));
          [|destruct Hx].
        destruct Hx as [<-|[]]. simpl. exists c, data.
        split; [apply in_or_app; right; now left | now split].
      * apply in_app_or in Hx. destruct Hx as [Hx|Hx]; [now apply Hold|].
        destruct Hx as [<-|[]]. simpl. apply in_or_app; right; now left.
Qed.

Lemma history_grows_on_final_transcripts_and_units_only_witness :
  (STT.extract_is_final (heard_so_far "What is" false) = false /\
   Session.msgHistory
     (Session.step (Session.boot speech Session.SttOpened)
        (Session.Deepgram (STT.Transcript 0 (heard_so_far "What is" false))))
   = Session.msgHistory (Session.boot speech Session.SttOpened)) /\
  (Session.inferences
     (Session.step (Session.boot speech Session.SttOpened)
        (Session.Deepgram (STT.Transcript 0 (heard_so_far "What is Rocq?" true))))
   <> Session.inferences (Session.boot speech Session.SttOpened) /\
   exists c data,
     Session.Deepgram (STT.Transcript 0 (heard_so_far "What is Rocq?" true))
     = Session.Deepgram (STT.Transcript c data) /\
     STT.extract_is_final data = true) /\
  (In {| Session.role_of := Session.user; Session.content := "What is Rocq?" |}
      (Session.msgHistory
         (Session.run (Session.boot speech Session.SttOpened) one_exchange)) /\
   exists c data,
     In (Session.Deepgram (STT.Transcript c data)) one_exchange /\
     STT.extract_is_final data = true /\
     STT.extract_transcript data = "What is Rocq?").
Proof.
  split; [|split].
  - split; [reflexivity|].
    apply (proj1 history_grows_on_final_transcripts_and_units_only
             (Session.boot speech Session.SttOpened) 0
             (heard_so_far "What is" false)).
    reflexivity.
  - assert (Hne : Session.inferences
                    (Session.step (Session.boot speech Session.SttOpened)
                       (Session.Deepgram
                          (STT.Transcript 0 (heard_so_far "What is Rocq?" true))))
                  <> Session.inferences (Session.boot speech Session.SttOpened))
      by (simpl; discriminate).
    split; [exact Hne|].
    destruct (proj1 (proj2 history_grows_on_final_transcripts_and_units_only)
                (Session.boot speech Session.SttOpened)
                (Session.Deepgram
                   (STT.Transcript 0 (heard_so_far "What is Rocq?" true)))
                Hne) as (c & data & He & Hfin & _).
    exists c, data. split; assumption.
  - assert (Hin : In {| Session.role_of := Session.user;
                        Session.content := "What is Rocq?" |}
                     (Session.msgHistory
                        (Session.run (Session.boot speech Session.SttOpened)
                           one_exchange)))
      by (simpl; now left).
    split; [exact Hin|].
    exact (proj2 (proj2 history_grows_on_final_transcripts_and_units_only)
             speech Session.SttOpened one_exchange _ Hin).
Defined.

Lemma truthy_trim (text : string) :
  JS.truthy (JS.trim text) = true -> JS.truthy text = true.
Proof. destruct text; [discriminate | reflexivity]. Qed.

(** C10. A transcription event whose extracted text is empty does nothing:
    the link calls no callback and the session is left exactly as it was
    (no outbound message, no turn, no inference); and a final transcript
    that is empty or white space only once trimmed appends no turn and
    starts no inference. *)
Theorem empty_transcripts_are_filtered :
  (forall s c data,
      STT.extract_transcript data = "" ->
      effects_of (STT.handle (STT.Transcript c data) (Session.deepgramSTT s)) = [] /\
      Session.step s (Session.Deepgram (STT.Transcript c data)) = s) /\
  (forall s c data,
      STT.extract_is_final data = true ->
      JS.trim (STT.extract_transcript data) = "" ->
      let s' := Session.step s (Session.Deepgram (STT.Transcript c data)) in
      Session.msgHistory s' = Session.msgHistory s /\
      Session.inferences s' = Session.inferences s).
Proof.
  split.
  - intros s c data Hempty. simpl. unfold Session.on_stt.
    rewrite handle_transcript. unfold transcript_calls. rewrite Hempty.
    unfold effects_of, state_of; simpl.
    destruct (c <? STT.fresh (Session.deepgramSTT s));
      destruct (STT.onTranscriptCallback (Session.deepgramSTT s));
      split; try reflexivity; now destruct s.
  - intros s c data _ Hblank s'. unfold s'.
    rewrite step_history, step_inferences. simpl appended.
    unfold user_turn. rewrite Hblank. rewrite andb_false_r.
    destruct (heard s c data); simpl; now rewrite !app_nil_r.
Qed.

Lemma empty_transcripts_are_filtered_witness :
  (STT.extract_transcript (heard_so_far "" true) = "" /\
   Session.step (Session.boot speech Session.SttOpened)
     (Session.Deepgram (STT.Transcript 0 (heard_so_far "" true)))
   = Session.boot speech Session.SttOpened) /\
  (STT.extract_is_final (heard_so_far "   " true) = true /\
   JS.trim (STT.extract_transcript (heard_so_far "   " true)) = "" /\
   Session.msgHistory
     (Session.step (Session.boot speech Session.SttOpened)
        (Session.Deepgram (STT.Transcript 0 (heard_so_far "   " true))))
   = Session.msgHistory (Session.boot speech Session.SttOpened)).
Proof.
  split.
  - split; [reflexivity|].
    apply (proj1 empty_transcripts_are_filtered
             (Session.boot speech Session.SttOpened) 0 (heard_so_far "" true)).
    reflexivity.
  - split; [reflexivity|]. split; [reflexivity|].
    apply (proj2 empty_transcripts_are_filtered
             (Session.boot speech Session.SttOpened) 0 (heard_so_far "   " true));
      reflexivity.
Defined.

(** *** C8: the clear command *)

(** Events after which the next final transcript is still to come. *)
Definition not_final (e : Session.event) : Prop :=
  match e with
  | Session.Deepgram (STT.Transcript _ data) => STT.extract_is_final data = false
  | _ => True
  end.

(** C8 as the specification words it: after the clear command, the next
    final transcript that appends a user turn leaves a history of length
    one. *)
Definition clear_starts_fresh : Prop :=
  forall tts_test b before between c data,
    let s := Session.run (Session.boot tts_test b) (before ++ [clear] ++ between) in
    Forall not_final between ->
    STT.extract_is_final data = true ->
    heard s c data = true ->
    JS.truthy (JS.trim (STT.extract_transcript data)) = true ->
    length (Session.msgHistory
              (Session.step s (Session.Deepgram (STT.Transcript c data)))) = 1.

(** C8 fails as worded: a reply is being streamed when the history is
    cleared, its next sentence is appended to the empty history, and the
    next final transcript makes a history of two turns. *)
Lemma clear_starts_fresh_fails : ~ clear_starts_fresh.
Proof.
  intros H.
  specialize (H speech Session.SttOpened reply_in_flight
                [Session.SentenceUnit "There was a fox."] 0
                (heard_so_far "Stop." true)).
  simpl in H.
  assert (Hlen : 2 = 1); [|discriminate].
  apply H; try reflexivity. repeat constructor.
Qed.

(** Events that append nothing to the history. *)
Definition appends_nothing (e : Session.event) : Prop :=
  match e with
  | Session.SentenceUnit _ => False
  | Session.Deepgram (STT.Transcript _ data) => STT.extract_is_final data = false
  | _ => True
  end.

Lemma history_stays_empty events : forall s,
  Session.msgHistory s = [] -> Forall appends_nothing events ->
  Session.msgHistory (Session.run s events) = [].
Proof.
  induction events as [|e events IH]; intros s Hs Hq; simpl; [exact Hs|].
  inversion Hq as [|? ? He Hq']; subst. apply IH; [|exact Hq'].
  rewrite step_history.
  destruct e as [fields|audio send|e'|x|r now|now]; simpl appended;
    rewrite ?app_nil_r; try assumption.
  - now destruct (Session.is_clear fields).
  - destruct e' as [ | | |c data| | | ]; rewrite ?app_nil_r; try assumption.
    simpl in He. unfold user_turn. rewrite He. simpl.
    destruct (heard s c data); now rewrite app_nil_r.
  - destruct He.
Qed.

(** C8, amended. The clear command empties the history, however many turns
    it held, and touches nothing else: the queue, the synthesis link and
    the messages sent are as before.  If no sentence unit is produced
    between the command and the next final transcript (no reply is still
    being streamed), that transcript, when its text is not blank and it
    comes from a connection the link has made, leaves the history with its
    user turn alone. *)
Theorem clear_empties_history :
  forall tts_test b before between c data,
    let s0 := Session.run (Session.boot tts_test b) before in
    let s1 := Session.step s0 clear in
    let s2 := Session.run s1 between in
    (Session.msgHistory s1 = [] /\
     Session.running s1 = Session.running s0 /\
     Session.waiting s1 = Session.waiting s0 /\
     Session.deepgramTTS s1 = Session.deepgramTTS s0 /\
     Session.sent s1 = Session.sent s0) /\
    (Forall appends_nothing between ->
     c < STT.fresh (Session.deepgramSTT s2) ->
     STT.extract_is_final data = true ->
     JS.truthy (JS.trim (STT.extract_transcript data)) = true ->
     Session.msgHistory (Session.step s2 (Session.Deepgram (STT.Transcript c data)))
     = [{| Session.role_of := Session.user;
           Session.content := STT.extract_transcript data |}]).
Proof.
  intros tts_test b before between c data s0 s1 s2. split.
  - repeat split.
  - intros Hquiet Hc Hfin Htext.
    assert (Hempty : Session.msgHistory s2 = [])
      by (apply history_stays_empty; [reflexivity | assumption]).
    assert (Hlink : link_ok s2).
    { unfold s2, s1, s0. apply link_ok_run, link_ok_step, link_ok_run, link_ok_boot. }
    destruct Hlink as [[Hcb _] _].
    rewrite step_history. simpl appended. unfold heard, user_turn.
    apply Nat.ltb_lt in Hc. rewrite Hc, Hcb, Hfin, Htext, (truthy_trim _ Htext).
    simpl. now rewrite Hempty.
Qed.

Lemma clear_empties_history_witness :
  Forall appends_nothing [Session.Deepgram (STT.Transcript 0 (heard_so_far "And" false))] /\
  0 < STT.fresh (Session.deepgramSTT
          (Session.run (Session.step
             (Session.run (Session.boot speech Session.SttOpened) reply_in_flight)
             clear)
             [Session.Deepgram (STT.Transcript 0 (heard_so_far "And" false))])) /\
  STT.extract_is_final (heard_so_far "And now?" true) = true /\
  JS.truthy (JS.trim (STT.extract_transcript (heard_so_far "And now?" true))) = true /\
  Session.msgHistory
    (Session.step
       (Session.run (Session.step
          (Session.run (Session.boot speech Session.SttOpened) reply_in_flight)
          clear)
          [Session.Deepgram (STT.Transcript 0 (heard_so_far "And" false))])
       (Session.Deepgram (STT.Transcript 0 (heard_so_far "And now?" true))))
  = [{| Session.role_of := Session.user; Session.content := "And now?" |}].
Proof.
  split; [repeat constructor|]. split; [simpl; lia|].
  split; [reflexivity|]. split; [reflexivity|].
  apply (proj2 (clear_empties_history speech Session.SttOpened reply_in_flight
                  [Session.Deepgram (STT.Transcript 0 (heard_so_far "And" false))]
                  0 (heard_so_far "And now?" true)));
    [repeat constructor | simpl; lia | reflexivity | reflexivity].
Defined.

(** *** C3: one message per unit *)

(** C3, where the code departs from it.  The time-out of the job is armed
    only once [synthesize] has returned, and [synthesize] returns only once
    its request has settled.  So while the request of the running job stays
    unsettled, whatever else happens and however late the clock, the job
    stays where it is and the queue sends nothing: neither the fall-back
    for this unit nor any message for the units behind it. *)
Theorem unsettled_request_stalls_queue :
  forall s x events,
    job_view s = Some (x, Session.AwaitingSynthesize) ->
    Forall (fun e => is_settlement e = false) events ->
    job_view (Session.run s events) = Some (x, Session.AwaitingSynthesize) /\
    queue_messages (Session.run s events) = queue_messages s.
Proof.
  intros s x events. revert s.
  induction events as [|e events IH]; intros s Hjob Hev; simpl; [now split|].
  inversion Hev as [|? ? He Hev']; subst.
  destruct (awaiting_step s e x Hjob He) as [Hjob' Hmsgs].
  destruct (IH _ Hjob' Hev') as [Hj Hm]. split; [exact Hj | congruence].
Qed.

Lemma unsettled_request_stalls_queue_witness :
  job_view (Session.step (Session.boot speech Session.SttOpened)
              (Session.SentenceUnit "Once upon a time."))
  = Some ("Once upon a time.", Session.AwaitingSynthesize) /\
  Forall (fun e => is_settlement e = false) hung_request /\
  job_view (Session.run (Session.step (Session.boot speech Session.SttOpened)
                           (Session.SentenceUnit "Once upon a time."))
              hung_request)
  = Some ("Once upon a time.", Session.AwaitingSynthesize) /\
  queue_messages (Session.run (Session.step (Session.boot speech Session.SttOpened)
                                 (Session.SentenceUnit "Once upon a time."))
                    hung_request)
  = queue_messages (Session.step (Session.boot speech Session.SttOpened)
                      (Session.SentenceUnit "Once upon a time.")).
Proof.
  split; [reflexivity|]. split; [repeat constructor|].
  apply (unsettled_request_stalls_queue
           (Session.step (Session.boot speech Session.SttOpened)
              (Session.SentenceUnit "Once upon a time."))
           "Once upon a time." hung_request);
    [reflexivity | repeat constructor].
Defined.

(** *** C4: reconnection *)

(** C4 as the specification words it: some number caps the automatic
    reconnection attempts of a run of consecutive failures. *)
Definition retries_are_capped : Prop :=
  exists N, forall k, STT.attempts (snd (STT.run STT.booted (STT.storm 0 k))) <= N.

(** C4 fails as worded: [N + 1] consecutive failures make [N + 1]
    attempts, whatever [N]. *)
Lemma retries_are_capped_fails : ~ retries_are_capped.
Proof.
  intros [N H]. specialize (H (S N)).
  rewrite (storm_attempts (S N) STT.booted 0 OnTranscript) in H by reflexivity.
  lia.
Qed.

(** C4, amended. When a connection of the link closes, the link is marked
    not connected and a timer of 100 ms is set; when it fires, [connect] is
    called again with the callbacks last registered, which stay registered,
    and a new connection is requested.  A connection that reports an error
    is reported to the error callback; this starts no attempt and sets no
    timer.  Nothing counts the attempts: a run of [k] consecutive failures
    makes [k] attempts, for every [k]. *)
Theorem close_reconnects_without_cap :
  (forall s c cb,
      c < STT.fresh s -> STT.onTranscriptCallback s = Some cb ->
      let closed := STT.handle (STT.Close c) s in
      let again := STT.handle STT.ReconnectTimer (state_of closed) in
      STT.isConnected (state_of closed) = false /\
      effects_of closed = [Sdk (SetTimeout 100)] /\
      effects_of again
      = [Sdk (ListenLive (STT.fresh s) (STT.model (STT.cfg s))
                         (STT.language (STT.cfg s)));
         Sdk (SetTimeout 5000)] /\
      STT.onTranscriptCallback (state_of again) = Some cb /\
      STT.onErrorCallback (state_of again) = STT.onErrorCallback s /\
      STT.connection (state_of again) = Some (STT.fresh s)) /\
  (forall s c message f,
      c < STT.fresh s -> STT.onErrorCallback s = Some f ->
      let failed := STT.handle (STT.Error c message) s in
      In (Call (CallError f (STT.stt_error message))) (effects_of failed) /\
      STT.attempts (effects_of failed) = 0 /\
      STT.timers (state_of failed) = STT.timers s) /\
  (forall k, STT.attempts (snd (STT.run STT.booted (STT.storm 0 k))) = k).
Proof.
  split; [|split].
  - intros s c cb Hc Hcb closed again. unfold again, closed.
    rewrite close_spec by assumption. cbn [state_of effects_of fst snd].
    rewrite (reconnect_timer_spec _ (STT.timers s) cb)
      by (try reflexivity; exact Hcb).
    repeat split.
  - intros s c message f Hc Hf failed. unfold failed.
    destruct (failed_attempt_spec s c message Hc)
      as (s' & <- & Hnone & _ & Htimers & _).
    split; [now apply failed_attempt_reports | now split].
  - intros k. now apply (storm_attempts k STT.booted 0 OnTranscript).
Qed.

Lemma close_reconnects_without_cap_witness :
  (0 < STT.fresh STT.booted /\
   STT.onTranscriptCallback STT.booted = Some OnTranscript /\
   effects_of (STT.handle STT.ReconnectTimer
                 (state_of (STT.handle (STT.Close 0) STT.booted)))
   = [Sdk (ListenLive 1 "nova-3-general" "en-US"); Sdk (SetTimeout 5000)]) /\
  (0 < STT.fresh STT.booted /\
   STT.onErrorCallback STT.booted = Some OnSttError /\
   In (Call (CallError OnSttError (STT.stt_error "reset")))
      (effects_of (STT.handle (STT.Error 0 "reset") STT.booted))).
Proof.
  split.
  - split; [simpl; lia|]. split; [reflexivity|].
    apply (proj1 close_reconnects_without_cap STT.booted 0 OnTranscript);
      [simpl; lia | reflexivity].
  - split; [simpl; lia|]. split; [reflexivity|].
    apply (proj1 (proj2 close_reconnects_without_cap) STT.booted 0 "reset"
             OnSttError); [simpl; lia | reflexivity].
Defined.

(** *** C5: audio sent while the link is not connected *)

(** A reconnection has been started: [listen.live] was called. *)
Definition recovery_started (es : list effect) : Prop :=
  exists c model language, In (Sdk (ListenLive c model language)) es.

(** C5 as the specification words it. *)
Definition sendAudio_always_recovers : Prop :=
  forall s audio send,
    STT.not_connected s = true ->
    recovery_started (effects_of (STT.sendAudio audio send s)).

(** C5 fails as worded: on a link that is already reconnecting, a second
    chunk of audio starts nothing. *)
Lemma sendAudio_always_recovers_fails : ~ sendAudio_always_recovers.
Proof.
  intros H. destruct (H reconnecting [Byte.x02] None eq_refl)
    as (c & model & language & Hin).
  simpl in Hin. destruct Hin as [Hin|[]]. discriminate.
Qed.

(** The link after the race of [just_closed]: audio has arrived and
    [sendAudio] has requested connection 1, then the timer of the [Close]
    handler has requested connection 2, which is now [this.connection]. *)
Definition overtaken : STT.t :=
  state_of (STT.handle STT.ReconnectTimer
              (state_of (STT.sendAudio [Byte.x01] None just_closed))).

(** C5, amended. On a link that is not connected, [sendAudio] starts a
    reconnection when a transcript callback is registered and no
    reconnection started by an earlier call is under way: it requests a
    connection and keeps the audio with the [connect] call of that
    connection.  Whenever that connection opens while its call still
    waits -- at once, or after anything else has happened to the link --
    the link counts as connected and the audio is given to [sendAudio]
    again: it goes out once, on the connection the link holds at that
    moment (the one requested, unless a later [connect] call has replaced
    it), or, when [disconnect] has cleared the connection, it starts a
    reconnection of its own.  Otherwise the first call only logs a
    warning: the link is left as it was and the audio is not kept.
    ([STT.wf] and the absence of duplicates hold of the link of every
    session, see [ReachFacts.link_ok_run] and [SettleFacts.distinct_run].) *)
Theorem sendAudio_recovers_unless_reconnecting :
  (forall s audio send cb,
      STT.not_connected s = true ->
      STT.onTranscriptCallback s = Some cb ->
      STT.isReconnecting s = false ->
      STT.wf s ->
      let first := STT.sendAudio audio send s in
      effects_of first
      = [ConsoleWarn;
         Sdk (ListenLive (STT.fresh s) (STT.model (STT.cfg s))
                         (STT.language (STT.cfg s)));
         Sdk (SetTimeout 5000)] /\
      STT.isReconnecting (state_of first) = true /\
      STT.connection (state_of first) = Some (STT.fresh s) /\
      In (STT.fresh s, STT.KResend audio) (STT.opening (state_of first)) /\
      (NoDup (map fst (STT.opening s)) ->
       NoDup (map fst (STT.opening (state_of first)))) /\
      forall send',
        let opened := STT.handle (STT.Open (STT.fresh s) send') (state_of first) in
        In (Sdk (ListenSend (STT.fresh s) audio)) (effects_of opened) /\
        STT.isConnected (state_of opened) = true /\
        STT.isReconnecting (state_of opened) = false) /\
  (forall s c audio send,
      NoDup (map fst (STT.opening s)) ->
      In (c, STT.KResend audio) (STT.opening s) ->
      let opened := STT.handle (STT.Open c send) s in
      STT.isConnected (state_of opened) = true /\
      match STT.connection s, STT.onTranscriptCallback s with
      | Some current, _ =>
          effects_of opened
          = send_effects current audio send (STT.onErrorCallback s) /\
          STT.isReconnecting (state_of opened) = false
      | None, Some _ =>
          effects_of opened
          = [ConsoleWarn;
             Sdk (ListenLive (STT.fresh s) (STT.model (STT.cfg s))
                             (STT.language (STT.cfg s)));
             Sdk (SetTimeout 5000)] /\
          STT.isReconnecting (state_of opened) = true /\
          In (STT.fresh s, STT.KResend audio) (STT.opening (state_of opened))
      | None, None =>
          effects_of opened = [ConsoleWarn] /\
          STT.isReconnecting (state_of opened) = false
      end) /\
  (forall s audio send,
      STT.not_connected s = true ->
      STT.onTranscriptCallback s = None \/ STT.isReconnecting s = true ->
      STT.sendAudio audio send s = (Normal tt, s, [ConsoleWarn])).
Proof.
  split; [|split].
  - intros s audio send cb Hnc Hcb Hrec Hwf first.
    unfold first. rewrite (sendAudio_reconnects s audio send cb) by assumption.
    cbn [state_of effects_of fst snd].
    split; [reflexivity|]. split; [reflexivity|]. split; [reflexivity|].
    split; [simpl; apply in_or_app; right; now left|].
    split.
    + intros Hnd. simpl. rewrite map_app. simpl.
      apply NoDup_app; [exact Hnd|repeat constructor; simpl; tauto|].
      intros x Hx [<-|[]].
      apply in_map_iff in Hx as (p & Hp & Hin).
      unfold STT.wf in Hwf. rewrite Forall_forall in Hwf.
      specialize (Hwf p Hin). lia.
    + intros send'. rewrite open_resends by assumption.
      cbn [state_of effects_of fst snd]. repeat split. now left.
  - intros s c audio send Hnd Hin opened. subst opened.
    pose proof (take_waiting c _ _ Hnd Hin) as Ht.
    unfold STT.handle. rewrite bind_get.
    destruct (STT.take c (STT.opening s)) as [k rest]. simpl in Ht. subst k.
    rewrite !bind_modify. simpl STT.resume. rewrite bind_modify. simpl when.
    set (s' := STT.set_isReconnecting false
                 (STT.set_isConnected true (STT.set_opening rest s))).
    destruct (STT.connection s) as [current|] eqn:Hconn.
    + rewrite (sendAudio_sends s' current) by (subst s'; simpl; auto).
      repeat split.
    + assert (Hnc : STT.not_connected s' = true)
        by (unfold STT.not_connected; subst s'; simpl; now rewrite Hconn).
      destruct (STT.onTranscriptCallback s) as [cb|] eqn:Hcb.
      * rewrite (sendAudio_reconnects s' audio send cb)
          by (subst s'; simpl; auto).
        cbn [state_of effects_of fst snd]. repeat split.
        simpl. apply in_or_app. right. now left.
      * rewrite (sendAudio_discards s' audio send)
          by (subst s'; simpl; auto).
        repeat split.
  - intros s audio send Hnc H. now apply sendAudio_discards.
Qed.

Lemma sendAudio_recovers_unless_reconnecting_witness :
  (STT.not_connected just_closed = true /\
   STT.onTranscriptCallback just_closed = Some OnTranscript /\
   STT.isReconnecting just_closed = false /\
   STT.wf just_closed /\
   effects_of (STT.sendAudio [Byte.x01] None just_closed)
   = [ConsoleWarn; Sdk (ListenLive 1 "nova-3-general" "en-US");
      Sdk (SetTimeout 5000)]) /\
  (NoDup (map fst (STT.opening overtaken)) /\
   In (1, STT.KResend [Byte.x01]) (STT.opening overtaken) /\
   STT.connection overtaken = Some 2 /\
   effects_of (STT.handle (STT.Open 1 None) overtaken)
   = [Sdk (ListenSend 2 [Byte.x01])]) /\
  (STT.not_connected reconnecting = true /\
   (STT.onTranscriptCallback reconnecting = None \/
    STT.isReconnecting reconnecting = true) /\
   STT.sendAudio [Byte.x02] None reconnecting
   = (Normal tt, reconnecting, [ConsoleWarn])).
Proof.
  split; [|split].
  - assert (Hwf : STT.wf just_closed) by (unfold STT.wf; simpl; constructor).
    split; [reflexivity|]. split; [reflexivity|]. split; [reflexivity|].
    split; [exact Hwf|].
    apply (proj1 sendAudio_recovers_unless_reconnecting just_closed
             [Byte.x01] None OnTranscript); try reflexivity. exact Hwf.
  - assert (Hnd : NoDup (map fst (STT.opening overtaken)))
      by (simpl; repeat constructor; simpl; intuition discriminate).
    assert (Hin : In (1, STT.KResend [Byte.x01]) (STT.opening overtaken))
      by (simpl; auto).
    split; [exact Hnd|]. split; [exact Hin|]. split; [reflexivity|].
    destruct (proj1 (proj2 sendAudio_recovers_unless_reconnecting)
                overtaken 1 [Byte.x01] None Hnd Hin) as (_ & H & _).
    exact H.
  - split; [reflexivity|]. split; [right; reflexivity|].
    apply (proj2 (proj2 sendAudio_recovers_unless_reconnecting)
             reconnecting [Byte.x02] None);
      [reflexivity | right; reflexivity].
Defined.

(** *** C9: [disconnect] *)

Lemma tts_disconnect_spec s close :
  TTS.disconnect close s
  = (Normal tt,
     TTS.set_isConnected false
       (match TTS.connection s with
        | Some _ => TTS.set_connection None s
        | None => s
        end),
     match TTS.connection s with Some c => [Sdk (SpeakClose c)] | None => [] end).
Proof.
  unfold TTS.disconnect, try_catch, sdk, bind, get, emit, modify, throw, ret.
  destruct (TTS.connection s) as [c|]; [|reflexivity].
  destruct close; reflexivity.
Qed.

(** C9. On either link, from any state and whatever the close of the
    underlying connection answers, [disconnect] returns normally and leaves
    [isConnected] false and the connection handle null; called again, any
    number of times, it returns normally, calls nothing and changes
    nothing. *)
Theorem disconnect_is_idempotent_and_silent :
  (forall s finish,
      let once := STT.disconnect finish s in
      completion_of once = Normal tt /\
      STT.isConnected (state_of once) = false /\
      STT.connection (state_of once) = None /\
      (forall finish',
          STT.disconnect finish' (state_of once) = (Normal tt, state_of once, [])) /\
      (forall answers,
          fold_left (fun s' a => state_of (STT.disconnect a s')) answers (state_of once)
          = state_of once)) /\
  (forall s close,
      let once := TTS.disconnect close s in
      completion_of once = Normal tt /\
      TTS.isConnected (state_of once) = false /\
      TTS.connection (state_of once) = None /\
      (forall close',
          TTS.disconnect close' (state_of once) = (Normal tt, state_of once, [])) /\
      (forall answers,
          fold_left (fun s' a => state_of (TTS.disconnect a s')) answers (state_of once)
          = state_of once)).
Proof.
  split.
  - intros s finish once.
    assert (Hagain : forall finish',
               STT.disconnect finish' (state_of once) = (Normal tt, state_of once, [])).
    { intros finish'. unfold once. rewrite !disconnect_spec.
      cbn [state_of fst snd]. destruct s as [[c|] ? ? ? ? ? ? ? ?]; reflexivity. }
    unfold once at 1 2 3. rewrite disconnect_spec.
    cbn [state_of completion_of fst snd]. repeat split.
    + destruct (STT.connection s) eqn:E; [reflexivity | exact E].
    + exact Hagain.
    + intros answers. induction answers as [|a answers IH]; simpl; [reflexivity|].
      now rewrite Hagain.
  - intros s close once.
    assert (Hagain : forall close',
               TTS.disconnect close' (state_of once) = (Normal tt, state_of once, [])).
    { intros close'. unfold once. rewrite !tts_disconnect_spec.
      cbn [state_of fst snd]. destruct s as [[c|] ? ? ? ?]; reflexivity. }
    unfold once at 1 2 3. rewrite tts_disconnect_spec.
    cbn [state_of completion_of fst snd]. repeat split.
    + destruct (TTS.connection s) eqn:E; [reflexivity | exact E].
    + exact Hagain.
    + intros answers. induction answers as [|a answers IH]; simpl; [reflexivity|].
      now rewrite Hagain.
Qed.

(** *** C2: the Sentence Buffer *)

(** C2. For every finite sequence of fragments and every length cap, the
    units emitted, in order and with the final flush, concatenate to the
    concatenation of the fragments exactly, and none is empty.  This holds
    at every moment of the stream: the units emitted so far and the
    residual make up the text received so far, and what follows only adds
    units after them -- so no text is dropped and no unit is emitted
    twice. *)
Theorem emitted_units_reproduce_the_input :
  forall cap fragments,
    SentenceBuffer.exact_roundtrip cap fragments /\
    Forall (fun u => u <> "") (SentenceBuffer.bufferText cap fragments) /\
    (forall before after,
        let so_far := SentenceBuffer.feed cap "" before in
        (JS.join (fst so_far) ++ snd so_far)%string = JS.join before /\
        SentenceBuffer.bufferText cap (before ++ after)
        = fst so_far
          ++ fst (SentenceBuffer.feed cap (snd so_far) after)
          ++ SentenceBuffer.flush
               (snd (SentenceBuffer.feed cap (snd so_far) after))).
Proof.
  intros cap fragments. split; [|split].
  - unfold SentenceBuffer.exact_roundtrip, SentenceBuffer.bufferText.
    rewrite JS.join_app, SentenceBuffer.flush_join.
    now rewrite (SentenceBuffer.feed_partition cap fragments "").
  - unfold SentenceBuffer.bufferText. apply Forall_app. split.
    + apply SentenceBuffer.feed_nonempty.
    + unfold SentenceBuffer.flush.
      destruct (snd (SentenceBuffer.feed cap "" fragments)); simpl;
        repeat constructor. discriminate.
  - intros before after so_far. subst so_far. split.
    + now rewrite (SentenceBuffer.feed_partition cap before "").
    + unfold SentenceBuffer.bufferText.
      rewrite SentenceBuffer.feed_app. simpl. now rewrite app_assoc.
Qed.

(** * The scenarios of section 8 *)

(** Three sentences are submitted; the three synthesis requests take 300,
    50 and 10 ms.  The queue starts a request only when the job before it
    has settled, so the audio messages leave in the order of submission. *)
Example scenario_three_sentences :
  Session.sent
    (Session.run (Session.boot speech Session.SttOpened)
       [Session.SentenceUnit "First."; Session.SentenceUnit "Second.";
        Session.SentenceUnit "Third.";
        Session.SpeakSettled speech 300; Session.SpeakSettled speech 350;
        Session.SpeakSettled speech 360])
  = [Session.Audio "First." "UklG"; Session.Audio "Second." "UklG";
     Session.Audio "Third." "UklG"].
Proof. reflexivity. Qed.

(** Two turns are recorded, the client clears the history, and the next
    final transcript starts a history of length one. *)
Example scenario_clear :
  length (Session.msgHistory
            (Session.run (Session.boot speech Session.SttOpened) one_exchange)) = 2 /\
  Session.msgHistory
    (Session.run (Session.boot speech Session.SttOpened) (one_exchange ++ [clear]))
  = [] /\
  length (Session.msgHistory
            (Session.run (Session.boot speech Session.SttOpened)
               (one_exchange ++ [clear]
                ++ [Session.Deepgram (STT.Transcript 0 (heard_so_far "Thanks." true))])))
  = 1.
Proof. repeat split. Qed.

(** A request that is rejected, and one that resolves to nothing usable and
    is given up after ten seconds of polling: one fall-back message each,
    and the queue goes on. *)
Example scenario_fallbacks :
  Session.sent
    (Session.run (Session.boot speech Session.SttOpened)
       [Session.SentenceUnit "First."; Session.SentenceUnit "Second.";
        Session.SentenceUnit "Third.";
        Session.SpeakSettled (TTS.Rejected (JS.Error "503")) 1000;
        Session.SpeakSettled (TTS.Resolved (TTS.Direct TTS.Other)) 2000;
        Session.PollWake 2100; Session.PollWake 11900; Session.PollWake 12000;
        Session.SpeakSettled speech 12500])
  = [Session.Text "[TTS Error] First."; Session.Text "[TTS Error] Second.";
     Session.Audio "Third." "UklG"].
Proof. reflexivity. Qed.

(** * Further facts about the code *)

(** ** [arrayBufferToBase64] *)

Module Base64Facts.
Import TTS.

(** Lists are consumed three bytes at a time. *)
Lemma triple_ind (P : list nat -> Prop) :
  P [] -> (forall a, P [a]) -> (forall a b, P [a; b]) ->
  (forall a b c rest, P rest -> P (a :: b :: c :: rest)) ->
  forall l, P l.
Proof.
  intros H0 H1 H2 H3 l.
  assert (H : forall n l, length l < n -> P l).
  { induction n as [|n IH]; intros k Hk; [lia|].
    destruct k as [|a [|b [|c rest]]]; auto.
    apply H3, IH. simpl in Hk. lia. }
  apply (H (S (length l))). lia.
Qed.

Lemma btoa_length (l : list nat) :
  String.length (btoa l) = 4 * ((length l + 2) / 3).
Proof.
  induction l as [|a|a b|a b c rest IH] using triple_ind; try reflexivity.
  cbn [btoa String.length length]. rewrite IH.
  replace (S (S (S (length rest))) + 2) with (length rest + 2 + 1 * 3) by lia.
  rewrite Nat.div_add by lia. lia.
Qed.

(** The position of a character in the alphabet. *)
Fixpoint index_of (c : ascii) (s : string) : option nat :=
  match s with
  | EmptyString => None
  | String d rest =>
      if Ascii.eqb c d then Some 0 else option_map S (index_of c rest)
  end.

Definition undigit (c : ascii) : option nat := index_of c alphabet.

Lemma undigit_digit (n : nat) : n < 64 -> undigit (digit n) = Some n.
Proof.
  intros H.
  assert (Hall : forallb (fun n =>
            match undigit (digit n) with
            | Some m => Nat.eqb m n
            | None => false
            end) (seq 0 64) = true) by (vm_compute; reflexivity).
  rewrite forallb_forall in Hall.
  specialize (Hall n). rewrite in_seq in Hall.
  specialize (Hall ltac:(lia)).
  destruct (undigit (digit n)) as [m|]; [|discriminate].
  apply Nat.eqb_eq in Hall. congruence.
Qed.

Lemma digit_inj (n m : nat) : n < 64 -> m < 64 -> digit n = digit m -> n = m.
Proof.
  intros Hn Hm H. apply undigit_digit in Hn, Hm. congruence.
Qed.

Lemma digit_not_pad (n : nat) : n < 64 -> digit n <> "="%char.
Proof.
  intros Hn H. apply undigit_digit in Hn. rewrite H in Hn.
  vm_compute in Hn. discriminate.
Qed.

Definition octets (l : list nat) : Prop := Forall (fun a => a < 256) l.

Ltac euclid a n :=
  pose proof (Nat.div_mod_eq a n);
  pose proof (Nat.mod_upper_bound a n ltac:(lia)).

Ltac sextet :=
  repeat match goal with
  | H : octets (_ :: _) |- _ => apply Forall_cons_iff in H; destruct H
  | H : Forall _ (_ :: _) |- _ => apply Forall_cons_iff in H; destruct H
  | H : ?a < 256 |- _ =>
      euclid a 4; euclid a 16; euclid a 64; revert H
  end; intros.

Local Opaque Nat.div Nat.modulo.

Lemma btoa_inj (l1 : list nat) :
  forall l2, octets l1 -> octets l2 -> btoa l1 = btoa l2 -> l1 = l2.
Proof.
  induction l1 as [|a|a b|a b c rest IH] using triple_ind;
    intros [|a' [|b' [|c' rest']]] H1 H2 E; try reflexivity;
    try discriminate E.
  all: cbn [btoa] in E; injection E; clear E; intros.
  all: try match goal with
       | H : octets (_ :: _ :: _ :: ?r), H' : octets (_ :: _ :: _ :: ?r'),
         E : btoa ?r = btoa ?r' |- _ =>
           apply IH in E;
           [| do 3 (apply Forall_cons_iff in H; destruct H as [_ H]); exact H
            | do 3 (apply Forall_cons_iff in H'; destruct H' as [_ H']); exact H']
       end.
  all: sextet.
  all: repeat match goal with
       | H : digit _ = "="%char |- _ =>
           exfalso; revert H; apply digit_not_pad; lia
       | H : "="%char = digit _ |- _ =>
           exfalso; symmetry in H; revert H; apply digit_not_pad; lia
       | H : digit _ = digit _ |- _ => apply digit_inj in H; [| lia | lia]
       end.
  all: try (subst; f_equal; try f_equal; try f_equal; lia).
Qed.

Lemma to_nat_inj (l1 l2 : list Byte.byte) :
  map (fun b => N.to_nat (Byte.to_N b)) l1 =
  map (fun b => N.to_nat (Byte.to_N b)) l2 -> l1 = l2.
Proof.
  revert l2. induction l1 as [|x l1 IH]; intros [|y l2] E;
    try discriminate; [reflexivity|].
  injection E as E1 E2. f_equal; [|auto].
  apply N2Nat.inj in E1.
  pose proof (Byte.of_to_N x) as Hx. rewrite E1, Byte.of_to_N in Hx.
  congruence.
Qed.

Lemma to_nat_octets (l : list Byte.byte) :
  octets (map (fun b => N.to_nat (Byte.to_N b)) l).
Proof.
  induction l as [|x l IH]; constructor; [|exact IH].
  pose proof (Byte.to_N_bounded x). lia.
Qed.

End Base64Facts.

(** ** No method of the links throws *)

Module ReturnFacts.
Import Eff EffFacts.
Local Open Scope js_scope.

Section Returns.
Context {S : Type}.

(** A method body that always completes normally. *)
Definition Returns {A} (m : js (S := S) A) : Prop :=
  forall s, exists a, completion_of (m s) = Normal a.

Lemma returns_ret {A} (a : A) : Returns (ret a).
Proof. intros s. now exists a. Qed.

Lemma returns_get : Returns get.
Proof. intros s. now exists s. Qed.

Lemma returns_modify f : Returns (modify f).
Proof. intros s. now exists tt. Qed.

Lemma returns_emit e : Returns (emit e).
Proof. intros s. now exists tt. Qed.

Lemma returns_bind {A B} (c : js A) (k : A -> js B) :
  Returns c -> (forall a, Returns (k a)) -> Returns (bind c k).
Proof.
  intros Hc Hk s. unfold bind. destruct (Hc s) as [a Ha].
  destruct (c s) as [[r s1] out1]. unfold completion_of in Ha.
  simpl in Ha. subst r.
  destruct (Hk a s1) as [b Hb].
  destruct (k a s1) as [[r s2] out2]. now exists b.
Qed.

(** A [try] whose handler returns: whatever the body does. *)
Lemma returns_try_catch {A} (body : js A) handler :
  (forall e, Returns (handler e)) -> Returns (try_catch body handler).
Proof.
  intros Hh s. unfold try_catch.
  destruct (body s) as [[[a|e] s1] out1]; [now exists a|].
  destruct (Hh e s1) as [b Hb].
  destruct (handler e s1) as [[r s2] out2]. now exists b.
Qed.

Lemma returns_when b (c : js unit) : Returns c -> Returns (when b c).
Proof. destruct b; [auto|intros _; apply returns_ret]. Qed.

Lemma returns_call_if_set slot mk : Returns (call_if_set slot mk).
Proof. destruct slot; [apply returns_emit|apply returns_ret]. Qed.

End Returns.

Create HintDb returns.
#[export] Hint Resolve returns_ret returns_get returns_modify returns_emit
  returns_bind returns_try_catch returns_when returns_call_if_set : returns.

Lemma connect_call_returns cb ecb k : Returns (STT.connect_call cb ecb k).
Proof. unfold STT.connect_call. auto 8 with returns. Qed.

Lemma sendAudio_returns audio send : Returns (STT.sendAudio audio send).
Proof.
  unfold STT.sendAudio. apply returns_bind; auto with returns. intros s.
  destruct (STT.not_connected s).
  - apply returns_bind; auto with returns. intros _.
    destruct (STT.onTranscriptCallback s); auto with returns.
    apply returns_when, returns_bind; auto using connect_call_returns with returns.
  - destruct (STT.connection s); auto 8 with returns.
Qed.

Lemma resume_returns k connected send : Returns (STT.resume k connected send).
Proof. destruct k; simpl; auto using sendAudio_returns with returns. Qed.

Lemma connect_failed_returns k e : Returns (STT.connect_failed k e).
Proof. unfold STT.connect_failed. auto 8 using resume_returns with returns. Qed.

Lemma handle_returns e : Returns (STT.handle e).
Proof.
  unfold STT.handle. apply returns_bind; auto with returns. intros s.
  destruct e as [c send|c msg|c|c data|c|c|].
  - destruct (STT.take c (STT.opening s)) as [[k|] rest];
      auto 8 using resume_returns with returns.
  - apply returns_when.
    destruct (STT.take c (STT.opening s)) as [[k|] rest];
      auto 8 using connect_failed_returns with returns.
  - destruct (STT.take c (STT.opening s)) as [[k|] rest];
      auto 8 using connect_failed_returns with returns.
  - apply returns_when.
    destruct (STT.onTranscriptCallback s); auto with returns.
  - auto 8 with returns.
  - auto with returns.
  - destruct (STT.timers s); auto with returns.
    apply returns_bind; auto with returns. intros _.
    destruct (STT.onTranscriptCallback s);
      auto using connect_call_returns with returns.
Qed.

Lemma stt_disconnect_returns finish : Returns (STT.disconnect finish).
Proof.
  unfold STT.disconnect. apply returns_bind; auto with returns. intros s.
  apply returns_bind; auto with returns.
  destruct (STT.connection s); auto 8 with returns.
Qed.

Lemma tts_disconnect_returns close : Returns (TTS.disconnect close).
Proof.
  unfold TTS.disconnect. apply returns_bind; auto with returns. intros s.
  apply returns_bind; auto with returns.
  destruct (TTS.connection s); auto 8 with returns.
Qed.

Lemma synthesize_settled_returns r : Returns (TTS.synthesize_settled r).
Proof. unfold TTS.synthesize_settled. auto 8 with returns. Qed.

Lemma connect_settled_returns r : Returns (TTS.connect_settled r).
Proof. unfold TTS.connect_settled. auto 8 with returns. Qed.

End ReturnFacts.

(** ** A [connect] call settles once *)

Module SettleFacts.
Import Eff EffFacts STT SttFacts.
Local Open Scope js_scope.

(** The waiting [connect] calls have distinct connections, all behind the
    counter. *)
Definition distinct (s : t) : Prop :=
  wf s /\ NoDup (map fst (opening s)).

(** Connection [c] is past its [connect] call: it exists, and no call
    waits on it. *)
Definition past (c : nat) (s : t) : Prop :=
  c < fresh s /\ ~ In c (map fst (opening s)).

Lemma take_absent c o : ~ In c (map fst o) -> take c o = (None, o).
Proof.
  induction o as [|[c' k] o IH]; simpl; [reflexivity|].
  intros H. destruct (Nat.eqb_spec c' c) as [->|Hne]; [tauto|].
  rewrite IH by tauto. reflexivity.
Qed.

Lemma take_none c o : fst (take c o) = None -> ~ In c (map fst o).
Proof.
  induction o as [|[c' k] o IH]; simpl; [tauto|].
  destruct (Nat.eqb_spec c' c) as [->|Hne]; simpl; [discriminate|].
  intros H [H'|H']; [contradiction|]. now apply IH.
Qed.

Lemma take_present c o k rest :
  take c o = (Some k, rest) -> In (c, k) o.
Proof.
  revert rest. induction o as [|[c' k'] o IH]; simpl; [discriminate|].
  intros rest. destruct (Nat.eqb_spec c' c) as [->|Hne].
  - intros [= -> ->]. now left.
  - destruct (take c o) as [[k0|] r]; simpl; [|discriminate].
    intros [= -> <-]. right. now apply (IH r).
Qed.

Lemma take_rest_fst c o :
  forall x, In x (map fst (snd (take c o))) -> In x (map fst o).
Proof.
  intros x H. apply in_map_iff in H as ((c', k) & <- & H).
  apply in_map_iff. exists (c', k). split; [reflexivity|].
  eapply take_sublist, H.
Qed.

Lemma take_nodup c o :
  NoDup (map fst o) -> NoDup (map fst (snd (take c o))).
Proof.
  induction o as [|[c' k] o IH]; simpl; [auto|].
  intros H. apply NoDup_cons_iff in H as [Hc' Ho].
  destruct (c' =? c); simpl; [exact Ho|].
  apply NoDup_cons; [|auto].
  intros Hin. apply Hc'. eapply take_rest_fst, Hin.
Qed.

Lemma take_removes c o k rest :
  NoDup (map fst o) -> take c o = (Some k, rest) -> ~ In c (map fst rest).
Proof.
  revert rest. induction o as [|[c' k'] o IH]; simpl; [discriminate|].
  intros rest H. apply NoDup_cons_iff in H as [Hc' Ho].
  destruct (Nat.eqb_spec c' c) as [->|Hne].
  - intros [= -> ->]. exact Hc'.
  - destruct (take c o) as [[k0|] r] eqn:E; simpl; [|discriminate].
    intros [= -> <-]. simpl. intros [H|H]; [contradiction|].
    now apply (IH r).
Qed.

Lemma distinct_fields s s' :
  opening s' = opening s -> fresh s' = fresh s -> distinct s -> distinct s'.
Proof.
  unfold distinct. intros Ho Hf [H1 H2]. split.
  - now apply (wf_fields s).
  - now rewrite Ho.
Qed.

Lemma distinct_set_opening c s :
  distinct s -> distinct (set_opening (snd (take c (opening s))) s).
Proof.
  intros [H1 H2]. split; [now apply wf_set_opening|].
  simpl. now apply take_nodup.
Qed.

Lemma distinct_begin_connect cb ecb k s :
  distinct s -> distinct (begin_connect cb ecb k s).
Proof.
  intros [H1 H2]. split; [now apply wf_begin_connect|].
  simpl. rewrite map_app. simpl.
  apply NoDup_app; [exact H2|repeat constructor; simpl; tauto|].
  intros x Hx [<-|[]].
  apply in_map_iff in Hx as (p & Hp & Hin).
  unfold wf in H1. rewrite Forall_forall in H1. specialize (H1 p Hin). lia.
Qed.

Ltac distinct_fields :=
  apply keeps_modify; intros ? ?; eapply distinct_fields; eauto.

Lemma connect_call_distinct cb ecb k : Keeps distinct (connect_call cb ecb k).
Proof.
  unfold connect_call. apply keeps_bind; [intros s H; exact H|].
  intros s0. apply keeps_bind; auto with keeps.
  apply keeps_modify. intros s. apply distinct_begin_connect.
Qed.

Lemma sendAudio_distinct audio send : Keeps distinct (sendAudio audio send).
Proof.
  unfold sendAudio. apply keeps_get_bind. intros s0 _.
  destruct (not_connected s0).
  - apply keeps_bind; auto with keeps. intros _.
    destruct (onTranscriptCallback s0); auto with keeps.
    apply keeps_when, keeps_bind; [distinct_fields|].
    intros _. apply connect_call_distinct.
  - destruct (connection s0); auto with keeps.
Qed.

Lemma resume_distinct k connected send : Keeps distinct (resume k connected send).
Proof.
  destruct k; simpl; auto with keeps.
  apply keeps_bind; [distinct_fields|].
  intros _. apply keeps_when, sendAudio_distinct.
Qed.

Lemma connect_failed_distinct k e : Keeps distinct (connect_failed k e).
Proof.
  unfold connect_failed. apply keeps_get_bind. intros s0 _.
  apply keeps_bind; auto using resume_distinct with keeps.
Qed.

Lemma handle_distinct e : Keeps distinct (handle e).
Proof.
  intros s H. unfold handle. rewrite bind_get.
  destruct e as [c send|c msg|c|c data|c|c|].
  - destruct (take c (opening s)) as [[k|] rest] eqn:E; [|exact H].
    rewrite !bind_modify. apply resume_distinct.
    eapply distinct_fields with (s := set_opening rest s); try reflexivity.
    replace rest with (snd (take c (opening s))) by now rewrite E.
    now apply distinct_set_opening.
  - destruct (c <? fresh s); [|exact H]. simpl.
    destruct (take c (opening s)) as [[k|] rest] eqn:E.
    + rewrite bind_modify.
      apply keeps_bind; auto using connect_failed_distinct with keeps.
      replace rest with (snd (take c (opening s))) by now rewrite E.
      now apply distinct_set_opening.
    + now apply keeps_call_if_set.
  - destruct (take c (opening s)) as [[k|] rest] eqn:E; [|exact H].
    rewrite bind_modify. apply connect_failed_distinct.
    replace rest with (snd (take c (opening s))) by now rewrite E.
    now apply distinct_set_opening.
  - apply keeps_when; [|exact H].
    destruct (onTranscriptCallback s); auto with keeps.
  - apply keeps_when; [|exact H].
    apply keeps_bind; [distinct_fields|]. intros _.
    apply keeps_bind; [distinct_fields|]. auto with keeps.
  - exact H.
  - destruct (timers s); [exact H|].
    rewrite bind_modify.
    destruct (onTranscriptCallback s); [|exact H].
    apply connect_call_distinct. exact H.
Qed.

(** This lasts: later [connect] calls wait on connections of their own. *)
Lemma past_fields c s s' :
  opening s' = opening s -> fresh s' = fresh s -> past c s -> past c s'.
Proof. unfold past. intros -> ->. auto. Qed.

Lemma past_begin_connect c cb ecb k s :
  past c s -> past c (begin_connect cb ecb k s).
Proof.
  intros [H1 H2]. split; simpl; [lia|].
  rewrite map_app, in_app_iff. simpl. intros [H|[H|[]]]; [auto|lia].
Qed.

Ltac past_fields :=
  apply keeps_modify; intros ? ?; eapply past_fields; eauto.

Lemma connect_call_past c cb ecb k : Keeps (past c) (connect_call cb ecb k).
Proof.
  unfold connect_call. apply keeps_bind; [intros s H; exact H|].
  intros s0. apply keeps_bind; auto with keeps.
  apply keeps_modify. intros s. apply past_begin_connect.
Qed.

Lemma sendAudio_past c audio send : Keeps (past c) (sendAudio audio send).
Proof.
  unfold sendAudio. apply keeps_get_bind. intros s0 _.
  destruct (not_connected s0).
  - apply keeps_bind; auto with keeps. intros _.
    destruct (onTranscriptCallback s0); auto with keeps.
    apply keeps_when, keeps_bind; [past_fields|].
    intros _. apply connect_call_past.
  - destruct (connection s0); auto with keeps.
Qed.

Lemma resume_past c k connected send :
  Keeps (past c) (resume k connected send).
Proof.
  destruct k; simpl; auto with keeps.
  apply keeps_bind; [past_fields|].
  intros _. apply keeps_when, sendAudio_past.
Qed.

Lemma connect_failed_past c k e : Keeps (past c) (connect_failed k e).
Proof.
  unfold connect_failed. apply keeps_get_bind. intros s0 _.
  apply keeps_bind; auto using resume_past with keeps.
Qed.

(** The three events that can settle the [connect] call of connection
    [c]. *)
Definition settles (c : nat) (e : event) : Prop :=
  match e with
  | Open c' _ | Error c' _ | ConnectTimeout c' => c' = c
  | _ => False
  end.

Lemma past_after c e s :
  distinct s -> c < fresh s -> settles c e ->
  past c (state_of (handle e s)).
Proof.
  intros [Hwf Hnd] Hc He. unfold handle. rewrite bind_get.
  assert (Hrest : forall k rest, take c (opening s) = (Some k, rest) ->
                    past c (set_opening rest s)).
  { intros k rest E. split; [exact Hc|]. simpl. eapply take_removes; eauto. }
  assert (Hnone : forall rest, take c (opening s) = (None, rest) -> past c s).
  { intros rest E. split; [exact Hc|]. apply take_none. now rewrite E. }
  destruct e as [c' send|c' msg|c'|c' data|c'|c'|]; simpl in He; try tauto;
    subst c'.
  - destruct (take c (opening s)) as [[k|] rest] eqn:E; [|eapply Hnone; eauto].
    rewrite !bind_modify. apply resume_past.
    eapply past_fields with (s := set_opening rest s); try reflexivity.
    eauto.
  - apply Nat.ltb_lt in Hc as Hc'. rewrite Hc'. simpl.
    destruct (take c (opening s)) as [[k|] rest] eqn:E.
    + rewrite bind_modify.
      apply keeps_bind; auto using connect_failed_past with keeps. eauto.
    + apply keeps_call_if_set. eapply Hnone; eauto.
  - destruct (take c (opening s)) as [[k|] rest] eqn:E; [|eapply Hnone; eauto].
    rewrite bind_modify. apply connect_failed_past. eauto.
Qed.

(** [Open] and the time-out of such a connection do nothing. *)
Lemma late_open c send s :
  past c s -> handle (Open c send) s = (Normal tt, s, []).
Proof.
  intros [_ H]. unfold handle. rewrite bind_get, take_absent by exact H.
  reflexivity.
Qed.

Lemma late_timeout c s :
  past c s -> handle (ConnectTimeout c) s = (Normal tt, s, []).
Proof.
  intros [_ H]. unfold handle. rewrite bind_get, take_absent by exact H.
  reflexivity.
Qed.

(** A late [Error] is still reported, by the handler of l.327 alone. *)
Lemma late_error c message s :
  past c s ->
  handle (Error c message) s
  = (Normal tt, s,
     match onErrorCallback s with
     | Some f => [Call (CallError f (stt_error message))]
     | None => []
     end).
Proof.
  intros [Hc H]. unfold handle. rewrite bind_get, take_absent by exact H.
  apply Nat.ltb_lt in Hc. rewrite Hc. simpl.
  destruct (onErrorCallback s); reflexivity.
Qed.

Lemma handle_past c e : Keeps (past c) (handle e).
Proof.
  intros s H. unfold handle. rewrite bind_get.
  assert (Hrest : forall c', past c (set_opening (snd (take c' (opening s))) s)).
  { intros c'. destruct H as [H1 H2]. split; [exact H1|]. simpl.
    intros Hin. apply H2. eapply take_rest_fst, Hin. }
  destruct e as [c' send|c' msg|c'|c' data|c'|c'|].
  - destruct (take c' (opening s)) as [[k|] rest] eqn:E; [|exact H].
    rewrite !bind_modify. apply resume_past.
    eapply past_fields with (s := set_opening rest s); try reflexivity.
    specialize (Hrest c'). now rewrite E in Hrest.
  - destruct (c' <? fresh s); [|exact H]. simpl.
    destruct (take c' (opening s)) as [[k|] rest] eqn:E.
    + rewrite bind_modify.
      apply keeps_bind; auto using connect_failed_past with keeps.
      specialize (Hrest c'). now rewrite E in Hrest.
    + now apply keeps_call_if_set.
  - destruct (take c' (opening s)) as [[k|] rest] eqn:E; [|exact H].
    rewrite bind_modify. apply connect_failed_past.
    specialize (Hrest c'). now rewrite E in Hrest.
  - apply keeps_when; [|exact H].
    destruct (onTranscriptCallback s); auto with keeps.
  - apply keeps_when; [|exact H].
    apply keeps_bind; [past_fields|]. intros _.
    apply keeps_bind; [past_fields|]. auto with keeps.
  - exact H.
  - destruct (timers s); [exact H|].
    rewrite bind_modify.
    destruct (onTranscriptCallback s); [|exact H].
    apply connect_call_past. exact H.
Qed.

(** Every state of the link in a session keeps its waiting calls
    distinct. *)
Lemma distinct_create model language : distinct (create model language).
Proof. split; constructor. Qed.

Lemma distinct_boot tts_test b :
  distinct (Session.deepgramSTT (Session.boot tts_test b)).
Proof.
  unfold Session.boot.
  rewrite !ReachFacts.stt_on_stt, !ReachFacts.stt_on_tts.
  apply handle_distinct, connect_call_distinct, distinct_create.
Qed.

Lemma distinct_step s e :
  distinct (Session.deepgramSTT s) ->
  distinct (Session.deepgramSTT (Session.step s e)).
Proof.
  intros H. rewrite ReachFacts.stt_step.
  destruct e; auto using sendAudio_distinct, handle_distinct.
  - now apply sendAudio_distinct.
  - now apply handle_distinct.
Qed.

Lemma distinct_run events : forall s,
  distinct (Session.deepgramSTT s) ->
  distinct (Session.deepgramSTT (Session.run s events)).
Proof.
  induction events as [|e events IH]; intros s H; [exact H|].
  apply IH, distinct_step, H.
Qed.

Lemma past_step c s e :
  past c (Session.deepgramSTT s) ->
  past c (Session.deepgramSTT (Session.step s e)).
Proof.
  intros H. rewrite ReachFacts.stt_step.
  destruct e; auto.
  - now apply sendAudio_past.
  - now apply handle_past.
Qed.

Lemma past_run c events : forall s,
  past c (Session.deepgramSTT s) ->
  past c (Session.deepgramSTT (Session.run s events)).
Proof.
  induction events as [|e events IH]; intros s H; [exact H|].
  apply IH, past_step, H.
Qed.

(** A method that leaves the link as it is and calls nothing leaves the
    session as it is. *)
Lemma on_stt_nothing {A} (m : js (S := t) A) (a : A) s :
  m (Session.deepgramSTT s) = (Normal a, Session.deepgramSTT s, []) ->
  Session.on_stt m s = s.
Proof.
  intros H. unfold Session.on_stt. rewrite H. now destruct s.
Qed.

End SettleFacts.

(** ** Calls to the SDK, as the session records them *)

Module CallFacts.
Import Eff EffFacts Session SessionFacts.

Lemma apply_effects_sdk ops : forall s,
  apply_effects (map Sdk ops) s = set_sdk_calls (sdk_calls s ++ ops) s.
Proof.
  induction ops as [|op ops IH]; intros s; simpl.
  - rewrite app_nil_r. now destruct s.
  - unfold apply_effects in IH. rewrite IH. simpl.
    now rewrite <- app_assoc.
Qed.

Lemma on_stt_sdk {A} (m : js (S := STT.t) A) r st ops s :
  m (deepgramSTT s) = (r, st, map Sdk ops) ->
  on_stt m s = set_sdk_calls (sdk_calls s ++ ops) (set_stt st s).
Proof.
  intros H. unfold on_stt. rewrite H. exact (apply_effects_sdk ops (set_stt st s)).
Qed.

Lemma on_tts_sdk {A} (m : js (S := TTS.t) A) r st ops s :
  m (deepgramTTS s) = (r, st, map Sdk ops) ->
  on_tts m s = set_sdk_calls (sdk_calls s ++ ops) (set_tts st s).
Proof.
  intros H. unfold on_tts. rewrite H. exact (apply_effects_sdk ops (set_tts st s)).
Qed.

End CallFacts.

(** ** The polling loop of the queue job *)

Module PollFacts.
Import Eff EffFacts Session SessionFacts QueueFacts ReachFacts JobFacts.

Lemma run_app events1 events2 s :
  run s (events1 ++ events2) = run (run s events1) events2.
Proof. apply fold_left_app. Qed.

Lemma job_view_running s x p :
  job_view s = Some (x, p) ->
  exists j, running s = Some j /\ sentence j = x /\ phase_of j = p.
Proof.
  unfold job_view. destruct (running s) as [j|]; [|discriminate].
  intros [= <- <-]. now exists j.
Qed.

Definition early (startTime : N) (w : N) : Prop :=
  (w - startTime < timeout)%N.

(** Wake-ups within ten seconds of the start leave the job polling. *)
Lemma polling_waits tts_test b wakes : forall events x startTime,
  let s := run (boot tts_test b) events in
  job_view s = Some (x, Polling startTime) ->
  Forall (early startTime) wakes ->
  queue_view (run s (map PollWake wakes)) = queue_view s /\
  job_view (run s (map PollWake wakes)) = Some (x, Polling startTime).
Proof.
  induction wakes as [|w wakes IH]; intros events x startTime s Hjob Hw;
    subst s.
  - now split.
  - inversion Hw as [|? ? Hearly Hrest]; subst.
    destruct (job_view_running _ _ _ Hjob) as (j & Hrun & <- & Hphase).
    pose proof (polling_job_times_out tts_test b events j startTime w Hrun Hphase)
      as Hstep.
    cbv zeta in Hstep.
    apply N.ltb_lt in Hearly. rewrite Hearly in Hstep.
    destruct Hstep as [Hv Hj].
    destruct (IH (events ++ [PollWake w]) (sentence j) startTime) as [Hv' Hj'].
    + rewrite run_app. exact Hj.
    + exact Hrest.
    + rewrite run_app in Hv', Hj'. simpl map.
      change (run (run (boot tts_test b) events)
                (PollWake w :: map PollWake wakes))
        with (run (run (run (boot tts_test b) events) [PollWake w])
                (map PollWake wakes)).
      split; [|exact Hj'].
      rewrite Hv'. exact Hv.
Qed.

(** The first wake-up after that sends the fall-back. *)
Lemma polling_ends tts_test b events x startTime wakes now :
  let s := run (boot tts_test b) events in
  job_view s = Some (x, Polling startTime) ->
  Forall (early startTime) wakes ->
  (timeout <= now - startTime)%N ->
  queue_view (run s (map PollWake wakes ++ [PollWake now]))
  = advance (queue_view s) (Text ("[TTS Error] " ++ x)).
Proof.
  intros s Hjob Hw Hlate. subst s.
  destruct (polling_waits tts_test b wakes events x startTime Hjob Hw)
    as [Hv Hj].
  destruct (job_view_running _ _ _ Hj) as (j & Hrun & <- & Hphase).
  rewrite <- run_app in Hrun.
  pose proof (polling_job_times_out tts_test b _ j startTime now Hrun Hphase)
    as Hstep.
  cbv zeta in Hstep.
  apply N.ltb_ge in Hlate. rewrite Hlate in Hstep.
  rewrite !run_app in *.
  change (run (run (run (boot tts_test b) events) (map PollWake wakes))
            [PollWake now])
    with (step (run (run (boot tts_test b) events) (map PollWake wakes))
            (PollWake now)).
  now rewrite Hstep, Hv.
Qed.

End PollFacts.

(** ** The requests for speech *)

Module RequestFacts.
Import Eff EffFacts LinkFacts Session SessionFacts QueueFacts.

Definition request_text (op : sdk_op) : list string :=
  match op with SpeakRequest text _ _ _ => [text] | _ => [] end.

(** The texts given to [speak.request] so far, in order. *)
Definition spoken (s : t) : list string := flat_map request_text (sdk_calls s).

Definition requests (es : list effect) : list string :=
  flat_map (fun e => match e with Sdk op => request_text op | _ => [] end) es.

Lemma spoken_apply_effect s e :
  spoken (apply_effect s e)
  = spoken s ++ requests [e].
Proof.
  unfold spoken, requests.
  destruct e as [op|[f a|f x|f tr fin]|]; simpl; rewrite ?app_nil_r;
    try reflexivity.
  - now rewrite flat_map_app; simpl; rewrite app_nil_r.
  - now destruct f.
  - now destruct f.
  - destruct f; try reflexivity. unfold on_transcript.
    now destruct (fin && JS.truthy (JS.trim tr)).
Qed.

Lemma spoken_apply_effects es : forall s,
  spoken (apply_effects es s) = spoken s ++ requests es.
Proof.
  unfold apply_effects.
  induction es as [|e es IH]; intros s; simpl.
  - now rewrite app_nil_r.
  - rewrite IH, spoken_apply_effect. unfold requests. simpl.
    now rewrite app_nil_r, <- app_assoc.
Qed.

(** Effects that are no request for speech. *)
Definition silent (e : effect) : Prop :=
  match e with Sdk (SpeakRequest _ _ _ _) => False | _ => True end.

Lemma silent_requests es : Forall silent es -> requests es = [].
Proof.
  induction 1 as [|e es He _ IH]; [reflexivity|].
  unfold requests in *. simpl. rewrite IH, app_nil_r.
  now destruct e as [[]| |].
Qed.

#[local] Hint Extern 1 (silent _) => exact I : emits.

Lemma connect_call_silent cb ecb k : Emits silent (STT.connect_call cb ecb k).
Proof. unfold STT.connect_call; auto 8 with emits. Qed.

Lemma sendAudio_silent audio send : Emits silent (STT.sendAudio audio send).
Proof.
  unfold STT.sendAudio. apply emits_bind; auto with emits. intros s.
  destruct (STT.not_connected s).
  - apply emits_bind; auto with emits. intros _.
    destruct (STT.onTranscriptCallback s); auto with emits.
    apply emits_when, emits_bind; auto using connect_call_silent with emits.
  - destruct (STT.connection s); auto 8 with emits.
Qed.

Lemma resume_silent k connected send : Emits silent (STT.resume k connected send).
Proof. destruct k; simpl; auto using sendAudio_silent with emits. Qed.

Lemma connect_failed_silent k e : Emits silent (STT.connect_failed k e).
Proof. unfold STT.connect_failed. auto 8 using resume_silent with emits. Qed.

(** The transcription link asks for no speech. *)
Lemma handle_silent e : Emits silent (STT.handle e).
Proof.
  unfold STT.handle. apply emits_bind; auto with emits. intros s.
  destruct e as [c send|c msg|c|c data|c|c|].
  - destruct (STT.take c (STT.opening s)) as [[k|] rest];
      auto 8 using resume_silent with emits.
  - apply emits_when.
    destruct (STT.take c (STT.opening s)) as [[k|] rest];
      auto 8 using connect_failed_silent with emits.
  - destruct (STT.take c (STT.opening s)) as [[k|] rest];
      auto 8 using connect_failed_silent with emits.
  - apply emits_when.
    destruct (STT.onTranscriptCallback s); auto with emits.
  - auto 8 with emits.
  - auto with emits.
  - destruct (STT.timers s); auto with emits.
    apply emits_bind; auto with emits. intros _.
    destruct (STT.onTranscriptCallback s); auto using connect_call_silent with emits.
Qed.

Lemma spoken_on_stt {A} (m : js (S := STT.t) A) s :
  Emits silent m -> spoken (on_stt m s) = spoken s.
Proof.
  intros H. unfold on_stt. rewrite spoken_apply_effects, silent_requests.
  - now rewrite app_nil_r.
  - apply H.
Qed.

Lemma spoken_start_job x s : spoken (start_job x s) = spoken s ++ [x].
Proof.
  unfold start_job, on_tts. rewrite spoken_apply_effects. reflexivity.
Qed.

(** The sentence a settling job hands the link to. *)
Definition next_up (s : t) : list string := firstn 1 (waiting s).

Lemma spoken_queue_next s : spoken (queue_next s) = spoken s ++ next_up s.
Proof.
  unfold queue_next, next_up. destruct (waiting s) as [|next rest]; simpl.
  - now rewrite app_nil_r.
  - now rewrite spoken_start_job.
Qed.

Lemma spoken_finish_job j s : spoken (finish_job j s) = spoken s ++ next_up s.
Proof.
  unfold finish_job. rewrite deliver_spec. unfold state_of. simpl.
  now rewrite spoken_queue_next.
Qed.

(** A turn of the event loop, by the requests and the queue together. *)
Definition stays (s s' : t) : Prop :=
  spoken s' = spoken s /\ queue_view s' = queue_view s.

Definition hands_over (s s' : t) : Prop :=
  exists x m,
    fst (fst (queue_view s)) = Some x /\
    spoken s' = spoken s ++ next_up s /\
    queue_view s' = advance (queue_view s) m.

Lemma poll_flight startTime now s :
  stays s (poll startTime now s) \/ hands_over s (poll startTime now s).
Proof.
  unfold poll. destruct (running s) as [j|] eqn:E; [|left; now split].
  destruct (must_wait j startTime now).
  - left. split; [reflexivity|]. unfold queue_view; simpl. now rewrite E.
  - right. exists (sentence j), (outcome_message j).
    rewrite queue_view_finish_job, spoken_finish_job.
    unfold queue_view at 1; simpl. now rewrite E.
Qed.

Lemma flight_after s s1 s' :
  spoken s1 = spoken s -> queue_view s1 = queue_view s ->
  stays s1 s' \/ hands_over s1 s' -> stays s s' \/ hands_over s s'.
Proof.
  intros Hsp Hv. unfold stays, hands_over, next_up.
  assert (Hw : waiting s1 = waiting s) by (now injection Hv).
  now rewrite Hsp, Hv, Hw.
Qed.

Lemma step_flight s e :
  match e with
  | SentenceUnit x =>
      spoken (step s e)
      = spoken s ++ (match running s with Some _ => [] | None => [x] end) /\
      queue_view (step s e) = added (queue_view s) x
  | _ => stays s (step s e) \/ hands_over s (step s e)
  end.
Proof.
  destruct e as [fields|audio send|e'|x|r now|now]; simpl.
  - left. split; destruct (is_clear fields); reflexivity.
  - left. split; [apply spoken_on_stt, sendAudio_silent|apply on_stt_queue_view].
  - left. split; [apply spoken_on_stt, handle_silent|apply on_stt_queue_view].
  - split; [|now rewrite queue_view_add].
    unfold queue_add. simpl.
    destruct (running s); [now rewrite app_nil_r|].
    now rewrite spoken_start_job.
  - destruct (running s) as [j|] eqn:E; [|left; now split].
    destruct (phase_of j); [|left; now split].
    set (r' := TTS.synthesize_settled r (deepgramTTS s)).
    set (s1 := apply_effects (effects_of r') (set_tts (state_of r') s)).
    assert (Hv : queue_view s1 = queue_view s)
      by (unfold s1; now rewrite apply_effects_queue_view).
    assert (Hsp : spoken s1 = spoken s).
    { unfold s1. rewrite spoken_apply_effects.
      unfold r'. rewrite JobFacts.synthesize_settled_spec.
      cbn [effects_of snd].
      destruct (JobFacts.attempt r) as [a|err].
      - destruct (TTS.usable a), (TTS.onAudioCallback (deepgramTTS s));
          simpl; now rewrite app_nil_r.
      - destruct (TTS.onErrorCallback (deepgramTTS s));
          simpl; now rewrite app_nil_r. }
    apply flight_after with s1; [assumption|assumption|].
    destruct (completion_of r') as [[]|err], (running s1) as [j1|] eqn:E1;
      try (left; now split).
    + apply poll_flight.
    + right. exists (sentence j1), (Text ("[TTS Error] " ++ sentence j1)).
      rewrite queue_view_next by reflexivity.
      rewrite spoken_queue_next.
      unfold queue_view at 1; simpl. rewrite E1.
      repeat split.
  - destruct (running s) as [j|] eqn:E; [|left; now split].
    destruct (phase_of j); [left; now split|]. apply poll_flight.
Qed.

(** One request in flight: the requests made are the connection test and
    the submitted sentences up to the running one, and each but the
    running one has had its message. *)
Definition one_in_flight (s : t) (submitted : list string) : Prop :=
  spoken s ++ waiting s = "test" :: submitted /\
  length (spoken s)
  = 1 + length (queue_messages s)
    + match running s with Some _ => 1 | None => 0 end /\
  (running s = None -> waiting s = []).

Lemma view_fields s :
  queue_view s = (option_map sentence (running s), waiting s, queue_messages s).
Proof. reflexivity. Qed.

Lemma one_in_flight_view s s' submitted :
  spoken s' = spoken s -> queue_view s' = queue_view s ->
  one_in_flight s submitted -> one_in_flight s' submitted.
Proof.
  intros Hsp Hv (H1 & H2 & H3). rewrite !view_fields in Hv.
  injection Hv as Hr Hw Hm. unfold one_in_flight.
  rewrite Hsp, Hw, Hm. split; [exact H1|]. split.
  - rewrite H2. destruct (running s), (running s'); try discriminate; reflexivity.
  - intros E. apply H3. destruct (running s); [|reflexivity].
    rewrite E in Hr. discriminate.
Qed.

Lemma step_one_in_flight s e submitted :
  one_in_flight s submitted ->
  one_in_flight (step s e) (submitted ++ submission e).
Proof.
  intros H. pose proof (step_flight s e) as Hstep.
  assert (Hturn : stays s (step s e) \/ hands_over s (step s e) ->
                  one_in_flight (step s e) submitted).
  { intros [[Hsp Hv]|(x & m & Hx & Hsp & Hv)].
    - now apply one_in_flight_view with s.
    - destruct H as (H1 & H2 & H3).
      rewrite !view_fields in Hv, Hx. simpl in Hx.
      unfold advance, next_up in *. simpl in Hv.
      destruct (running s) as [j|]; [|discriminate].
      unfold one_in_flight. rewrite Hsp.
      destruct (waiting s) as [|next rest]; simpl in *;
        injection Hv as Hr Hw Hm; rewrite Hw, Hm.
      + repeat rewrite app_nil_r in *. split; [exact H1|].
        destruct (running (step s e)); [discriminate|].
        rewrite length_app. simpl. split; [lia|reflexivity].
      + rewrite <- app_assoc. split; [exact H1|].
        destruct (running (step s e)); [|discriminate].
        rewrite !length_app. simpl. split; [lia|discriminate]. }
  destruct e; simpl submission; rewrite ?app_nil_r; auto.
  destruct Hstep as [Hsp Hv]. destruct H as (H1 & H2 & H3).
  set (s' := step s (SentenceUnit sentence0)) in *.
  rewrite (view_fields s), (view_fields s') in Hv.
  unfold added in Hv. cbn [fst snd] in Hv.
  unfold one_in_flight. rewrite Hsp.
  destruct (running s) as [j|] eqn:E; cbn [option_map] in Hv;
    injection Hv as Hr Hw Hm; rewrite Hw, Hm.
  - rewrite app_nil_r, app_assoc, H1. split; [reflexivity|].
    destruct (running s'); [|discriminate].
    split; [exact H2|discriminate].
  - rewrite (H3 eq_refl) in *. repeat rewrite app_nil_r in *.
    rewrite H1. split; [reflexivity|].
    destruct (running s'); [|discriminate].
    rewrite H1 in H2. rewrite length_app. simpl in *. split; [lia|discriminate].
Qed.

Lemma run_one_in_flight events : forall s submitted,
  one_in_flight s submitted ->
  one_in_flight (run s events) (submitted ++ submissions events).
Proof.
  induction events as [|e events IH]; intros s submitted H; simpl.
  - now rewrite app_nil_r.
  - rewrite app_assoc. apply IH. now apply step_one_in_flight.
Qed.

Lemma boot_one_in_flight tts_test b : one_in_flight (boot tts_test b) [].
Proof.
  unfold one_in_flight.
  assert (Hsp : spoken (boot tts_test b) = ["test"]).
  { unfold boot. rewrite !spoken_on_stt
      by (apply handle_silent || apply connect_call_silent).
    unfold on_tts at 1. rewrite spoken_apply_effects.
    destruct tts_test as [v|e]; reflexivity. }
  pose proof (queue_view_boot tts_test b) as Hv. rewrite view_fields in Hv.
  injection Hv as Hr Hw Hm. rewrite Hsp, Hw, Hm.
  destruct (running (boot tts_test b)); [discriminate|].
  repeat split.
Qed.

End RequestFacts.

(** ** The flag [isConnected] of the synthesis link *)

Module FlagFacts.
Import Eff EffFacts Session SessionFacts JobFacts.

(** The session with the flag overwritten. *)
Definition with_flag (b : bool) (s : t) : t :=
  set_tts (TTS.set_isConnected b (deepgramTTS s)) s.

Lemma with_flag_apply_effect b s e :
  apply_effect (with_flag b s) e = with_flag b (apply_effect s e).
Proof.
  destruct e as [op|[f a|f x|f tr fin]|]; try reflexivity;
    destruct f; try reflexivity.
  unfold apply_effect, apply_call, on_transcript.
  now destruct (fin && JS.truthy (JS.trim tr)).
Qed.

Lemma with_flag_apply_effects b es : forall s,
  apply_effects es (with_flag b s) = with_flag b (apply_effects es s).
Proof.
  unfold apply_effects.
  induction es as [|e es IH]; intros s; simpl; [reflexivity|].
  now rewrite with_flag_apply_effect, IH.
Qed.

Lemma with_flag_on_stt {A} b (m : js (S := STT.t) A) s :
  on_stt m (with_flag b s) = with_flag b (on_stt m s).
Proof.
  unfold on_stt. rewrite <- with_flag_apply_effects. reflexivity.
Qed.

(** A method of the link that neither reads nor writes the flag. *)
Definition blind {A} (m : js (S := TTS.t) A) : Prop :=
  forall b x,
    m (TTS.set_isConnected b x)
    = (completion_of (m x), TTS.set_isConnected b (state_of (m x)),
       effects_of (m x)).

Lemma with_flag_on_tts {A} b (m : js (S := TTS.t) A) s :
  blind m -> on_tts m (with_flag b s) = with_flag b (on_tts m s).
Proof.
  intros H. unfold on_tts. rewrite <- with_flag_apply_effects.
  unfold with_flag at 1 2. simpl deepgramTTS. rewrite H. reflexivity.
Qed.

Lemma synthesize_call_blind text : blind (TTS.synthesize_call text).
Proof. intros b x. reflexivity. Qed.

Lemma synthesize_settled_blind r : blind (TTS.synthesize_settled r).
Proof. intros b x. now rewrite !synthesize_settled_spec. Qed.

Lemma with_flag_start_job b x s :
  start_job x (with_flag b s) = with_flag b (start_job x s).
Proof.
  unfold start_job.
  rewrite <- with_flag_on_tts by apply synthesize_call_blind. reflexivity.
Qed.

Lemma with_flag_queue_add b x s :
  queue_add x (with_flag b s) = with_flag b (queue_add x s).
Proof.
  unfold queue_add. simpl running.
  destruct (running s); [reflexivity|apply with_flag_start_job].
Qed.

Lemma with_flag_queue_next b s :
  queue_next (with_flag b s) = with_flag b (queue_next s).
Proof.
  unfold queue_next. simpl waiting.
  destruct (waiting s) as [|next rest]; [reflexivity|].
  rewrite <- with_flag_start_job. reflexivity.
Qed.

Lemma with_flag_finish_job b j s :
  finish_job j (with_flag b s) = with_flag b (finish_job j s).
Proof.
  unfold finish_job. rewrite !deliver_spec. unfold state_of. simpl fst. simpl snd.
  rewrite <- with_flag_queue_next. reflexivity.
Qed.

Lemma with_flag_poll b startTime now s :
  poll startTime now (with_flag b s) = with_flag b (poll startTime now s).
Proof.
  unfold poll. simpl running. destruct (running s) as [j|]; [|reflexivity].
  destruct (must_wait j startTime now); [reflexivity|].
  apply with_flag_finish_job.
Qed.

(** The calls [synthesize] ends in. *)
Definition settle_effects (r : TTS.speak_outcome) (x : TTS.t) : list effect :=
  effects_of (TTS.synthesize_settled r x).

(** The turn in which the request of the running job settles:
    [synthesize] does not throw. *)
Lemma settle_step s j r now :
  running s = Some j -> phase_of j = AwaitingSynthesize ->
  step s (SpeakSettled r now)
  = let s1 := apply_effects (settle_effects r (deepgramTTS s)) s in
    match running s1 with
    | Some _ => poll now now s1
    | None => s1
    end.
Proof.
  intros Hrun Hphase. cbn [step]. rewrite Hrun, Hphase.
  unfold settle_effects. rewrite synthesize_settled_spec.
  cbn [effects_of state_of completion_of fst snd].
  replace (set_tts (deepgramTTS s) s) with s by (now destruct s).
  reflexivity.
Qed.

Lemma settle_effects_flag b r x :
  settle_effects r (TTS.set_isConnected b x) = settle_effects r x.
Proof. unfold settle_effects. now rewrite !synthesize_settled_spec. Qed.

(** No turn of the event loop reads the flag or writes it. *)
Lemma with_flag_step b s e :
  step (with_flag b s) e = with_flag b (step s e).
Proof.
  destruct e as [fields|audio send|e'|x|r now|now].
  - cbn [step]. now destruct (is_clear fields).
  - apply with_flag_on_stt.
  - apply with_flag_on_stt.
  - cbn [step]. rewrite <- with_flag_queue_add. reflexivity.
  - destruct (running s) as [j|] eqn:Hrun;
      [|cbn [step]; simpl running; now rewrite Hrun].
    destruct (phase_of j) eqn:Hphase;
      [|cbn [step]; simpl running; now rewrite Hrun, Hphase].
    rewrite (settle_step s j r now Hrun Hphase).
    rewrite (settle_step (with_flag b s) j r now Hrun Hphase).
    cbv zeta. simpl deepgramTTS.
    rewrite settle_effects_flag, with_flag_apply_effects.
    set (s1 := apply_effects (settle_effects r (deepgramTTS s)) s).
    simpl running.
    destruct (running s1); [apply with_flag_poll|reflexivity].
  - cbn [step]. simpl running. destruct (running s) as [j|]; [|reflexivity].
    destruct (phase_of j); [reflexivity|]. apply with_flag_poll.
Qed.

Lemma with_flag_run b events : forall s,
  run (with_flag b s) events = with_flag b (run s events).
Proof.
  induction events as [|e events IH]; intros s; simpl; [reflexivity|].
  now rewrite with_flag_step, IH.
Qed.

(** The two ways the test can end differ by the flag alone. *)
Lemma boot_flag tts_test bt :
  boot tts_test bt
  = with_flag (match tts_test with TTS.Resolved _ => true | TTS.Rejected _ => false end)
      (boot (TTS.Rejected (JS.Error "")) bt).
Proof.
  unfold boot. rewrite <- !with_flag_on_stt. f_equal. f_equal.
  destruct tts_test; reflexivity.
Qed.

End FlagFacts.

(** ** What goes out on the socket *)

Module ForwardFacts.
Import Eff EffFacts LinkFacts Session SessionFacts TalkFacts JobFacts FlagFacts.

(** The transcripts among the messages sent. *)
Definition transcripts_sent (s : t) : list message :=
  filter (fun m => negb (synthesized m)) (sent s).

Lemma sent_talk_view s s' : talk_view s' = talk_view s -> sent s' = sent s.
Proof. intros H. now injection H. Qed.

Lemma sent_start_job x s : sent (start_job x s) = sent s.
Proof. reflexivity. Qed.

Lemma sent_queue_next s : sent (queue_next s) = sent s.
Proof. unfold queue_next. now destruct (waiting s). Qed.

Lemma sent_finish_job j s :
  sent (finish_job j s) = sent s ++ [outcome_message j].
Proof.
  unfold finish_job. rewrite deliver_spec, sent_queue_next. reflexivity.
Qed.

(** A turn that sends nothing, or one message of the queue. *)
Definition queue_turn (s s' : t) : Prop :=
  sent s' = sent s \/
  exists m, synthesized m = true /\ sent s' = sent s ++ [m].

Lemma queue_turn_transcripts s s' :
  queue_turn s s' -> transcripts_sent s' = transcripts_sent s.
Proof.
  unfold transcripts_sent. intros [->|(m & Hm & ->)]; [reflexivity|].
  rewrite filter_app. simpl. rewrite Hm. simpl. now rewrite app_nil_r.
Qed.

Lemma poll_queue_turn startTime now s : queue_turn s (poll startTime now s).
Proof.
  unfold poll. destruct (running s) as [j|]; [|now left].
  destruct (must_wait j startTime now); [now left|].
  right. exists (outcome_message j).
  split; [apply synthesized_outcome|apply sent_finish_job].
Qed.

Lemma step_queue_turn s e :
  match e with Deepgram (STT.Transcript _ _) => False | _ => True end ->
  queue_turn s (step s e).
Proof.
  intros He.
  destruct e as [fields|audio send|e'|x|r now|now].
  - left. cbn [step]. now destruct (is_clear fields).
  - left. apply sent_talk_view, on_stt_quiet, sendAudio_quiet.
  - left. apply sent_talk_view, on_stt_quiet, handle_quiet.
    now destruct e'.
  - left. cbn [step]. unfold queue_add. simpl running.
    now destruct (running s).
  - destruct (running s) as [j|] eqn:Hrun;
      [|left; cbn [step]; now rewrite Hrun].
    destruct (phase_of j) eqn:Hphase;
      [|left; cbn [step]; now rewrite Hrun, Hphase].
    rewrite (settle_step s j r now Hrun Hphase). cbv zeta.
    set (s1 := apply_effects (settle_effects r (deepgramTTS s)) s).
    assert (H1 : sent s1 = sent s).
    { apply sent_talk_view, apply_effects_quiet.
      apply synthesize_settled_quiet. }
    unfold queue_turn. rewrite <- H1.
    destruct (running s1); [apply poll_queue_turn|now left].
  - cbn [step]. destruct (running s) as [j|]; [|now left].
    destruct (phase_of j); [now left|]. apply poll_queue_turn.
Qed.

End ForwardFacts.

(** ** The suffix test of the worker *)

Module WorkerFacts.
Import Worker.

Lemma length_append (p t : string) :
  String.length (p ++ t) = String.length p + String.length t.
Proof. induction p as [|c p IH]; simpl; [reflexivity|now rewrite IH]. Qed.

Lemma substring_all (s : string) : substring 0 (String.length s) s = s.
Proof. induction s as [|c s IH]; simpl; [reflexivity|now rewrite IH]. Qed.

Lemma substring_append (p t : string) :
  substring (String.length p) (String.length t) (p ++ t) = t.
Proof. induction p as [|c p IH]; simpl; [apply substring_all|exact IH]. Qed.

Lemma substring_split (n : nat) : forall s,
  n <= String.length s ->
  s = (substring 0 n s ++ substring n (String.length s - n) s)%string.
Proof.
  induction n as [|n IH]; intros s Hn.
  - rewrite Nat.sub_0_r, substring_all. now destruct s.
  - destruct s as [|c s]; simpl in *; [lia|].
    f_equal. apply IH. lia.
Qed.

(** [endsWith] holds of the strings that end with the suffix. *)
Lemma endsWith_spec (s suffix : string) :
  endsWith s suffix = true <-> exists p, s = (p ++ suffix)%string.
Proof.
  unfold endsWith. rewrite andb_true_iff, Nat.leb_le, String.eqb_eq. split.
  - intros [Hle Hsub].
    exists (substring 0 (String.length s - String.length suffix) s).
    pose proof (substring_split (String.length s - String.length suffix) s
                  ltac:(lia)) as H.
    replace (String.length s - (String.length s - String.length suffix))
      with (String.length suffix) in H by lia.
    now rewrite Hsub in H.
  - intros [p ->]. rewrite length_append. split; [lia|].
    replace (String.length p + String.length suffix - String.length suffix)
      with (String.length p) by lia.
    apply substring_append.
Qed.

End WorkerFacts.

(** ** The flag [isReconnecting] *)

Module LatchFacts.
Import Eff EffFacts STT SttFacts.
Local Open Scope js_scope.

Definition is_resend (p : nat * continuation) : bool :=
  match snd p with KResend _ => true | _ => false end.

(** The [connect] calls made by [sendAudio] that wait for their outcome. *)
Definition resends (s : t) : nat := length (filter is_resend (opening s)).

(** The flag is up exactly while one of them waits. *)
Definition latched (s : t) : Prop :=
  resends s = if isReconnecting s then 1 else 0.

(** What must hold before the continuation [k] of a [connect] call runs. *)
Definition ready (k : continuation) (s : t) : Prop :=
  match k with
  | KResend _ => resends s = 0
  | _ => latched s
  end.

Lemma latched_fields s s' :
  opening s' = opening s -> isReconnecting s' = isReconnecting s ->
  latched s -> latched s'.
Proof. unfold latched, resends. now intros -> ->. Qed.

Lemma ready_fields k s s' :
  opening s' = opening s -> isReconnecting s' = isReconnecting s ->
  ready k s -> ready k s'.
Proof.
  intros Ho Hr. destruct k; simpl; try apply latched_fields; auto.
  unfold resends. now rewrite Ho.
Qed.

Lemma take_resends c o :
  length (filter is_resend o)
  = length (filter is_resend (snd (take c o)))
    + match fst (take c o) with
      | Some (KResend _) => 1
      | _ => 0
      end.
Proof.
  induction o as [|[c' k] o IH]; [reflexivity|].
  cbn [take]. destruct (c' =? c); cbn [fst snd filter].
  - unfold is_resend at 1. cbn [snd]. destruct k; simpl; lia.
  - destruct (is_resend (c', k)); simpl; rewrite IH; lia.
Qed.

Lemma ready_after_take c k rest s :
  latched s -> take c (opening s) = (Some k, rest) ->
  ready k (set_opening rest s).
Proof.
  unfold latched, resends. intros H E.
  pose proof (take_resends c (opening s)) as Hc. rewrite E in Hc. simpl in Hc.
  destruct k; simpl; unfold latched, resends; simpl;
    destruct (isReconnecting s); lia.
Qed.

Lemma sendAudio_latched audio send : Keeps latched (sendAudio audio send).
Proof.
  intros s H.
  destruct (not_connected s) eqn:Hnc.
  - destruct (onTranscriptCallback s) as [cb|] eqn:Hcb;
      [|now rewrite sendAudio_discards by auto].
    destruct (isReconnecting s) eqn:Hr;
      [now rewrite sendAudio_discards by auto|].
    rewrite (sendAudio_reconnects s audio send cb) by assumption.
    unfold latched, resends in *. rewrite Hr in H.
    cbn [state_of fst snd]. simpl.
    rewrite filter_app, length_app, H. reflexivity.
  - unfold not_connected in Hnc. apply orb_false_iff in Hnc as [Hc Hconn].
    apply negb_false_iff in Hc.
    destruct (connection s) as [c|] eqn:E; [|discriminate].
    now rewrite (sendAudio_sends s c) by assumption.
Qed.

Lemma resume_latched k connected send s :
  ready k s -> latched (state_of (resume k connected send s)).
Proof.
  destruct k as [| |audio]; simpl; try (intros H; exact H).
  intros H. rewrite bind_modify.
  destruct connected; simpl.
  - apply sendAudio_latched. unfold latched. simpl. exact H.
  - exact H.
Qed.

Lemma connect_failed_latched k e s :
  ready k s -> latched (state_of (connect_failed k e s)).
Proof.
  intros H. unfold connect_failed. rewrite bind_get.
  destruct (onErrorCallback s); simpl call_if_set.
  - rewrite bind_emit. cbn [state_of fst snd].
    now apply resume_latched.
  - unfold bind at 1, ret.
    destruct (resume k false None s) as [[r s'] out] eqn:E.
    change s' with (state_of (r, s', out)). rewrite <- E.
    now apply resume_latched.
Qed.

Lemma connect_call_latched cb ecb k :
  (match k with KResend _ => False | _ => True end) ->
  Keeps latched (connect_call cb ecb k).
Proof.
  intros Hk s H. unfold connect_call.
  rewrite bind_get, bind_modify, !bind_emit. cbn [state_of fst snd].
  unfold latched, resends in *. simpl.
  rewrite filter_app, length_app. simpl.
  destruct k; try contradiction; simpl; lia.
Qed.

Lemma handle_latched e : Keeps latched (handle e).
Proof.
  intros s H. unfold handle. rewrite bind_get.
  destruct e as [c send|c msg|c|c data|c|c|].
  - destruct (take c (opening s)) as [[k|] rest] eqn:E; [|exact H].
    rewrite !bind_modify. apply resume_latched.
    eapply ready_fields with (s := set_opening rest s); try reflexivity.
    eapply ready_after_take; eauto.
  - destruct (c <? fresh s); [|exact H]. simpl.
    destruct (take c (opening s)) as [[k|] rest] eqn:E.
    + rewrite bind_modify.
      destruct (onErrorCallback s); simpl call_if_set.
      * rewrite bind_emit. cbn [state_of fst snd].
        apply connect_failed_latched. eapply ready_after_take; eauto.
      * unfold bind at 1, ret.
        destruct (connect_failed k (stt_error msg) (set_opening rest s))
          as [[r s'] out] eqn:E'.
        change s' with (state_of (r, s', out)). rewrite <- E'.
        apply connect_failed_latched. eapply ready_after_take; eauto.
    + now apply keeps_call_if_set.
  - destruct (take c (opening s)) as [[k|] rest] eqn:E; [|exact H].
    rewrite bind_modify. apply connect_failed_latched.
    eapply ready_after_take; eauto.
  - apply keeps_when; [|exact H].
    destruct (onTranscriptCallback s); auto with keeps.
  - apply keeps_when; [|exact H].
    apply keeps_bind; [apply keeps_modify; intros ? ?; eapply latched_fields; eauto|].
    intros _.
    apply keeps_bind; [apply keeps_modify; intros ? ?; eapply latched_fields; eauto|].
    auto with keeps.
  - exact H.
  - destruct (timers s); [exact H|].
    rewrite bind_modify.
    destruct (onTranscriptCallback s); [|exact H].
    apply connect_call_latched; [exact I|exact H].
Qed.

Lemma latched_boot tts_test b :
  latched (Session.deepgramSTT (Session.boot tts_test b)).
Proof.
  unfold Session.boot.
  rewrite !ReachFacts.stt_on_stt, !ReachFacts.stt_on_tts.
  apply handle_latched, connect_call_latched; [exact I|reflexivity].
Qed.

Lemma latched_run events : forall s,
  latched (Session.deepgramSTT s) ->
  latched (Session.deepgramSTT (Session.run s events)).
Proof.
  induction events as [|e events IH]; intros s H; [exact H|].
  apply IH. rewrite ReachFacts.stt_step.
  destruct e; auto.
  - now apply sendAudio_latched.
  - now apply handle_latched.
Qed.

End LatchFacts.

(** * Further properties of the code *)

Import Base64Facts ReturnFacts SettleFacts CallFacts PollFacts RequestFacts
  FlagFacts ForwardFacts WorkerFacts LatchFacts.

(** ** The audio encoding *)

(** X1.  [arrayBufferToBase64] gives four characters for every three
    bytes of audio, the last group padded: a buffer of [n] bytes encodes
    to [4 * ceil(n / 3)] characters. *)
Theorem base64_length_is_four_thirds :
  forall buffer,
    String.length (TTS.arrayBufferToBase64 buffer)
    = 4 * ((length buffer + 2) / 3).
Proof.
  intros buffer. unfold TTS.arrayBufferToBase64.
  now rewrite btoa_length, length_map.
Qed.

(** X2.  [arrayBufferToBase64] loses nothing: two different buffers never
    encode to the same string. *)
Theorem base64_tells_buffers_apart :
  forall b1 b2,
    b1 <> b2 -> TTS.arrayBufferToBase64 b1 <> TTS.arrayBufferToBase64 b2.
Proof.
  intros b1 b2 Hne E. apply Hne, to_nat_inj.
  apply btoa_inj; auto using to_nat_octets.
Qed.

Lemma base64_tells_buffers_apart_witness :
  [Byte.x52; Byte.x49] <> [Byte.x52; Byte.x4a] /\
  TTS.arrayBufferToBase64 [Byte.x52; Byte.x49]
  <> TTS.arrayBufferToBase64 [Byte.x52; Byte.x4a].
Proof.
  split; [discriminate|].
  apply (base64_tells_buffers_apart [Byte.x52; Byte.x49] [Byte.x52; Byte.x4a]).
  discriminate.
Defined.

(** ** The methods of the two links *)

(** X3.  No method of the two links lets an exception out: what
    [connection.send], [connection.finish], [connection.close] or
    [speak.request] throw is caught inside [sendAudio], [disconnect],
    [synthesize] and [connect], and no event handler of the transcription
    link throws. *)
Theorem link_methods_never_throw :
  (forall audio send s,
      completion_of (STT.sendAudio audio send s) = Normal tt) /\
  (forall e s, completion_of (STT.handle e s) = Normal tt) /\
  (forall finish s, completion_of (STT.disconnect finish s) = Normal tt) /\
  (forall close s, completion_of (TTS.disconnect close s) = Normal tt) /\
  (forall r s, completion_of (TTS.synthesize_settled r s) = Normal tt) /\
  (forall r s, exists connected,
      completion_of (TTS.connect_settled r s) = Normal connected).
Proof.
  repeat split; intros.
  - destruct (sendAudio_returns audio send s) as [[] H]; exact H.
  - destruct (handle_returns e s) as [[] H]; exact H.
  - destruct (stt_disconnect_returns finish s) as [[] H]; exact H.
  - destruct (tts_disconnect_returns close s) as [[] H]; exact H.
  - destruct (synthesize_settled_returns r s) as [[] H]; exact H.
  - apply connect_settled_returns.
Qed.

(** X4.  [synthesize] ends in at most one call, to the callbacks stored
    in the link: the audio callback with a non-empty string, or the error
    callback; an answer without audio, or with empty audio, reaches
    neither.  The fields of the link stay as they were.  Case by case:
    a rejected request and a body or stream that cannot be read go to the
    error callback with the error thrown; audio that is not empty goes to
    the audio callback; everything else calls nothing. *)
Theorem synthesize_calls_back_at_most_once :
  forall r s,
    let done := TTS.synthesize_settled r s in
    state_of done = s /\
    (effects_of done = [] \/
     (exists f a,
         TTS.onAudioCallback s = Some f /\ a <> "" /\
         effects_of done = [Call (CallAudio f a)]) \/
     (exists f e,
         TTS.onErrorCallback s = Some f /\
         effects_of done = [Call (CallError f e)])) /\
    match r with
    | TTS.Rejected error =>
        effects_of done
        = match TTS.onErrorCallback s with
          | Some f => [Call (CallError f error)]
          | None => []
          end
    | TTS.Resolved v =>
        match TTS.decoded (TTS.actualResult v) with
        | Thrown error =>
            effects_of done
            = match TTS.onErrorCallback s with
              | Some f => [Call (CallError f error)]
              | None => []
              end
        | Normal None => effects_of done = []
        | Normal (Some "") => effects_of done = []
        | Normal (Some audioBase64) =>
            effects_of done
            = match TTS.onAudioCallback s with
              | Some f => [Call (CallAudio f audioBase64)]
              | None => []
              end
        end
    end.
Proof.
  intros r s done. subst done. rewrite synthesize_settled_spec.
  split; [reflexivity|]. cbn [effects_of snd]. split.
  - destruct (attempt r) as [audioBase64|error].
    + destruct (TTS.usable audioBase64) as [a|] eqn:Ea; [|now left].
      destruct (TTS.onAudioCallback s) as [f|]; [|now left].
      right; left. exists f, a. repeat split.
      intros ->. destruct audioBase64 as [x|]; [|discriminate].
      unfold TTS.usable in Ea. destruct (JS.truthy x) eqn:Et; [|discriminate].
      injection Ea as ->. discriminate.
    + destruct (TTS.onErrorCallback s) as [f|]; [|now left].
      right; right. now exists f, error.
  - unfold attempt. destruct r as [v|error]; [|reflexivity].
    destruct (TTS.decoded (TTS.actualResult v)) as [[[|c a]|]|error];
      reflexivity.
Qed.

(** An empty buffer, in the [result] of the SDK or bare, and an answer
    that is no object reach neither callback of a link that has both. *)
Lemma synthesize_calls_back_at_most_once_witness :
  effects_of
    (TTS.synthesize_settled (TTS.Resolved (TTS.Wrapper (TTS.ArrayBuffer [])))
       (TTS.set_callbacks (Some CaptureAudio) (Some CaptureError)
          (TTS.create None None None))) = [] /\
  effects_of
    (TTS.synthesize_settled (TTS.Resolved (TTS.Direct TTS.Other))
       (TTS.set_callbacks (Some CaptureAudio) (Some CaptureError)
          (TTS.create None None None))) = [] /\
  effects_of
    (TTS.synthesize_settled speech
       (TTS.set_callbacks (Some CaptureAudio) (Some CaptureError)
          (TTS.create None None None)))
  = [Call (CallAudio CaptureAudio "UklG")].
Proof.
  split; [|split].
  - exact (proj2 (proj2 (synthesize_calls_back_at_most_once
                           (TTS.Resolved (TTS.Wrapper (TTS.ArrayBuffer [])))
                           (TTS.set_callbacks (Some CaptureAudio)
                              (Some CaptureError) (TTS.create None None None))))).
  - exact (proj2 (proj2 (synthesize_calls_back_at_most_once
                           (TTS.Resolved (TTS.Direct TTS.Other))
                           (TTS.set_callbacks (Some CaptureAudio)
                              (Some CaptureError) (TTS.create None None None))))).
  - exact (proj2 (proj2 (synthesize_calls_back_at_most_once speech
                           (TTS.set_callbacks (Some CaptureAudio)
                              (Some CaptureError) (TTS.create None None None))))).
Defined.

(** X5.  A [connect] call of the transcription link settles once.  After
    the first of [Open], [Error] and the five-second time-out of a
    connection, and whatever the session does next, a late [Open] or a
    late time-out of that connection changes nothing and calls nothing;
    a late [Error] is only reported. *)
Theorem connect_settles_once :
  forall tts_test b events e c later,
    let s0 := Session.run (Session.boot tts_test b) events in
    c < STT.fresh (Session.deepgramSTT s0) ->
    settles c e ->
    let s := Session.run (Session.step s0 (Session.Deepgram e)) later in
    (forall send, Session.step s (Session.Deepgram (STT.Open c send)) = s) /\
    Session.step s (Session.Deepgram (STT.ConnectTimeout c)) = s /\
    (forall message,
        STT.handle (STT.Error c message) (Session.deepgramSTT s)
        = (Normal tt, Session.deepgramSTT s,
           [Call (CallError OnSttError (STT.stt_error message))])).
Proof.
  intros tts_test b events e c later s0 Hc He s.
  assert (Hs : past c (Session.deepgramSTT s)).
  { apply past_run. simpl. rewrite ReachFacts.stt_on_stt.
    apply past_after; auto.
    apply distinct_run, distinct_boot. }
  repeat split.
  - intros send. simpl. apply (on_stt_nothing _ tt), late_open, Hs.
  - simpl. apply (on_stt_nothing _ tt), late_timeout, Hs.
  - intros message. rewrite late_error by exact Hs.
    assert (Hl : ReachFacts.link_ok s).
    { apply ReachFacts.link_ok_run, ReachFacts.link_ok_step,
        ReachFacts.link_ok_run, ReachFacts.link_ok_boot. }
    destruct Hl as [[_ ->] _]. reflexivity.
Qed.

Lemma connect_settles_once_witness :
  0 < STT.fresh (Session.deepgramSTT
                   (Session.run (Session.boot speech Session.SttOpened) [])) /\
  settles 0 (STT.ConnectTimeout 0) /\
  Session.step
    (Session.run
       (Session.step (Session.run (Session.boot speech Session.SttOpened) [])
          (Session.Deepgram (STT.ConnectTimeout 0)))
       [Session.WsBinary [Byte.x01] None])
    (Session.Deepgram (STT.Open 0 None))
  = Session.run
      (Session.step (Session.run (Session.boot speech Session.SttOpened) [])
         (Session.Deepgram (STT.ConnectTimeout 0)))
      [Session.WsBinary [Byte.x01] None].
Proof.
  assert (H0 : 0 < STT.fresh (Session.deepgramSTT
                   (Session.run (Session.boot speech Session.SttOpened) [])))
    by (vm_compute; lia).
  split; [exact H0|]. split; [reflexivity|].
  destruct (connect_settles_once speech Session.SttOpened []
              (STT.ConnectTimeout 0) 0 [Session.WsBinary [Byte.x01] None]
              H0 eq_refl) as [H _].
  exact (H None).
Defined.

(** X6.  A connection that fails while its [connect] call waits is
    reported twice to the error callback when it fails with an [Error]
    event (by the handler of l.327, then by the [catch] of l.341), once
    when it times out.  Audio kept for resending is dropped with it: the
    only effects are these calls, and [isReconnecting] is reset. *)
Theorem failed_connect_reports_and_drops_the_audio :
  forall s c k message f,
    distinct s -> In (c, k) (STT.opening s) ->
    STT.onErrorCallback s = Some f ->
    let failed := STT.handle (STT.Error c message) s in
    let timed := STT.handle (STT.ConnectTimeout c) s in
    effects_of failed
    = [Call (CallError f (STT.stt_error message));
       Call (CallError f (STT.stt_error message))] /\
    effects_of timed = [Call (CallError f (JS.Error "Connection timeout"))] /\
    STT.isReconnecting (state_of failed)
    = match k with STT.KResend _ => false | _ => STT.isReconnecting s end /\
    STT.isReconnecting (state_of timed)
    = match k with STT.KResend _ => false | _ => STT.isReconnecting s end /\
    STT.isConnected (state_of failed) = STT.isConnected s /\
    STT.isConnected (state_of timed) = STT.isConnected s.
Proof.
  intros s c k message f [Hwf Hnd] Hin Hf failed timed.
  assert (Hc : (c <? STT.fresh s) = true).
  { apply Nat.ltb_lt. unfold STT.wf in Hwf. rewrite Forall_forall in Hwf.
    apply (Hwf (c, k) Hin). }
  pose proof (take_waiting c k _ Hnd Hin) as Ht.
  subst failed timed. unfold STT.handle. rewrite !bind_get, Hc.
  destruct (STT.take c (STT.opening s)) as [k' rest]. simpl in Ht. subst k'.
  simpl when. rewrite !bind_modify, Hf.
  unfold STT.connect_failed. simpl call_if_set.
  rewrite bind_emit, !bind_get. simpl STT.onErrorCallback. rewrite Hf.
  simpl call_if_set. rewrite !bind_emit.
  destruct k; repeat split; reflexivity.
Qed.

Lemma failed_connect_reports_and_drops_the_audio_witness :
  distinct reconnecting /\
  In (1, STT.KResend [Byte.x01]) (STT.opening reconnecting) /\
  STT.onErrorCallback reconnecting = Some OnSttError /\
  effects_of (STT.handle (STT.Error 1 "refused") reconnecting)
  = [Call (CallError OnSttError (STT.stt_error "refused"));
     Call (CallError OnSttError (STT.stt_error "refused"))] /\
  STT.isReconnecting (state_of (STT.handle (STT.Error 1 "refused") reconnecting))
  = false.
Proof.
  assert (Hd : distinct reconnecting).
  { split; [repeat constructor|]. simpl. repeat constructor. simpl. tauto. }
  assert (Hin : In (1, STT.KResend [Byte.x01]) (STT.opening reconnecting))
    by (simpl; auto).
  pose proof (failed_connect_reports_and_drops_the_audio reconnecting 1
                (STT.KResend [Byte.x01]) "refused" OnSttError Hd Hin eq_refl)
    as (H1 & _ & H2 & _).
  split; [exact Hd|]. split; [exact Hin|]. split; [reflexivity|].
  split; [exact H1|exact H2].
Defined.

(** ** The end of a session *)

(** X7.  The [close] listener disconnects both links and touches neither
    the queue nor the conversation, but it leaves the transcript callback
    in place: when the [Close] event of the finished connection arrives,
    the link schedules a reconnection as for any other close, and the
    timer opens a new connection to Deepgram for a session whose client
    is gone. *)
Theorem close_listener_leaves_reconnection_armed :
  forall tts_test b events speak_close listen_finish c,
    let s := Session.run (Session.boot tts_test b) events in
    let s1 := Closing.on_close speak_close listen_finish s in
    let s2 := Session.run s1 [Session.Deepgram (STT.Close c);
                              Session.Deepgram STT.ReconnectTimer] in
    c < STT.fresh (Session.deepgramSTT s) ->
    (STT.isConnected (Session.deepgramSTT s1) = false /\
     STT.connection (Session.deepgramSTT s1) = None /\
     TTS.isConnected (Session.deepgramTTS s1) = false /\
     TTS.connection (Session.deepgramTTS s1) = None /\
     queue_view s1 = queue_view s /\ talk_view s1 = talk_view s) /\
    STT.connection (Session.deepgramSTT s2)
    = Some (STT.fresh (Session.deepgramSTT s)) /\
    Session.sdk_calls s2
    = Session.sdk_calls s1
      ++ [SetTimeout 100;
          ListenLive (STT.fresh (Session.deepgramSTT s))
                     (STT.model (STT.cfg (Session.deepgramSTT s)))
                     (STT.language (STT.cfg (Session.deepgramSTT s)));
          SetTimeout 5000].
Proof.
  intros tts_test b events speak_close listen_finish c s s1 s2 Hc.
  assert (Hl : link_ok s)
    by apply link_ok_run, link_ok_boot.
  destruct Hl as [[Hcb Hecb] _].
  assert (Ht : TTS.disconnect speak_close (Session.deepgramTTS s)
               = (Normal tt,
                  TTS.set_isConnected false
                    (TTS.set_connection None (Session.deepgramTTS s)),
                  map Sdk (match TTS.connection (Session.deepgramTTS s) with
                           | Some c' => [SpeakClose c']
                           | None => []
                           end))).
  { rewrite tts_disconnect_spec.
    destruct (Session.deepgramTTS s) as [[x|] ? ? ? ?]; reflexivity. }
  assert (Hs : forall st, STT.disconnect listen_finish st
               = (Normal tt,
                  STT.set_isConnected false (STT.set_connection None st),
                  map Sdk (match STT.connection st with
                           | Some c' => [ListenFinish c']
                           | None => []
                           end))).
  { intros st. rewrite disconnect_spec.
    destruct st as [[x|] ? ? ? ? ? ? ? ?]; reflexivity. }
  assert (E1 : s1 = Session.set_sdk_calls
                      (Session.sdk_calls s
                       ++ (match TTS.connection (Session.deepgramTTS s) with
                           | Some c' => [SpeakClose c']
                           | None => []
                           end)
                       ++ match STT.connection (Session.deepgramSTT s) with
                          | Some c' => [ListenFinish c']
                          | None => []
                          end)
                      (Session.set_stt
                         (STT.set_isConnected false
                            (STT.set_connection None (Session.deepgramSTT s)))
                         (Session.set_tts
                            (TTS.set_isConnected false
                               (TTS.set_connection None (Session.deepgramTTS s)))
                            s))).
  { subst s1. unfold Closing.on_close.
    rewrite (on_tts_sdk _ _ _ _ s Ht).
    set (s' := Session.set_sdk_calls _ _).
    rewrite (on_stt_sdk _ _ _ _ s' (Hs (Session.deepgramSTT s'))).
    subst s'. simpl. now rewrite <- app_assoc. }
  split.
  { rewrite E1. repeat split. }
  set (st1 := Session.deepgramSTT s1).
  assert (Est1 : st1 = STT.set_isConnected false
                         (STT.set_connection None (Session.deepgramSTT s)))
    by (subst st1; rewrite E1; reflexivity).
  assert (Hclose : STT.handle (STT.Close c) st1
                   = (Normal tt,
                      STT.set_timers (S (STT.timers st1))
                        (STT.set_isConnected false st1),
                      map Sdk [SetTimeout 100])).
  { apply close_spec. rewrite Est1. exact Hc. }
  subst s2. cbn [Session.run fold_left Session.step].
  rewrite (on_stt_sdk _ _ _ _ s1 Hclose).
  set (s1' := Session.set_sdk_calls _ _).
  assert (Htimer : STT.handle STT.ReconnectTimer (Session.deepgramSTT s1')
                   = (Normal tt,
                      STT.begin_connect OnTranscript
                        (STT.onErrorCallback (Session.deepgramSTT s1'))
                        STT.KDropped
                        (STT.set_timers (STT.timers st1) (Session.deepgramSTT s1')),
                      map Sdk
                        [ListenLive (STT.fresh (Session.deepgramSTT s1'))
                           (STT.model (STT.cfg (Session.deepgramSTT s1')))
                           (STT.language (STT.cfg (Session.deepgramSTT s1')));
                         SetTimeout 5000])).
  { apply reconnect_timer_spec; [reflexivity|].
    subst s1'. simpl. rewrite Est1. exact Hcb. }
  rewrite (on_stt_sdk _ _ _ _ s1' Htimer).
  subst s1'. simpl. fold st1. rewrite Est1. simpl.
  split; [reflexivity|]. now rewrite <- app_assoc.
Qed.

Lemma close_listener_leaves_reconnection_armed_witness :
  0 < STT.fresh (Session.deepgramSTT
                   (Session.run (Session.boot speech Session.SttOpened) two_units)) /\
  STT.connection
    (Session.deepgramSTT
       (Session.run
          (Closing.on_close None None
             (Session.run (Session.boot speech Session.SttOpened) two_units))
          [Session.Deepgram (STT.Close 0); Session.Deepgram STT.ReconnectTimer]))
  = Some (STT.fresh (Session.deepgramSTT
                       (Session.run (Session.boot speech Session.SttOpened)
                          two_units))).
Proof.
  assert (H0 : 0 < STT.fresh (Session.deepgramSTT
                   (Session.run (Session.boot speech Session.SttOpened) two_units)))
    by (vm_compute; lia).
  split; [exact H0|].
  destruct (close_listener_leaves_reconnection_armed speech Session.SttOpened
              two_units None None 0 H0) as (_ & H & _).
  exact H.
Defined.

(** ** Audio on its way to Deepgram *)

(** X8.  While the transcription link is connected, a binary message
    goes out exactly once, on the current connection, and changes nothing
    else in the session -- also when [connection.send] throws: the error
    goes to the logging callback of l.147. *)
Theorem audio_goes_out_once_while_connected :
  forall tts_test b events audio send c,
    let s := Session.run (Session.boot tts_test b) events in
    STT.isConnected (Session.deepgramSTT s) = true ->
    STT.connection (Session.deepgramSTT s) = Some c ->
    Session.step s (Session.WsBinary audio send)
    = Session.set_sdk_calls (Session.sdk_calls s ++ [ListenSend c audio]) s.
Proof.
  intros tts_test b events audio send c s Hc Hconn.
  assert (Hl : link_ok s) by apply link_ok_run, link_ok_boot.
  destruct Hl as [[_ Hecb] _].
  cbn [Session.step]. unfold Session.on_stt.
  rewrite (sendAudio_sends _ c) by assumption.
  rewrite Hecb. unfold send_effects.
  destruct send as [error|]; destruct s; reflexivity.
Qed.

Lemma audio_goes_out_once_while_connected_witness :
  STT.isConnected (Session.deepgramSTT
                     (Session.run (Session.boot speech Session.SttOpened) one_exchange))
  = true /\
  STT.connection (Session.deepgramSTT
                    (Session.run (Session.boot speech Session.SttOpened) one_exchange))
  = Some 0 /\
  Session.step (Session.run (Session.boot speech Session.SttOpened) one_exchange)
    (Session.WsBinary [Byte.x01; Byte.x02] (Some (JS.Error "socket closed")))
  = Session.set_sdk_calls
      (Session.sdk_calls
         (Session.run (Session.boot speech Session.SttOpened) one_exchange)
       ++ [ListenSend 0 [Byte.x01; Byte.x02]])
      (Session.run (Session.boot speech Session.SttOpened) one_exchange).
Proof.
  assert (H1 : STT.isConnected
                 (Session.deepgramSTT
                    (Session.run (Session.boot speech Session.SttOpened)
                       one_exchange)) = true) by (vm_compute; reflexivity).
  assert (H2 : STT.connection
                 (Session.deepgramSTT
                    (Session.run (Session.boot speech Session.SttOpened)
                       one_exchange)) = Some 0) by (vm_compute; reflexivity).
  split; [exact H1|]. split; [exact H2|].
  exact (audio_goes_out_once_while_connected speech Session.SttOpened
           one_exchange [Byte.x01; Byte.x02] (Some (JS.Error "socket closed"))
           0 H1 H2).
Defined.

(** ** The queue job *)

(** X9.  Audio is sent only in the turn in which its request settles.
    In every other turn the queue sends nothing, or -- at a wake-up of
    the polling loop ten seconds or more after its start -- the fall-back
    text of the running job: the loop of l.119 never ends with audio. *)
Theorem audio_is_sent_only_when_the_request_settles :
  forall tts_test b events e,
    let s := Session.run (Session.boot tts_test b) events in
    let s' := Session.step s e in
    is_settlement e = false ->
    queue_messages s' = queue_messages s \/
    exists j startTime now,
      e = Session.PollWake now /\
      Session.running s = Some j /\
      Session.phase_of j = Session.Polling startTime /\
      (Session.timeout <= now - startTime)%N /\
      queue_messages s'
      = queue_messages s ++ [Session.Text ("[TTS Error] " ++ Session.sentence j)].
Proof.
  intros tts_test b events e s s' He.
  assert (Hsame : queue_view s' = queue_view s ->
                  queue_messages s' = queue_messages s)
    by (intros H; now injection H).
  destruct e as [fields|audio send|e'|x|r now|now]; try discriminate.
  - left. subst s'. simpl. now destruct (Session.is_clear fields).
  - left. apply Hsame, on_stt_queue_view.
  - left. apply Hsame, on_stt_queue_view.
  - left. subst s'.
    change (queue_messages (Session.step s (Session.SentenceUnit x)))
      with (snd (queue_view
                   (Session.queue_add x
                      (Session.push {| Session.role_of := Session.assistant;
                                       Session.content := x |} s)))).
    rewrite queue_view_add. unfold added.
    now destruct (fst (fst (queue_view _))).
  - destruct (Session.running s) as [j|] eqn:Hrun;
      [|left; subst s'; simpl; now rewrite Hrun].
    destruct (Session.phase_of j) as [|startTime] eqn:Hphase;
      [left; subst s'; simpl; now rewrite Hrun, Hphase|].
    pose proof (polling_job_times_out tts_test b events j startTime now
                  Hrun Hphase) as Hstep.
    fold s in Hstep. fold s' in Hstep.
    destruct (now - startTime <? Session.timeout)%N eqn:Ht.
    + left. apply Hsame, Hstep.
    + right. exists j, startTime, now. repeat split; try assumption.
      * now apply N.ltb_ge.
      * change (queue_messages s') with (snd (queue_view s')).
        rewrite Hstep. unfold advance.
        now destruct (snd (fst (queue_view s))).
Qed.

Lemma audio_is_sent_only_when_the_request_settles_witness :
  is_settlement (Session.PollWake 12000) = false /\
  (queue_messages
     (Session.step
        (Session.run (Session.boot speech Session.SttOpened)
           [Session.SentenceUnit "Hello.";
            Session.SpeakSettled (TTS.Resolved (TTS.Direct TTS.Other)) 1000])
        (Session.PollWake 12000))
   = queue_messages
       (Session.run (Session.boot speech Session.SttOpened)
          [Session.SentenceUnit "Hello.";
           Session.SpeakSettled (TTS.Resolved (TTS.Direct TTS.Other)) 1000]) \/
   exists j startTime now,
     Session.PollWake 12000 = Session.PollWake now /\
     Session.running
       (Session.run (Session.boot speech Session.SttOpened)
          [Session.SentenceUnit "Hello.";
           Session.SpeakSettled (TTS.Resolved (TTS.Direct TTS.Other)) 1000])
     = Some j /\
     Session.phase_of j = Session.Polling startTime /\
     (Session.timeout <= now - startTime)%N /\
     queue_messages
       (Session.step
          (Session.run (Session.boot speech Session.SttOpened)
             [Session.SentenceUnit "Hello.";
              Session.SpeakSettled (TTS.Resolved (TTS.Direct TTS.Other)) 1000])
          (Session.PollWake 12000))
     = queue_messages
         (Session.run (Session.boot speech Session.SttOpened)
            [Session.SentenceUnit "Hello.";
             Session.SpeakSettled (TTS.Resolved (TTS.Direct TTS.Other)) 1000])
       ++ [Session.Text ("[TTS Error] " ++ Session.sentence j)]).
Proof.
  split; [reflexivity|].
  exact (audio_is_sent_only_when_the_request_settles speech Session.SttOpened
           [Session.SentenceUnit "Hello.";
            Session.SpeakSettled (TTS.Resolved (TTS.Direct TTS.Other)) 1000]
           (Session.PollWake 12000) eq_refl).
Defined.

(** X10.  An answer of [speak.request] that carries no usable audio (no
    audio at all, or an empty buffer or string) is no error for
    [synthesize]: neither callback is called, the job polls, sends
    nothing while the clock is within ten seconds of the settlement, and
    sends the fall-back text at the first wake-up after that. *)
Theorem answer_without_audio_waits_ten_seconds :
  forall tts_test b events j r audioBase64 now wakes late,
    let s := Session.run (Session.boot tts_test b) events in
    Session.running s = Some j ->
    Session.phase_of j = Session.AwaitingSynthesize ->
    attempt r = Normal audioBase64 ->
    TTS.usable audioBase64 = None ->
    Forall (early now) wakes ->
    (Session.timeout <= late - now)%N ->
    let s1 := Session.step s (Session.SpeakSettled r now) in
    effects_of (TTS.synthesize_settled r (Session.deepgramTTS s)) = [] /\
    queue_view (Session.run s1 (map Session.PollWake wakes)) = queue_view s /\
    queue_view (Session.run s1 (map Session.PollWake wakes
                                ++ [Session.PollWake late]))
    = advance (queue_view s)
        (Session.Text ("[TTS Error] " ++ Session.sentence j)).
Proof.
  intros tts_test b events j r a now wakes late s Hrun Hphase Hr Ha Hw Hlate s1.
  pose proof (settled_request_is_answered tts_test b events j r now Hrun Hphase)
    as Hstep.
  rewrite Hr, Ha in Hstep. fold s in Hstep. fold s1 in Hstep.
  destruct Hstep as [Hv Hj].
  assert (E : s1 = Session.run (Session.boot tts_test b)
                     (events ++ [Session.SpeakSettled r now]))
    by (now rewrite run_app).
  split; [|split].
  - rewrite synthesize_settled_spec, Hr, Ha. reflexivity.
  - rewrite E. rewrite E in Hj.
    destruct (polling_waits tts_test b wakes _ _ _ Hj Hw) as [-> _].
    now rewrite <- E.
  - rewrite E. rewrite E in Hj.
    rewrite (polling_ends tts_test b _ _ _ wakes late Hj Hw Hlate).
    now rewrite <- E, Hv.
Qed.

Lemma answer_without_audio_waits_ten_seconds_witness :
  Session.running
    (Session.run (Session.boot speech Session.SttOpened)
       [Session.SentenceUnit "Hello."])
  = Some {| Session.sentence := "Hello.";
            Session.originalCallback := Some OnTtsAudio;
            Session.originalErrorCallback := Some OnTtsError;
            Session.audioResult := None; Session.errorResult := None;
            Session.phase_of := Session.AwaitingSynthesize |} /\
  attempt (TTS.Resolved (TTS.Wrapper (TTS.ArrayBuffer []))) = Normal (Some "") /\
  TTS.usable (Some "") = None /\
  Forall (early 1000) [1100; 5000; 10900]%N /\
  (Session.timeout <= 11000 - 1000)%N /\
  queue_view
    (Session.run
       (Session.step
          (Session.run (Session.boot speech Session.SttOpened)
             [Session.SentenceUnit "Hello."])
          (Session.SpeakSettled (TTS.Resolved (TTS.Wrapper (TTS.ArrayBuffer [])))
             1000))
       (map Session.PollWake [1100; 5000; 10900]%N ++ [Session.PollWake 11000]))
  = advance
      (queue_view (Session.run (Session.boot speech Session.SttOpened)
                     [Session.SentenceUnit "Hello."]))
      (Session.Text "[TTS Error] Hello.").
Proof.
  assert (H1 : Session.running
                 (Session.run (Session.boot speech Session.SttOpened)
                    [Session.SentenceUnit "Hello."])
               = Some {| Session.sentence := "Hello.";
                         Session.originalCallback := Some OnTtsAudio;
                         Session.originalErrorCallback := Some OnTtsError;
                         Session.audioResult := None;
                         Session.errorResult := None;
                         Session.phase_of := Session.AwaitingSynthesize |})
    by reflexivity.
  assert (H2 : Forall (early 1000) [1100; 5000; 10900]%N)
    by (repeat constructor).
  assert (H3 : (Session.timeout <= 11000 - 1000)%N)
    by (vm_compute; discriminate).
  split; [exact H1|]. split; [reflexivity|]. split; [reflexivity|].
  split; [exact H2|]. split; [exact H3|].
  destruct (answer_without_audio_waits_ten_seconds speech Session.SttOpened
              [Session.SentenceUnit "Hello."] _
              (TTS.Resolved (TTS.Wrapper (TTS.ArrayBuffer []))) (Some "")
              1000%N [1100; 5000; 10900]%N 11000%N H1 eq_refl eq_refl eq_refl
              H2 H3) as (_ & _ & H).
  exact H.
Defined.

(** X11.  One request for speech is in flight at a time, and requests
    follow the order of submission.  At every moment of a session the
    texts given to [speak.request] are the connection test and then the
    submitted sentences, in order, up to the one of the running job; the
    sentences not yet requested are the waiting ones; and every request
    but the running one has had its message sent. *)
Theorem requests_follow_submission_one_at_a_time :
  forall tts_test b events,
    let s := Session.run (Session.boot tts_test b) events in
    spoken s ++ Session.waiting s = "test" :: submissions events /\
    length (spoken s)
    = 1 + length (queue_messages s)
      + match Session.running s with Some _ => 1 | None => 0 end.
Proof.
  intros tts_test b events s.
  destruct (run_one_in_flight events _ _ (boot_one_in_flight tts_test b))
    as (H1 & H2 & _).
  split; assumption.
Qed.

(** ** The connection test of the synthesis link *)

(** X12.  How the connection test of [fetch] ends is recorded in the
    flag [isConnected] of the synthesis link and nowhere else, and no
    turn of the session reads that flag: a session whose test failed
    sends the same messages, keeps the same history and makes the same
    calls as one whose test succeeded. *)
Theorem connection_test_outcome_is_not_consulted :
  forall test1 test2 b events,
    let s1 := Session.run (Session.boot test1 b) events in
    let s2 := Session.run (Session.boot test2 b) events in
    s2 = with_flag (TTS.isConnected (Session.deepgramTTS s2)) s1 /\
    Session.sent s2 = Session.sent s1 /\
    Session.msgHistory s2 = Session.msgHistory s1 /\
    Session.inferences s2 = Session.inferences s1 /\
    Session.sdk_calls s2 = Session.sdk_calls s1.
Proof.
  intros test1 test2 b events s1 s2.
  assert (E : forall test,
             Session.run (Session.boot test b) events
             = with_flag (match test with
                          | TTS.Resolved _ => true
                          | TTS.Rejected _ => false
                          end)
                 (Session.run (Session.boot (TTS.Rejected (JS.Error "")) b) events))
    by (intros test; now rewrite boot_flag, with_flag_run).
  subst s1 s2. rewrite (E test1), (E test2).
  repeat split.
Qed.

(** ** The callbacks of the synthesis link *)

(** X13.  The queue job borrows the two callbacks of the synthesis link
    and always gives them back.  Between jobs the callbacks are the ones
    [fetch] installed; while a job runs they are its two capturing
    closures, and the job holds no result from one turn of the event loop
    to the next: a result is delivered in the turn that captures it. *)
Theorem callbacks_are_restored_between_jobs :
  forall tts_test b events,
    let s := Session.run (Session.boot tts_test b) events in
    match Session.running s with
    | None =>
        TTS.onAudioCallback (Session.deepgramTTS s) = Some OnTtsAudio /\
        TTS.onErrorCallback (Session.deepgramTTS s) = Some OnTtsError
    | Some j =>
        TTS.onAudioCallback (Session.deepgramTTS s) = Some CaptureAudio /\
        TTS.onErrorCallback (Session.deepgramTTS s) = Some CaptureError /\
        TTS.usable (Session.audioResult j) = None /\
        Session.errorResult j = None
    end.
Proof.
  intros tts_test b events s.
  assert (Hok : job_ok s)
    by (apply job_ok_run; [apply link_ok_boot | apply job_ok_boot]).
  unfold job_ok in Hok. destruct (Session.running s) as [j|]; tauto.
Qed.

(** ** The conversation history *)

Definition keeps_history (e : Session.event) : Prop :=
  match e with
  | Session.WsText fields => Session.is_clear fields = false
  | _ => True
  end.

(** X14.  Short of a clear command the history only grows at its end:
    no turn of the event loop drops, changes or reorders a turn of the
    conversation. *)
Theorem history_only_grows_without_clear :
  forall events s,
    Forall keeps_history events ->
    exists more,
      Session.msgHistory (Session.run s events) = Session.msgHistory s ++ more.
Proof.
  induction events as [|e events IH]; intros s H.
  - exists []. simpl. now rewrite app_nil_r.
  - inversion H as [|? ? He Hrest]; subst.
    destruct (IH (Session.step s e) Hrest) as [more Hmore].
    simpl. rewrite Hmore, step_history.
    destruct e as [fields| | | | |];
      try (eexists; rewrite <- app_assoc; reflexivity).
    simpl in He. rewrite He. now exists more.
Qed.

Lemma history_only_grows_without_clear_witness :
  Forall keeps_history one_exchange /\
  exists more,
    Session.msgHistory
      (Session.run (Session.boot speech Session.SttOpened) one_exchange)
    = Session.msgHistory (Session.boot speech Session.SttOpened) ++ more.
Proof.
  assert (H : Forall keeps_history one_exchange) by (repeat constructor).
  split; [exact H|].
  exact (history_only_grows_without_clear one_exchange
           (Session.boot speech Session.SttOpened) H).
Defined.

(** ** Transcripts on their way to the client *)

(** X15.  Every transcript Deepgram reports with some text is forwarded
    to the client at once and once, with [interim] the negation of
    [is_final], and nothing else the session sends has that shape: the
    transcripts among the messages sent are those of the [Transcript]
    events, in order. *)
Theorem transcripts_are_forwarded_once_and_in_order :
  forall tts_test b events e,
    let s := Session.run (Session.boot tts_test b) events in
    transcripts_sent (Session.step s e)
    = transcripts_sent s
      ++ match e with
         | Session.Deepgram (STT.Transcript c data) =>
             if (c <? STT.fresh (Session.deepgramSTT s))
                && JS.truthy (STT.extract_transcript data)
             then [Session.Transcribed (STT.extract_transcript data)
                                       (negb (STT.extract_is_final data))]
             else []
         | _ => []
         end.
Proof.
  intros tts_test b events e s.
  assert (Hq : match e with
               | Session.Deepgram (STT.Transcript _ _) => False
               | _ => True
               end ->
               transcripts_sent (Session.step s e) = transcripts_sent s ++ [])
    by (intros He; rewrite app_nil_r;
        now apply queue_turn_transcripts, step_queue_turn).
  destruct e as [fields|audio send|e'|x|r now|now]; try (now apply Hq).
  destruct e' as [c send|c msg|c|c data|c|c|]; try (now apply Hq).
  clear Hq.
  assert (Hl : link_ok s) by apply link_ok_run, link_ok_boot.
  destruct Hl as [[Hcb _] _].
  pose proof (talk_view_transcript s c data) as Hv.
  unfold heard in Hv. rewrite Hcb, andb_true_r in Hv.
  destruct ((c <? STT.fresh (Session.deepgramSTT s))
            && JS.truthy (STT.extract_transcript data)).
  - rewrite talk_view_on_transcript in Hv.
    unfold transcripts_sent.
    replace (Session.sent (Session.step s
               (Session.Deepgram (STT.Transcript c data))))
      with (Session.sent s
            ++ [Session.Transcribed (STT.extract_transcript data)
                  (negb (STT.extract_is_final data))])
      by (now injection Hv).
    now rewrite filter_app.
  - unfold transcripts_sent.
    replace (Session.sent (Session.step s
               (Session.Deepgram (STT.Transcript c data))))
      with (Session.sent s) by (now injection Hv).
    now rewrite app_nil_r.
Qed.

(** ** The entry point of the worker *)

Definition websocket_path (url : string) : Prop :=
  exists p, url = (p ++ "/websocket")%string.

(** X16.  The worker hands a request to a session object exactly when
    its URL ends with [/websocket] and its [Upgrade] header is the string
    [websocket]; a URL that ends so with any other header, or none, gets
    status 426, and every other URL status 400.  A request that is turned
    away reaches no session object. *)
Theorem worker_forwards_websocket_upgrades_only :
  forall r uuid,
    (Worker.fetch r uuid = Worker.Forwarded uuid <->
     websocket_path (Worker.url r) /\ Worker.upgrade r = Some "websocket") /\
    (Worker.fetch r uuid
     = Worker.Status 426 (Some "Expected upgrade to websocket") <->
     websocket_path (Worker.url r) /\ Worker.upgrade r <> Some "websocket") /\
    (Worker.fetch r uuid = Worker.Status 400 None <->
     ~ websocket_path (Worker.url r)).
Proof.
  intros r uuid. unfold Worker.fetch, websocket_path.
  pose proof (endsWith_spec (Worker.url r) "/websocket") as Hspec.
  destruct (Worker.endsWith (Worker.url r) "/websocket").
  - assert (Hp : exists p, Worker.url r = (p ++ "/websocket")%string)
      by (now apply Hspec).
    destruct (Worker.upgrade r) as [h|].
    + destruct (String.eqb_spec h "websocket") as [->|Hne]; simpl.
      * repeat split; try discriminate; try tauto.
      * rewrite orb_true_r.
        repeat split; try discriminate; try tauto; try congruence.
        intros [_ [= H]]. contradiction.
    + simpl. repeat split; try discriminate; try tauto.
      intros [_ H]. discriminate.
  - assert (Hp : ~ exists p, Worker.url r = (p ++ "/websocket")%string).
    { intros H. apply Hspec in H. discriminate. }
    repeat split; try discriminate; try tauto.
Qed.

(** ** The earlier controller *)

(** X17.  In the controller of [src/index.ts] a binary message counts as
    a turn of the user whenever [transcribe] returns, whatever it
    returns: the text goes to the client, to the history and to the
    model also when it is empty, which it is when the answer of Deepgram
    has no transcript in it.  When the request fails, the answer is not
    [ok] or its body cannot be read, [transcribe] throws and the message
    leaves no trace in the session. *)
Theorem legacy_transcription_is_a_turn_even_when_empty :
  forall s r,
    let s' := Legacy.step s (Legacy.TranscribeSettled r) in
    match r with
    | Legacy.Responded true _ _ (inl body) =>
        let text := Legacy.extract_transcript body in
        Legacy.transcribe_settled r = Normal text /\
        Session.sent s' = Session.sent s ++ [Session.Text text] /\
        Session.msgHistory s'
        = Session.msgHistory s
          ++ [{| Session.role_of := Session.user; Session.content := text |}] /\
        Session.inferences s'
        = Session.inferences s ++ [Session.msgHistory s'] /\
        queue_view s'
        = (option_map Session.sentence (Session.running s), Session.waiting s,
           queue_messages s ++ [Session.Text text]) /\
        (Legacy.results_of body = None -> text = "")
    | _ =>
        (exists error, Legacy.transcribe_settled r = Thrown error) /\ s' = s
    end.
Proof.
  intros s r s'. subst s'.
  destruct r as [e|[|] status statusText [body|e]]; cbn [Legacy.step];
    try (split; [eexists; reflexivity|reflexivity]).
  cbn [Legacy.transcribe_settled]. repeat split.
  - unfold queue_view, queue_messages, Legacy.on_text. simpl.
    now rewrite filter_snoc.
  - unfold Legacy.results_of, Legacy.extract_transcript.
    destruct body as [body|]; [|reflexivity].
    now intros ->.
Qed.

(** ** Audio on its way to the client *)

Lemma usable_base64 (bytes : list Byte.byte) :
  bytes <> [] ->
  TTS.usable (Some (TTS.arrayBufferToBase64 bytes))
  = Some (TTS.arrayBufferToBase64 bytes).
Proof.
  intros H. destruct bytes as [|x [|y [|z rest]]]; [contradiction| | |];
    reflexivity.
Qed.

(** X18.  The audio Deepgram answers with reaches the client whole.
    When the request of the running job resolves to audio bytes -- an
    [ArrayBuffer], bare or in the [result] of the SDK, an [audio]
    property, a stream read to its end or the body of a response -- and
    there is at least one byte, the job sends, in that turn, one [audio]
    message with its sentence and the base64 text of exactly these
    bytes. *)
Theorem answered_audio_reaches_the_client :
  forall tts_test b events j v bytes now,
    let s := Session.run (Session.boot tts_test b) events in
    Session.running s = Some j ->
    Session.phase_of j = Session.AwaitingSynthesize ->
    TTS.decoded (TTS.actualResult v)
    = Normal (Some (TTS.arrayBufferToBase64 bytes)) ->
    bytes <> [] ->
    let s' := Session.step s (Session.SpeakSettled (TTS.Resolved v) now) in
    queue_messages s'
    = queue_messages s
      ++ [Session.Audio (Session.sentence j) (TTS.arrayBufferToBase64 bytes)].
Proof.
  intros tts_test b events j v bytes now s Hrun Hphase Hv Hb s'.
  pose proof (settled_request_is_answered tts_test b events j
                (TTS.Resolved v) now Hrun Hphase) as Hstep.
  cbv zeta in Hstep. unfold attempt in Hstep.
  rewrite Hv, (usable_base64 bytes Hb) in Hstep.
  change (queue_messages s') with (snd (queue_view s')).
  subst s' s. rewrite Hstep. unfold advance.
  now destruct (snd (fst (queue_view _))).
Qed.

(** An answer whose audio comes as a stream of two chunks. *)
Definition streamed : TTS.sdk_value :=
  TTS.Direct
    (TTS.Obj {| TTS.audio := None;
                TTS.getReader :=
                  Some {| TTS.chunks := [[Byte.x52; Byte.x49]; [Byte.x46]];
                          TTS.failure := None |};
                TTS.arrayBuffer := None |}).

Lemma answered_audio_reaches_the_client_witness :
  Session.running
    (Session.run (Session.boot speech Session.SttOpened)
       [Session.SentenceUnit "Hello."])
  = Some {| Session.sentence := "Hello.";
            Session.originalCallback := Some OnTtsAudio;
            Session.originalErrorCallback := Some OnTtsError;
            Session.audioResult := None; Session.errorResult := None;
            Session.phase_of := Session.AwaitingSynthesize |} /\
  TTS.decoded (TTS.actualResult streamed)
  = Normal (Some (TTS.arrayBufferToBase64 [Byte.x52; Byte.x49; Byte.x46])) /\
  [Byte.x52; Byte.x49; Byte.x46] <> [] /\
  queue_messages
    (Session.step
       (Session.run (Session.boot speech Session.SttOpened)
          [Session.SentenceUnit "Hello."])
       (Session.SpeakSettled (TTS.Resolved streamed) 500))
  = queue_messages
      (Session.run (Session.boot speech Session.SttOpened)
         [Session.SentenceUnit "Hello."])
    ++ [Session.Audio "Hello."
          (TTS.arrayBufferToBase64 [Byte.x52; Byte.x49; Byte.x46])].
Proof.
  assert (H1 : Session.running
                 (Session.run (Session.boot speech Session.SttOpened)
                    [Session.SentenceUnit "Hello."])
               = Some {| Session.sentence := "Hello.";
                         Session.originalCallback := Some OnTtsAudio;
                         Session.originalErrorCallback := Some OnTtsError;
                         Session.audioResult := None;
                         Session.errorResult := None;
                         Session.phase_of := Session.AwaitingSynthesize |})
    by reflexivity.
  assert (H2 : [Byte.x52; Byte.x49; Byte.x46] <> []) by discriminate.
  assert (H3 : TTS.decoded (TTS.actualResult streamed)
               = Normal (Some (TTS.arrayBufferToBase64
                                 [Byte.x52; Byte.x49; Byte.x46])))
    by reflexivity.
  split; [exact H1|]. split; [exact H3|]. split; [exact H2|].
  exact (answered_audio_reaches_the_client speech Session.SttOpened
           [Session.SentenceUnit "Hello."] _ streamed
           [Byte.x52; Byte.x49; Byte.x46] 500%N H1 eq_refl H3 H2).
Defined.

(** ** Reconnections started by [sendAudio] *)

(** X19.  The flag [isReconnecting] of the transcription link is up
    exactly while one [connect] call made by [sendAudio] waits for its
    outcome.  So [sendAudio] never has two reconnections under way, the
    flag never stays up once that call has settled, and the audio held
    for resending is the audio of one message. *)
Theorem one_reconnection_is_under_way_while_the_flag_is_up :
  forall tts_test b events,
    let link := Session.deepgramSTT
                  (Session.run (Session.boot tts_test b) events) in
    length (filter is_resend (STT.opening link))
    = if STT.isReconnecting link then 1 else 0.
Proof.
  intros tts_test b events link.
  apply latched_run, latched_boot.
Qed.

(** ** The history of the earlier controller *)

(** The history after a sequence of turns, read off the turns alone. *)
Definition history_after (h : list Session.turn) (events : list Legacy.event)
  : list Session.turn :=
  fold_left
    (fun h e =>
       match e with
       | Legacy.WsText fields => if Session.is_clear fields then [] else h
       | Legacy.TranscribeSettled r =>
           match Legacy.transcribe_settled r with
           | Normal text =>
               h ++ [{| Session.role_of := Session.user;
                        Session.content := text |}]
           | Thrown _ => h
           end
       | Legacy.SentenceUnit sentence =>
           h ++ [{| Session.role_of := Session.assistant;
                    Session.content := sentence |}]
       | _ => h
       end)
    events h.

(** X20.  In the controller of [src/index.ts] the history is a function
    of the turns alone: one user turn for every transcription that
    returned, one assistant turn for every sentence unit, in the order of
    the turns, since the last clear command.  No state of the links or of
    the queue, and no outcome of a synthesis, has a part in it. *)
Theorem legacy_history_follows_the_turns :
  (forall events s,
      Session.msgHistory (Legacy.run s events)
      = history_after (Session.msgHistory s) events) /\
  (forall tts_test events,
      Session.msgHistory (Legacy.run (Legacy.boot tts_test) events)
      = history_after [] events).
Proof.
  assert (H : forall events s,
             Session.msgHistory (Legacy.run s events)
             = history_after (Session.msgHistory s) events).
  { unfold Legacy.run, history_after.
    induction events as [|e events IH]; intros s; [reflexivity|].
    cbn [fold_left]. rewrite IH. f_equal.
    destruct e as [fields|audio|r|x|r now|now]; cbn [Legacy.step].
    - now destruct (Session.is_clear fields).
    - reflexivity.
    - now destruct (Legacy.transcribe_settled r).
    - now rewrite step_history.
    - rewrite step_history. apply app_nil_r.
    - rewrite step_history. apply app_nil_r. }
  split; [exact H|].
  intros tts_test events. rewrite H. now destruct tts_test.
Qed.

(** ** Two reconnections at once *)

(** X21.  The reconnection of the [Close] handler and the one of
    [sendAudio] do not know of each other.  When a connection has closed
    and audio arrives before the 100 ms timer fires, [sendAudio] opens
    one connection and the timer a second one, which replaces it in
    [this.connection]; when the first opens, the link counts as
    connected and the audio held for resending goes out on the second,
    whose own [connect] call is still waiting. *)
Theorem resent_audio_goes_to_the_latest_connection :
  forall s cb n audio send send',
    STT.wf s ->
    STT.onTranscriptCallback s = Some cb ->
    STT.not_connected s = true ->
    STT.isReconnecting s = false ->
    STT.timers s = S n ->
    let first := STT.fresh s in
    let second := S (STT.fresh s) in
    let s1 := state_of (STT.sendAudio audio send s) in
    let s2 := state_of (STT.handle STT.ReconnectTimer s1) in
    let opened := STT.handle (STT.Open first send') s2 in
    In (Sdk (ListenLive first (STT.model (STT.cfg s)) (STT.language (STT.cfg s))))
       (effects_of (STT.sendAudio audio send s)) /\
    In (Sdk (ListenLive second (STT.model (STT.cfg s)) (STT.language (STT.cfg s))))
       (effects_of (STT.handle STT.ReconnectTimer s1)) /\
    effects_of opened
    = send_effects second audio send' (STT.onErrorCallback s) /\
    STT.isConnected (state_of opened) = true /\
    STT.connection (state_of opened) = Some second /\
    STT.opening (state_of opened) = STT.opening s ++ [(second, STT.KDropped)].
Proof.
  intros s cb n audio send send' Hwf Hcb Hnc Hrec Ht first second s1 s2 opened.
  subst s1 s2 opened first second.
  rewrite (sendAudio_reconnects s audio send cb Hnc Hcb Hrec).
  cbn [state_of effects_of fst snd].
  set (s1 := STT.begin_connect cb (STT.onErrorCallback s) (STT.KResend audio)
               (STT.set_isReconnecting true s)).
  rewrite (reconnect_timer_spec s1 n cb)
    by (subst s1; simpl; first [assumption|reflexivity]).
  cbn [state_of effects_of fst snd].
  set (s2 := STT.begin_connect cb (STT.onErrorCallback s1) STT.KDropped
               (STT.set_timers n s1)).
  split; [simpl; auto|]. split; [subst s1; simpl; auto|].
  assert (E : STT.take (STT.fresh s) (STT.opening s2)
              = (Some (STT.KResend audio),
                 STT.opening s ++ [(S (STT.fresh s), STT.KDropped)])).
  { subst s2 s1. simpl. rewrite <- app_assoc. simpl.
    unfold STT.wf in Hwf. clear - Hwf.
    induction Hwf as [|[c' k'] o Hlt Ho IH]; simpl.
    - now rewrite Nat.eqb_refl.
    - simpl in Hlt. destruct (Nat.eqb_spec c' (STT.fresh s)); [lia|].
      now rewrite IH. }
  unfold STT.handle. rewrite bind_get, E, !bind_modify.
  simpl STT.resume. rewrite bind_modify. simpl when.
  rewrite (sendAudio_sends _ (S (STT.fresh s))) by reflexivity.
  repeat split.
Qed.

Lemma resent_audio_goes_to_the_latest_connection_witness :
  STT.wf just_closed /\
  STT.onTranscriptCallback just_closed = Some OnTranscript /\
  STT.not_connected just_closed = true /\
  STT.isReconnecting just_closed = false /\
  STT.timers just_closed = 1 /\
  effects_of
    (STT.handle (STT.Open 1 None)
       (state_of
          (STT.handle STT.ReconnectTimer
             (state_of (STT.sendAudio [Byte.x01] None just_closed)))))
  = [Sdk (ListenSend 2 [Byte.x01])].
Proof.
  assert (Hwf : STT.wf just_closed) by (repeat constructor).
  split; [exact Hwf|]. do 4 (split; [reflexivity|]).
  destruct (resent_audio_goes_to_the_latest_connection just_closed OnTranscript 0
              [Byte.x01] None None Hwf eq_refl eq_refl eq_refl eq_refl)
    as (_ & _ & H & _).
  exact H.
Defined.
